(** * Interviewer terminal: a shallow embedding of the emulator core

    The development follows the TypeScript sources of the terminal
    emulator: [CommandParser], [PipelineExecutor], [CommandRegistry],
    [CommandContext], the handlers of [commands/system] and
    [commands/filesystem] that the statements run, [VirtualFileSystem],
    [InputBuffer], [KeystrokeRecorder] with its [BurstDetector],
    [PasteDetector] and the report of [IntegrityScorer].

    Conventions.
    - A JavaScript string is a Rocq [string]; one [ascii] stands for one
      UTF-16 code unit below 256.  Lengths and indices are [Z], as the
      source computes with JavaScript numbers.
    - A JavaScript object used as a dictionary, and a [Map], is a [gmap];
      [undefined] is [None].
    - [Date.now()] is an explicit argument [now].
    - Mutation is explicit state passing; an exception is a constructor of
      the outcome type.

    The definitions come first, module by module as in the source; the
    properties follow from [JSFacts] on. *)

From Stdlib Require Import ZArith Ascii String List Lia Bool DecimalString.
From Stdlib Require QArith.
From stdpp Require Import gmap strings list fin_maps sorting.

Set Warnings "-register-all".
Set Default Proof Using "Type".

(** ** JavaScript strings *)

Module JS.

Definition chars (s : string) : list ascii := list_ascii_of_string s.
Definition str (cs : list ascii) : string := string_of_list_ascii cs.

(** [s.length] *)
Definition length (s : string) : Z := Z.of_nat (String.length s).

(** [Boolean(s)]: only the empty string is falsy. *)
Definition truthy (s : string) : bool :=
  match s with EmptyString => false | String _ _ => true end.

Definition of_char (c : ascii) : string := String c EmptyString.

(** [current += char] *)
Definition push (s : string) (c : ascii) : string := s +:+ of_char c.

(** Relative index of [slice]: negative counts from the end, and the
    result is clamped to [0 .. len]. *)
Definition rel_index (len i : Z) : Z :=
  if (i <? 0)%Z then Z.max (len + i) 0 else Z.min i len.

(** [s.slice(from, to)] *)
Definition slice (s : string) (from to : Z) : string :=
  let a := rel_index (length s) from in
  let b := rel_index (length s) to in
  str (take (Z.to_nat (b - a)) (drop (Z.to_nat a) (chars s))).

(** [s.slice(from)] *)
Definition slice_from (s : string) (from : Z) : string :=
  slice s from (length s).

(** [s.startsWith(p)] *)
Fixpoint startsWith (s p : string) {struct p} : bool :=
  match p with
  | EmptyString => true
  | String a p' =>
      match s with
      | EmptyString => false
      | String b s' => Ascii.eqb b a && startsWith s' p'
      end
  end.

(** [s.endsWith(p)] *)
Definition endsWith (s p : string) : bool :=
  (length p <=? length s)%Z && String.eqb (slice_from s (length s - length p)) p.

(** [s.includes(sub)] *)
Fixpoint includes (s sub : string) : bool :=
  startsWith s sub ||
  match s with
  | EmptyString => false
  | String _ s' => includes s' sub
  end.

(** [s.indexOf(c)] for a one-character needle; [-1] when absent. *)
Fixpoint indexOf_go (cs : list ascii) (c : ascii) (i : Z) : Z :=
  match cs with
  | [] => (-1)%Z
  | x :: cs' => if Ascii.eqb x c then i else indexOf_go cs' c (i + 1)%Z
  end.
Definition indexOf (s : string) (c : ascii) : Z := indexOf_go (chars s) c 0%Z.

(** White space of [trim] and of the regular expression class [\s],
    among the code units below 256. *)
Definition is_space (c : ascii) : bool :=
  match c with
  | "009" | "010" | "011" | "012" | "013" | " " | "160" => true
  | _ => false
  end%char.

Fixpoint drop_while {A} (p : A → bool) (l : list A) : list A :=
  match l with
  | [] => []
  | x :: l' => if p x then drop_while p l' else l
  end.

(** [s.trim()] *)
Definition trim (s : string) : string :=
  str (rev (drop_while is_space (rev (drop_while is_space (chars s))))).

(** [s.split(sep)] for a one-character separator. *)
Fixpoint split (sep : ascii) (s : string) : list string :=
  match s with
  | EmptyString => [EmptyString]
  | String c s' =>
      if Ascii.eqb c sep then EmptyString :: split sep s'
      else match split sep s' with
           | [] => [of_char c]
           | w :: ws => String c w :: ws
           end
  end.

(** [s.split(/\s+/)]: the pieces between maximal runs of white space. *)
Fixpoint split_ws_go (cs : list ascii) (cur : string) (in_gap : bool) : list string :=
  match cs with
  | [] => [cur]
  | c :: cs' =>
      if is_space c
      then (if in_gap then split_ws_go cs' cur true
            else cur :: split_ws_go cs' EmptyString true)
      else split_ws_go cs' (push cur c) false
  end.
Definition split_ws (s : string) : list string :=
  split_ws_go (chars s) EmptyString false.

(** [parts.join(sep)] *)
Fixpoint join (sep : string) (parts : list string) : string :=
  match parts with
  | [] => EmptyString
  | [p] => p
  | p :: rest => p +:+ sep +:+ join sep rest
  end.

(** [s.repeat(n)] for [n >= 0]. *)
Definition repeat (s : string) (n : Z) : string :=
  Nat.iter (Z.to_nat n) (fun acc => s +:+ acc) EmptyString.

(** Template rendering [`${n}`] of an integer. *)
Definition of_Z (n : Z) : string := NilZero.string_of_int (Z.to_int n).

(** [array.filter(Boolean)] on strings. *)
Definition filter_truthy (l : list string) : list string :=
  List.filter truthy l.

(** The digit class [\d] of regular expressions. *)
Definition is_digit (c : ascii) : bool :=
  let n := nat_of_ascii c in (48 <=? n) && (n <=? 57).

(** The word class [\w] of regular expressions. *)
Definition is_word (c : ascii) : bool :=
  let n := nat_of_ascii c in
  is_digit c || ((65 <=? n) && (n <=? 90))
  || ((97 <=? n) && (n <=? 122)) || (n =? 95).

Definition ESC : string := of_char "027"%char.

(** The order of [array.sort()] without a comparator: strings compared
    code unit by code unit, a proper prefix first. *)
Definition le (a b : string) : Prop := String.leb a b = true.

Global Instance le_dec (a b : string) : Decision (le a b).
Proof. unfold le. apply _. Defined.

(** [array.sort()] on strings.  Strings that compare equal are the same
    string, so the sorted array does not depend on the algorithm. *)
Definition sort (l : list string) : list string := merge_sort le l.

(** [[...new Set(l)]]: the first occurrence of every element, in order. *)
Definition dedupe (l : list string) : list string :=
  fold_left (fun seen x => if bool_decide (x ∈ seen) then seen else seen ++ [x]) l [].

(** *** Vocabulary for the statements about strings *)

(** No character of [s] is [sep]. *)
Definition free (sep : ascii) (s : string) : Prop :=
  Forall (fun x => x ≠ sep) (chars s).

End JS.

(** ** CommandParser.ts *)

Module CommandParser.

Inductive Operator := OpPipe | OpAnd | OpOr | OpSemi.

Global Instance Operator_eq_dec : EqDecision Operator.
Proof. solve_decision. Defined.

Inductive FlagValue :=
| FlagString (s : string)
| FlagBool (b : bool).

Global Instance FlagValue_eq_dec : EqDecision FlagValue.
Proof. solve_decision. Defined.

Record OutputRedirect := { file : string; append : bool }.

Record ParsedCommand := {
  command : string;
  args : list string;
  rawArgs : string;
  flags : gmap string FlagValue;
  inputRedirect : option string;
  outputRedirect : option OutputRedirect
}.

Record Pipeline := {
  commands : list ParsedCommand;
  operators : list Operator
}.

Inductive Segment :=
| SegCommand (value : string)
| SegOperator (op : Operator).

(** *** tokenize *)

Record TokState := {
  tk_tokens : list string;
  tk_current : string;
  tk_single : bool;
  tk_double : bool;
  tk_escaped : bool
}.

Definition tokenizeStep (st : TokState) (char : ascii) : TokState :=
  let '{| tk_tokens := tokens; tk_current := current; tk_single := inS;
          tk_double := inD; tk_escaped := escaped |} := st in
  if escaped then
    {| tk_tokens := tokens; tk_current := JS.push current char;
       tk_single := inS; tk_double := inD; tk_escaped := false |}
  else if Ascii.eqb char "\"%char && negb inS then
    {| tk_tokens := tokens; tk_current := current;
       tk_single := inS; tk_double := inD; tk_escaped := true |}
  else if Ascii.eqb char "'"%char && negb inD then
    {| tk_tokens := tokens; tk_current := current;
       tk_single := negb inS; tk_double := inD; tk_escaped := false |}
  else if Ascii.eqb char "034"%char && negb inS then
    {| tk_tokens := tokens; tk_current := current;
       tk_single := inS; tk_double := negb inD; tk_escaped := false |}
  else if Ascii.eqb char " "%char && negb inS && negb inD then
    if JS.truthy current then
      {| tk_tokens := tokens ++ [current]; tk_current := EmptyString;
         tk_single := inS; tk_double := inD; tk_escaped := false |}
    else st
  else
    {| tk_tokens := tokens; tk_current := JS.push current char;
       tk_single := inS; tk_double := inD; tk_escaped := false |}.

Definition tokenize (input : string) : list string :=
  let st := fold_left tokenizeStep (JS.chars input)
              {| tk_tokens := []; tk_current := EmptyString;
                 tk_single := false; tk_double := false; tk_escaped := false |} in
  if JS.truthy (tk_current st) then tk_tokens st ++ [tk_current st]
  else tk_tokens st.

(** *** splitPipeline *)

Record SplitState := {
  sp_results : list Segment;
  sp_current : string;
  sp_single : bool;
  sp_double : bool;
  sp_escaped : bool
}.

(** [if (current.trim()) results.push({ type: 'command', value: current.trim() })] *)
Definition pushCommand (results : list Segment) (current : string) : list Segment :=
  if JS.truthy (JS.trim current) then results ++ [SegCommand (JS.trim current)]
  else results.

(** The operator branch shared by the four operators: flush the pending
    command, record the operator, start a fresh segment. *)
Definition emitOperator (st : SplitState) (op : Operator) : SplitState :=
  {| sp_results := pushCommand (sp_results st) (sp_current st) ++ [SegOperator op];
     sp_current := EmptyString;
     sp_single := sp_single st; sp_double := sp_double st;
     sp_escaped := sp_escaped st |}.

Definition keepChar (st : SplitState) (char : ascii)
    (inS inD escaped : bool) : SplitState :=
  {| sp_results := sp_results st; sp_current := JS.push (sp_current st) char;
     sp_single := inS; sp_double := inD; sp_escaped := escaped |}.

(** One iteration of the scan at [input[i] = char], with
    [next = input[i + 1]].  The boolean tells whether the iteration also
    consumed [next] (the extra [i++] of the two-character operators). *)
Definition splitStep (st : SplitState) (char : ascii) (next : option ascii)
    : SplitState * bool :=
  let inS := sp_single st in
  let inD := sp_double st in
  if sp_escaped st then (keepChar st char inS inD false, false)
  else if Ascii.eqb char "\"%char then (keepChar st char inS inD true, false)
  else if Ascii.eqb char "'"%char && negb inD then
    (keepChar st char (negb inS) inD false, false)
  else if Ascii.eqb char "034"%char && negb inS then
    (keepChar st char inS (negb inD) false, false)
  else if inS || inD then (keepChar st char inS inD false, false)
  else if Ascii.eqb char "|"%char && bool_decide (next = Some "|"%char) then
    (emitOperator st OpOr, true)
  else if Ascii.eqb char "&"%char && bool_decide (next = Some "&"%char) then
    (emitOperator st OpAnd, true)
  else if Ascii.eqb char "|"%char then (emitOperator st OpPipe, false)
  else if Ascii.eqb char ";"%char then (emitOperator st OpSemi, false)
  else (keepChar st char inS inD false, false).

Fixpoint splitLoop (input : list ascii) (st : SplitState) : SplitState :=
  match input with
  | [] => st
  | char :: rest =>
      let '(st', skip) := splitStep st char (head rest) in
      splitLoop (if skip then match rest with [] => rest | _ :: r => r end
                 else rest) st'
  end.

Definition splitPipeline (input : string) : list Segment :=
  let st := splitLoop (JS.chars input)
              {| sp_results := []; sp_current := EmptyString;
                 sp_single := false; sp_double := false; sp_escaped := false |} in
  pushCommand (sp_results st) (sp_current st).

(** *** parseCommand *)

Record ParseAcc := {
  pa_args : list string;
  pa_flags : gmap string FlagValue;
  pa_output : option OutputRedirect;
  pa_input : option string
}.

Definition setOutput (acc : ParseAcc) (f : string) (app : bool) : ParseAcc :=
  {| pa_args := pa_args acc; pa_flags := pa_flags acc;
     pa_output := Some {| file := f; append := app |}; pa_input := pa_input acc |}.

Definition setInput (acc : ParseAcc) (f : string) : ParseAcc :=
  {| pa_args := pa_args acc; pa_flags := pa_flags acc;
     pa_output := pa_output acc; pa_input := Some f |}.

(** [flags[k] = v] on a plain object: the key [__proto__] reaches the
    prototype setter, which ignores a string or a boolean, and adds no
    property. *)
Definition setFlag (acc : ParseAcc) (k : string) (v : FlagValue) : ParseAcc :=
  {| pa_args := pa_args acc;
     pa_flags := if String.eqb k "__proto__" then pa_flags acc
                 else <[k := v]> (pa_flags acc);
     pa_output := pa_output acc; pa_input := pa_input acc |}.

Definition pushArg (acc : ParseAcc) (token : string) : ParseAcc :=
  {| pa_args := pa_args acc ++ [token]; pa_flags := pa_flags acc;
     pa_output := pa_output acc; pa_input := pa_input acc |}.

(** One iteration of the [while (i < tokens.length)] loop at
    [tokens[i] = token]; [next] is [tokens[i + 1]] when [i + 1 <
    tokens.length].  The boolean tells whether the iteration consumed
    [next] as well. *)
Definition parseStep (acc : ParseAcc) (token : string) (next : option string)
    : ParseAcc * bool :=
  match (if String.eqb token ">>" then next else None) with
  | Some f => (setOutput acc f true, true)
  | None =>
  match (if String.eqb token ">" then next else None) with
  | Some f => (setOutput acc f false, true)
  | None =>
  if JS.startsWith token ">>" then (setOutput acc (JS.slice_from token 2) true, false)
  else if JS.startsWith token ">" && (1 <? JS.length token)%Z then
    (setOutput acc (JS.slice_from token 1) false, false)
  else
  match (if String.eqb token "<" then next else None) with
  | Some f => (setInput acc f, true)
  | None =>
  if JS.startsWith token "--" then
    let eqIndex := JS.indexOf token "="%char in
    if negb (eqIndex =? -1)%Z then
      (setFlag acc (JS.slice token 2 eqIndex)
         (FlagString (JS.slice_from token (eqIndex + 1))), false)
    else
      match next with
      | Some n =>
          if negb (JS.startsWith n "-")
          then (setFlag acc (JS.slice_from token 2) (FlagString n), true)
          else (setFlag acc (JS.slice_from token 2) (FlagBool true), false)
      | None => (setFlag acc (JS.slice_from token 2) (FlagBool true), false)
      end
  else if JS.startsWith token "-" && (1 <? JS.length token)%Z
          && negb (JS.startsWith token "-") then
    (* for (const ch of flagChars) flags[ch] = true *)
    (fold_left (fun a ch => setFlag a (JS.of_char ch) (FlagBool true))
       (JS.chars (JS.slice_from token 1)) acc, false)
  else (pushArg acc token, false)
  end end end.

Fixpoint parseLoop (tokens : list string) (acc : ParseAcc) : ParseAcc :=
  match tokens with
  | [] => acc
  | token :: rest =>
      let '(acc', two) := parseStep acc token (head rest) in
      parseLoop (if two then match rest with [] => rest | _ :: r => r end
                 else rest) acc'
  end.

(** [args = []], [flags = {}], no redirection yet. *)
Definition emptyAcc : ParseAcc :=
  {| pa_args := []; pa_flags := ∅; pa_output := None; pa_input := None |}.

Definition parseCommand (input : string) : ParsedCommand :=
  match tokenize input with
  | [] => {| command := EmptyString; args := []; rawArgs := EmptyString;
             flags := ∅; inputRedirect := None; outputRedirect := None |}
  | cmd :: rest =>
      let acc := parseLoop rest emptyAcc in
      {| command := cmd; args := pa_args acc;
         rawArgs := JS.join " " rest;
         flags := pa_flags acc;
         inputRedirect := pa_input acc;
         outputRedirect := pa_output acc |}
  end.

(** *** parse *)

Definition segmentCommands (segs : list Segment) : list string :=
  omap (fun seg => match seg with SegCommand v => Some v | SegOperator _ => None end) segs.

Definition segmentOperators (segs : list Segment) : list Operator :=
  omap (fun seg => match seg with SegOperator o => Some o | SegCommand _ => None end) segs.

Definition parse (input : string) : Pipeline :=
  let segments := splitPipeline input in
  {| commands := parseCommand <$> segmentCommands segments;
     operators := segmentOperators segments |}.

(** *** Vocabulary for the statements about [splitPipeline] *)




(** *** Vocabulary for the statements about tokens and lines *)

(** The character [c] does not occur in [s]. *)
Definition lacks (c : ascii) (s : string) : bool :=
  forallb (fun x => negb (Ascii.eqb x c)) (JS.chars s).

(** No backslash and no quote. *)
Definition quoteFree (s : string) : bool :=
  lacks "\" s && lacks "'" s && lacks "034" s.

(** None of the characters the operators are made of. *)
Definition operatorFree (s : string) : bool :=
  lacks "|" s && lacks "&" s && lacks ";" s.

(** A non-empty run of the characters of [\w]. *)
Definition isWord (s : string) : bool :=
  JS.truthy s && forallb JS.is_word (JS.chars s).

(** What [tokenize] returns from the state its loop ends in. *)
Definition tokFinish (st : TokState) : list string :=
  if JS.truthy (tk_current st) then tk_tokens st ++ [tk_current st]
  else tk_tokens st.

(** The pieces of a split with [cur] put in front of the first. *)
Definition glue (cur : string) (pieces : list string) : list string :=
  match pieces with
  | [] => [cur]
  | w :: ws => (cur +:+ w) :: ws
  end.


(** The line made of a command word, a space, and a single-quoted
    text. *)
Definition quotedLine (name w : string) : string :=
  name +:+ " '" +:+ w +:+ "'".

End CommandParser.

(** ** Outcomes of calls that can raise *)

(** [Throw] is a JavaScript exception (a [TypeError] on [undefined]).
    [OffModel] marks the one call the embedding does not follow: writing to
    the root path, where the source files a node under the key [undefined],
    which is not a string. *)
Inductive Outcome (A : Type) :=
| Ret (a : A)
| Throw
| OffModel.
Arguments Ret {A} a.
Arguments Throw {A}.
Arguments OffModel {A}.

(** ** VirtualFileSystem.ts *)

Module VirtualFileSystem.

Inductive FSNodeType := file | directory | symlink.

Global Instance FSNodeType_eq_dec : EqDecision FSNodeType.
Proof. solve_decision. Defined.

Inductive FSNode := mkFSNode {
  name : string;
  type : FSNodeType;
  content : option string;
  children : option (gmap string FSNode);
  target : option string;
  permissions : option string;
  modified : option Z
}.

Inductive FSNodeJSON := mkFSNodeJSON {
  j_name : string;
  j_type : FSNodeType;
  j_content : option string;
  j_children : option (gmap string FSNodeJSON);
  j_target : option string;
  j_permissions : option string
}.

(** The root a fresh [VirtualFileSystem] is constructed with. *)
Definition emptyRoot : FSNode :=
  {| name := "/"; type := directory; content := None; children := Some ∅;
     target := None; permissions := Some "drwxr-xr-x"; modified := None |}.

(** *** Paths *)

(** [s.split('/').filter(Boolean)] *)
Definition pathParts (s : string) : list string :=
  JS.filter_truthy (JS.split "/" s).

(** [resolved.pop()] *)
Definition pop (l : list string) : list string := removelast l.

Definition resolvePart (resolved : list string) (part : string) : list string :=
  if String.eqb part "." then resolved
  else if String.eqb part ".." then pop resolved
  else resolved ++ [part].

Definition _resolveParts (path cwd : string) : list string :=
  let isAbsolute := JS.startsWith path "/" in
  let baseParts := if isAbsolute then [] else pathParts cwd in
  let inputParts := pathParts path in
  fold_left resolvePart inputParts baseParts.

Definition resolvePath (path cwd : string) : string :=
  "/" +:+ JS.join "/" (_resolveParts path cwd).

(** *** Node references

    The source passes nodes by reference and mutates them in place.  A
    reference is the node together with its location: the keys that lead
    to it from the root through the [children] maps of directories.
    Every node of the tree is a distinct object, so the location
    identifies it. *)

Definition Loc := list string.
Definition Ref : Type := Loc * FSNode.

Fixpoint nodeAt (n : FSNode) (loc : Loc) : option FSNode :=
  match loc with
  | [] => Some n
  | k :: loc' =>
      if bool_decide (type n = directory) then
        match children n with
        | Some ch => match ch !! k with
                     | Some c => nodeAt c loc'
                     | None => None
                     end
        | None => None
        end
      else None
  end.

(** In-place mutation [f] of the node at [loc]. *)
Fixpoint updateAt (loc : Loc) (f : FSNode → FSNode) (n : FSNode) : FSNode :=
  match loc with
  | [] => f n
  | k :: loc' =>
      match children n with
      | Some ch =>
          {| name := name n; type := type n; content := content n;
             children := Some (alter (updateAt loc' f) k ch);
             target := target n; permissions := permissions n;
             modified := modified n |}
      | None => n
      end
  end.

Definition setChildren (ch : gmap string FSNode) (n : FSNode) : FSNode :=
  {| name := name n; type := type n; content := content n;
     children := Some ch;
     target := target n; permissions := permissions n;
     modified := modified n |}.

(** [node.children.set(k, c)] *)
Definition setChild (k : string) (c : FSNode) (n : FSNode) : FSNode :=
  match children n with
  | Some ch => setChildren (<[k := c]> ch) n
  | None => n
  end.

(** [node.children.delete(k)] *)
Definition deleteChild (k : string) (n : FSNode) : FSNode :=
  match children n with
  | Some ch => setChildren (delete k ch) n
  | None => n
  end.

(** *** _walk *)

(** [child.type === 'symlink' && followSymlinks && child.target] *)
Definition followedTarget (child : FSNode) (followSymlinks : bool) : option string :=
  if bool_decide (type child = symlink) && followSymlinks then
    match target child with
    | Some t => if JS.truthy t then Some t else None
    | None => None
    end
  else None.

(** The [for] loop of [_walk] from index [i = length done]:
    [done] is [parts.slice(0, i)], [todo] the parts still to walk, and
    [recur] the recursive call [this._walk(_, true, depth + 1)]. *)
Fixpoint walkLoop (recur : list string → option Ref) (followSymlinks : bool)
    (done todo : list string) (current : Ref) : option Ref :=
  match todo with
  | [] => Some current
  | part :: todo' =>
      if negb (bool_decide (type (snd current) = directory)) then None
      else match children (snd current) with
      | None => None
      | Some ch =>
          match ch !! part with
          | None => None
          | Some child =>
              match followedTarget child followSymlinks with
              | Some t =>
                  let targetParts := _resolveParts t ("/" +:+ JS.join "/" done) in
                  match recur targetParts with
                  | None => None
                  | Some targetNode =>
                      walkLoop recur followSymlinks (done ++ [part]) todo' targetNode
                  end
              | None =>
                  walkLoop recur followSymlinks (done ++ [part]) todo'
                    (fst current ++ [part], child)
              end
          end
      end
  end.

(** [_walk] by recursion on the hops left: [budget = 21 - depth], so
    [budget = 0] is the guard [depth > 20]. *)
Fixpoint walkBudget (budget : nat) (root : FSNode) (followSymlinks : bool)
    (parts : list string) : option Ref :=
  match budget with
  | O => None
  | S b => walkLoop (walkBudget b root true) followSymlinks [] parts ([], root)
  end.

Definition _walk (root : FSNode) (parts : list string)
    (followSymlinks : bool) (depth : nat) : option Ref :=
  walkBudget (21 - depth) root followSymlinks parts.

Definition resolveRef (root : FSNode) (path cwd : string) : option Ref :=
  _walk root (_resolveParts path cwd) true 0.

(** [resolve(path, cwd)] *)
Definition resolve (root : FSNode) (path cwd : string) : option FSNode :=
  snd <$> resolveRef root path cwd.

(** *** Reads *)

Definition readFile (root : FSNode) (path cwd : string) : option string :=
  match resolve root path cwd with
  | Some node =>
      if bool_decide (type node = file) then Some (default EmptyString (content node))
      else None
  | None => None
  end.

Definition exists_ (root : FSNode) (path cwd : string) : bool :=
  bool_decide (is_Some (resolve root path cwd)).

Definition isDirectory (root : FSNode) (path cwd : string) : bool :=
  match resolve root path cwd with
  | Some node => bool_decide (type node = directory)
  | None => false
  end.

Definition isFile (root : FSNode) (path cwd : string) : bool :=
  match resolve root path cwd with
  | Some node => bool_decide (type node = file)
  | None => false
  end.

(** *** Writes *)

Definition newFile (fileName content : string) (now : Z) : FSNode :=
  {| name := fileName; type := file; content := Some content; children := None;
     target := None; permissions := Some "-rw-r--r--"; modified := Some now |}.

(** The [parentPath] that [writeFile] and [rm] compute for [path]. *)
Definition parentPathOf (path cwd : string) : string :=
  "/" +:+ JS.join "/" (pop (pathParts (resolvePath path cwd))).

Definition writeFile (root : FSNode) (path content cwd : string) (now : Z)
    : Outcome (bool * FSNode) :=
  let absPath := resolvePath path cwd in
  let parts := pathParts absPath in
  let parentPath := parentPathOf path cwd in
  match resolveRef root parentPath "/" with
  | None => Ret (false, root)
  | Some (loc, parent) =>
      if negb (bool_decide (type parent = directory)) then Ret (false, root)
      else match children parent with
      | None => Throw
      | Some ch =>
          match last parts with
          | None => OffModel
          | Some fileName =>
              if bool_decide (type <$> ch !! fileName = Some directory)
              then Ret (false, root)
              else Ret (true, updateAt loc (setChild fileName (newFile fileName content now)) root)
          end
      end
  end.

Definition appendContent (extra : string) (now : Z) (n : FSNode) : FSNode :=
  {| name := name n; type := type n;
     content := Some (default EmptyString (content n) +:+ extra);
     children := children n; target := target n;
     permissions := permissions n; modified := Some now |}.

Definition appendFile (root : FSNode) (path content cwd : string) (now : Z)
    : Outcome (bool * FSNode) :=
  match resolveRef root path cwd with
  | Some (loc, node) =>
      if bool_decide (type node = file)
      then Ret (true, updateAt loc (appendContent content now) root)
      else writeFile root path content cwd now
  | None => writeFile root path content cwd now
  end.

Definition rm (root : FSNode) (path cwd : string) (recursive : bool)
    : Outcome (bool * FSNode) :=
  let absPath := resolvePath path cwd in
  let parts := pathParts absPath in
  match last parts with
  | None => Ret (false, root)
  | Some fileName =>
      let parentPath := parentPathOf path cwd in
      match resolveRef root parentPath "/" with
      | None => Ret (false, root)
      | Some (loc, parent) =>
          if negb (bool_decide (type parent = directory)) then Ret (false, root)
          else match children parent with
          | None => Throw
          | Some ch =>
              match ch !! fileName with
              | None => Ret (false, root)
              | Some tgt =>
                  if bool_decide (type tgt = directory) && negb recursive
                  then Ret (false, root)
                  else Ret (true, updateAt loc (deleteChild fileName) root)
              end
          end
      end
  end.

(** *** Directories *)

Definition newDirectory (dirName : string) (now : Z) : FSNode :=
  {| name := dirName; type := directory; content := None; children := Some ∅;
     target := None; permissions := Some "drwxr-xr-x"; modified := Some now |}.

(** The [for (const part of parts)] loop of the recursive branch of
    [mkdir], entered at the node [current]: the value the loop returns
    and [current] as the insertions made in place below it leave it.  The
    loop looks entries up with [children.get], so it follows no symbolic
    link. *)
Fixpoint mkdirLoop (parts : list string) (now : Z) (current : FSNode)
    : bool * FSNode :=
  match parts with
  | [] => (true, current)
  | part :: rest =>
      match children current with
      | None => (false, current)
      | Some ch =>
          match ch !! part with
          | None =>
              let '(ok, child') := mkdirLoop rest now (newDirectory part now) in
              (ok, setChild part child' current)
          | Some child =>
              if negb (bool_decide (type child = directory)) then (false, current)
              else
                let '(ok, child') := mkdirLoop rest now child in
                (ok, setChild part child' current)
          end
      end
  end.

(** [mkdir(path, cwd, recursive)].  As for [writeFile], the call on the
    root path without [recursive] files a node under the key [undefined]
    and is left out. *)
Definition mkdir (root : FSNode) (path cwd : string) (recursive : bool) (now : Z)
    : Outcome (bool * FSNode) :=
  let absPath := resolvePath path cwd in
  let parts := pathParts absPath in
  if recursive then Ret (mkdirLoop parts now root)
  else
    let parentPath := parentPathOf path cwd in
    match resolveRef root parentPath "/" with
    | None => Ret (false, root)
    | Some (loc, parent) =>
        if negb (bool_decide (type parent = directory)) then Ret (false, root)
        else match children parent with
        | None => Throw
        | Some ch =>
            match last parts with
            | None => OffModel
            | Some dirName =>
                if bool_decide (is_Some (ch !! dirName)) then Ret (false, root)
                else Ret (true, updateAt loc (setChild dirName (newDirectory dirName now)) root)
            end
        end
    end.

(** *** Snapshots *)

(** [json.children[name] = value] on a plain object: the key
    [__proto__] reaches the prototype setter and adds no own property. *)
Definition objectSet {A} (k : string) (v : A) (o : gmap string A) : gmap string A :=
  if String.eqb k "__proto__" then o else <[k := v]> o.

Definition presentIfTruthy (o : option string) : option string :=
  match o with
  | Some s => if JS.truthy s then Some s else None
  | None => None
  end.

Fixpoint _nodeToJSON (node : FSNode) : FSNodeJSON :=
  {| j_name := name node;
     j_type := type node;
     j_content := content node;
     j_target := presentIfTruthy (target node);
     j_permissions := presentIfTruthy (permissions node);
     j_children :=
       match children node with
       | Some ch =>
           Some (map_fold (fun k child o => objectSet k (_nodeToJSON child) o) ∅ ch)
       | None => None
       end |}.

Fixpoint _jsonToNode (now : Z) (json : FSNodeJSON) : FSNode :=
  {| name := j_name json;
     type := j_type json;
     content := j_content json;
     target := j_target json;
     permissions := j_permissions json;
     modified := Some now;
     children :=
       match j_children json with
       | Some ch => Some (_jsonToNode now <$> ch)
       | None => None
       end |}.

Definition toJSON (root : FSNode) : FSNodeJSON := _nodeToJSON root.
Definition fromJSON (now : Z) (json : FSNodeJSON) : FSNode := _jsonToNode now json.

(** *** Vocabulary for the statements about paths and writes *)

(** A path component as [pathParts] produces them: not empty and free of
    slashes. *)
Definition isName (p : string) : bool :=
  JS.truthy p && forallb (fun c => negb (Ascii.eqb c "/")) (JS.chars p).

Definition noSlash (s : string) : Prop :=
  forallb (fun c => negb (Ascii.eqb c "/")) (JS.chars s) = true.

(** A component that is neither [.] nor [..]. *)
Definition isPlain (p : string) : bool :=
  negb (String.eqb p ".") && negb (String.eqb p "..").

(** What a walk reads of a node: its kind, its target, and whether it has
    a [children] map. *)
Definition shallowEq (a b : FSNode) : Prop :=
  type a = type b ∧ target a = target b ∧ (children a = None ↔ children b = None).

(** A reference that points into the tree: the node is the one at the
    location. *)
Definition refOk (root : FSNode) (r : Ref) : Prop :=
  nodeAt root (fst r) = Some (snd r).

(** Two trees hold nodes that look alike to a walk at [loc], or both hold
    none. *)
Definition agree (X Y : FSNode) (loc : Loc) : Prop :=
  match nodeAt X loc, nodeAt Y loc with
  | Some a, Some b => shallowEq a b
  | None, None => True
  | _, _ => False
  end.

(** A mutation of a node that touches only the entry [k] of its
    [children]. *)
Definition editsEntry (k : string) (f : FSNode → FSNode) : Prop :=
  ∀ n, type (f n) = type n ∧ target (f n) = target n
       ∧ match children n with
         | None => f n = n
         | Some ch => ∃ ch', children (f n) = Some ch'
                             ∧ ∀ j, j ≠ k → ch' !! j = ch !! j
         end.

(** [path] names a slot a file can be written to: it has a last
    component, its parent resolves to a directory with a [children] map,
    and what that directory holds under the component, if anything, is a
    regular file; the working directory has no [.] or [..] component. *)
Definition writableSlot (root : FSNode) (path cwd : string) : Prop :=
  forallb isPlain (pathParts cwd) = true
  ∧ ∃ fileName loc parent ch,
      last (_resolveParts path cwd) = Some fileName
      ∧ resolveRef root (parentPathOf path cwd) "/" = Some (loc, parent)
      ∧ type parent = directory
      ∧ children parent = Some ch
      ∧ (ch !! fileName = None ∨ ∃ f, ch !! fileName = Some f ∧ type f = file).

(** [q] (from [cwd']) and [path] (from [cwd]) lead to the same entry of
    the tree: both resolve, and to the same place.  In the source this is
    the same node object. *)
Definition sameEntry (root : FSNode) (q cwd' path cwd : string) : Prop :=
  ∃ loc : Loc,
    fst <$> resolveRef root q cwd' = Some loc
    ∧ fst <$> resolveRef root path cwd = Some loc.

(** *** Vocabulary for the statements about path resolution *)

(** The runs of the loop of [_walk] that return, as the source makes
    them: [Loops root depth followSymlinks done todo current r] is a run of
    the loop of the call at [depth], from index [length done] on, that
    returns [r].  A recursive call [this._walk(targetParts, true, depth + 1)]
    returns [null] at once when [depth + 1 > 20], and otherwise runs its own
    loop from the root. *)
Inductive Loops (root : FSNode)
  : nat → bool → list string → list string → Ref → option Ref → Prop :=
| loops_end depth follow done (current : Ref) :
    Loops root depth follow done [] current (Some current)
| loops_not_directory depth follow done part todo (current : Ref) :
    type (snd current) ≠ directory →
    Loops root depth follow done (part :: todo) current None
| loops_no_children depth follow done part todo (current : Ref) :
    type (snd current) = directory → children (snd current) = None →
    Loops root depth follow done (part :: todo) current None
| loops_no_child depth follow done part todo (current : Ref) ch :
    type (snd current) = directory → children (snd current) = Some ch →
    ch !! part = None →
    Loops root depth follow done (part :: todo) current None
| loops_link_capped depth follow done part todo (current : Ref) ch child t :
    type (snd current) = directory → children (snd current) = Some ch →
    ch !! part = Some child → followedTarget child follow = Some t →
    (20 < S depth)%nat →
    Loops root depth follow done (part :: todo) current None
| loops_link_dead depth follow done part todo (current : Ref) ch child t :
    type (snd current) = directory → children (snd current) = Some ch →
    ch !! part = Some child → followedTarget child follow = Some t →
    (S depth ≤ 20)%nat →
    Loops root (S depth) true []
      (_resolveParts t ("/" +:+ JS.join "/" done)) ([], root) None →
    Loops root depth follow done (part :: todo) current None
| loops_link_followed depth follow done part todo (current : Ref) ch child t targetNode r :
    type (snd current) = directory → children (snd current) = Some ch →
    ch !! part = Some child → followedTarget child follow = Some t →
    (S depth ≤ 20)%nat →
    Loops root (S depth) true []
      (_resolveParts t ("/" +:+ JS.join "/" done)) ([], root) (Some targetNode) →
    Loops root depth follow (done ++ [part]) todo targetNode r →
    Loops root depth follow done (part :: todo) current r
| loops_descend depth follow done part todo (current : Ref) ch child r :
    type (snd current) = directory → children (snd current) = Some ch →
    ch !! part = Some child → followedTarget child follow = None →
    Loops root depth follow (done ++ [part]) todo (fst current ++ [part], child) r →
    Loops root depth follow done (part :: todo) current r.

(** A call of [_walk] that returns [r]. *)
Inductive Walks (root : FSNode) (parts : list string) (follow : bool) (depth : nat)
  : option Ref → Prop :=
| walks_capped : (20 < depth)%nat → Walks root parts follow depth None
| walks_loop r :
    (depth ≤ 20)%nat → Loops root depth follow [] parts ([], root) r →
    Walks root parts follow depth r.

(** [Nest root n parts]: resolving [parts] takes a chain of at least [n]
    nested symlink hops.  The walk gets (with some number of hops allowed)
    as far as a symlink among [parts], and resolving the target of that
    symlink takes a chain of [n - 1] hops in turn. *)
Inductive Nest (root : FSNode) : nat → list string → Prop :=
| nest_O parts : Nest root O parts
| nest_S n pre part post budget current ch child t :
    walkLoop (walkBudget budget root true) true [] pre ([], root) = Some current →
    type (snd current) = directory → children (snd current) = Some ch →
    ch !! part = Some child → followedTarget child true = Some t →
    Nest root n (_resolveParts t ("/" +:+ JS.join "/" pre)) →
    Nest root (S n) (pre ++ part :: post).

(** A root whose only entry is a symlink to itself. *)
Definition selfLinkRoot : FSNode :=
  setChildren
    {[ "loop" := {| name := "loop"; type := symlink; content := None;
                    children := None; target := Some "/loop";
                    permissions := None; modified := None |} ]}
    emptyRoot.

(** A root that holds a symlink [r] to the root itself and a file [f]:
    on the path [/r/r/.../r/f] the links are met one after the other. *)
Definition rootLinkTree : FSNode :=
  setChildren
    (<["f" := newFile "f" "data" 0]>
       {[ "r" := {| name := "r"; type := symlink; content := None;
                    children := None; target := Some "/";
                    permissions := None; modified := None |} ]})
    emptyRoot.

(** *** Vocabulary for the statements about snapshots *)

Fixpoint nodeSize (n : FSNode) : nat :=
  match children n with
  | Some ch => S (map_fold (fun _ c acc => (nodeSize c + acc)%nat) O ch)
  | None => 1%nat
  end.

(** The tree with every [modified] stamp set to [now]. *)
Fixpoint restamp (now : Z) (n : FSNode) : FSNode :=
  {| name := name n; type := type n; content := content n;
     children := match children n with
                 | Some ch => Some (restamp now <$> ch)
                 | None => None
                 end;
     target := target n; permissions := permissions n;
     modified := Some now |}.

(** Equality of trees on name, kind, content, target, permissions and
    children, whatever the [modified] stamps. *)
Definition sameStructure (a b : FSNode) : Prop := restamp 0 a = restamp 0 b.

(** No node has an empty-string [target] or [permissions], and no
    directory has a child filed under [__proto__]. *)
Fixpoint snapshotSafe (n : FSNode) : bool :=
  bool_decide (target n ≠ Some EmptyString)
  && bool_decide (permissions n ≠ Some EmptyString)
  && match children n with
     | Some ch =>
         bool_decide (ch !! "__proto__" = None)
         && map_fold (fun _ c acc => snapshotSafe c && acc) true ch
     | None => true
     end.

(** A snapshot whose root carries an empty permission string, and the
    tree [fromJSON] builds from it. *)
Definition blankPermissionsJSON : FSNodeJSON :=
  {| j_name := "/"; j_type := directory; j_content := None; j_children := Some ∅;
     j_target := None; j_permissions := Some EmptyString |}.

Definition blankPermissionsTree : FSNode := fromJSON 0 blankPermissionsJSON.

(** A small tree: a directory holding a file and a symbolic link. *)
Definition sampleTree : FSNode :=
  setChildren
    (<["notes" := newFile "notes" "hello" 5]>
       {[ "link" := {| name := "link"; type := symlink; content := None;
                       children := None; target := Some "/notes";
                       permissions := None; modified := None |} ]})
    emptyRoot.

End VirtualFileSystem.

(** ** CommandContext.ts *)

Module CommandContext.

Import VirtualFileSystem.

(** The [challenge] sub-record is left out: no handler modelled here
    reads or writes it.  [fs] is the root of the shared file system. *)
Record CommandContext := {
  cwd : string;
  env : gmap string string;
  fs : FSNode;
  exitCode : Z;
  user : string;
  hostname : string
}.

(** [new CommandContext(fs)] *)
Definition initial (root : FSNode) : CommandContext :=
  {| cwd := "/opt/fleetcore";
     env := list_to_map
              [("HOME", "/home/candidate"); ("USER", "candidate");
               ("PATH", "/usr/local/bin:/usr/bin:/bin"); ("SHELL", "/bin/bash");
               ("TERM", "xterm-256color"); ("NODE_ENV", "development");
               ("PWD", "/opt/fleetcore")];
     fs := root; exitCode := 0%Z; user := "candidate"; hostname := "fleetcore" |}.

Definition withFs (ctx : CommandContext) (root : FSNode) : CommandContext :=
  {| cwd := cwd ctx; env := env ctx; fs := root; exitCode := exitCode ctx;
     user := user ctx; hostname := hostname ctx |}.

Definition withExitCode (ctx : CommandContext) (code : Z) : CommandContext :=
  {| cwd := cwd ctx; env := env ctx; fs := fs ctx; exitCode := code;
     user := user ctx; hostname := hostname ctx |}.

Definition withEnv (ctx : CommandContext) (e : gmap string string) : CommandContext :=
  {| cwd := cwd ctx; env := e; fs := fs ctx; exitCode := exitCode ctx;
     user := user ctx; hostname := hostname ctx |}.

(** [env[name] || ''] for a name that is a key of [env] or that no object
    has.  The members every object inherits ([constructor], [toString],
    [__proto__], ...) are read by the source as well and expand to a text
    that depends on the engine; they are outside this model. *)
Definition envOrEmpty (e : gmap string string) (name : string) : string :=
  default EmptyString (e !! name).

(** [s.replace(/\$(\w+)/g, (_, name) => env[name] || '')].
    [pending = Some name] while the scan is inside a match: a dollar sign
    followed by the word characters [name]. *)
Definition flushVar (e : gmap string string) (pending : option string) : string :=
  match pending with
  | None => EmptyString
  | Some name => if JS.truthy name then envOrEmpty e name else "$"
  end.

Fixpoint expandVars_go (e : gmap string string) (cs : list ascii)
    (pending : option string) (out : string) : string :=
  match cs with
  | [] => out +:+ flushVar e pending
  | c :: cs' =>
      if bool_decide (is_Some pending) && JS.is_word c then
        expandVars_go e cs' (Some (JS.push (default EmptyString pending) c)) out
      else
        let out' := out +:+ flushVar e pending in
        if Ascii.eqb c "$"%char then expandVars_go e cs' (Some EmptyString) out'
        else expandVars_go e cs' None (JS.push out' c)
  end.

Definition expandVars (e : gmap string string) (s : string) : string :=
  expandVars_go e (JS.chars s) None EmptyString.

(** [s.replace(/\$\{(\w+)\}/g, (_, name) => env[name] || '')] *)
Inductive BraceScan :=
| ScanText
| ScanDollar
| ScanBrace (name : string).

Definition flushBrace (st : BraceScan) : string :=
  match st with
  | ScanText => EmptyString
  | ScanDollar => "$"
  | ScanBrace name => "${" +:+ name
  end.

Fixpoint expandBraced_go (e : gmap string string) (cs : list ascii)
    (st : BraceScan) (out : string) : string :=
  match cs with
  | [] => out +:+ flushBrace st
  | c :: cs' =>
      let restart (out' : string) :=
        if Ascii.eqb c "$"%char then expandBraced_go e cs' ScanDollar out'
        else expandBraced_go e cs' ScanText (JS.push out' c) in
      match st with
      | ScanText => restart out
      | ScanDollar =>
          if Ascii.eqb c "{"%char then expandBraced_go e cs' (ScanBrace EmptyString) out
          else restart (out +:+ "$")
      | ScanBrace name =>
          if JS.is_word c then expandBraced_go e cs' (ScanBrace (JS.push name c)) out
          else if Ascii.eqb c "}"%char && JS.truthy name then
            expandBraced_go e cs' ScanText (out +:+ envOrEmpty e name)
          else restart (out +:+ flushBrace st)
      end
  end.

Definition expandBraced (e : gmap string string) (s : string) : string :=
  expandBraced_go e (JS.chars s) ScanText EmptyString.

(** [this.env.HOME + path.slice(1)]: an absent [HOME] renders as the
    text [undefined]. *)
Definition expandHome (e : gmap string string) (path : string) : string :=
  if JS.startsWith path "~"
  then default "undefined" (e !! "HOME") +:+ JS.slice_from path 1
  else path.

(** [ctx.resolvePath(path)] *)
Definition resolvePath (ctx : CommandContext) (path : string) : string :=
  let path1 := expandHome (env ctx) path in
  let path2 := expandVars (env ctx) path1 in
  let path3 := expandBraced (env ctx) path2 in
  VirtualFileSystem.resolvePath path3 (cwd ctx).

End CommandContext.

(** ** CommandRegistry.ts *)

Module CommandRegistry.

Import CommandParser CommandContext.

Record CommandResult := { output : string; exitCode : Z }.

(** What a handler call does: return a result, or raise; either way the
    context carries the mutations made so far. *)
Inductive HandlerOutcome :=
| Returned (result : CommandResult) (ctx : CommandContext)
| Threw (ctx : CommandContext)
| Unmodelled.

(** The last argument is the reading of the wall clock ([Date.now()])
    that file system writes stamp nodes with. *)
Definition CommandHandler : Type :=
  ParsedCommand → CommandContext → option string → Z → HandlerOutcome.

Record CommandRegistry := {
  handlers : gmap string CommandHandler;
  aliases : gmap string string
}.

Definition empty : CommandRegistry := {| handlers := ∅; aliases := ∅ |}.

Definition register (name : string) (h : CommandHandler) (r : CommandRegistry)
    : CommandRegistry :=
  {| handlers := <[name := h]> (handlers r); aliases := aliases r |}.

Definition registerAlias (alias tgt : string) (r : CommandRegistry)
    : CommandRegistry :=
  {| handlers := handlers r; aliases := <[alias := tgt]> (aliases r) |}.

(** [this.aliases.get(name) || name] *)
Definition resolveAlias (r : CommandRegistry) (name : string) : string :=
  match aliases r !! name with
  | Some t => if JS.truthy t then t else name
  | None => name
  end.

Definition get (r : CommandRegistry) (name : string) : option CommandHandler :=
  handlers r !! resolveAlias r name.

Definition has (r : CommandRegistry) (name : string) : bool :=
  bool_decide (is_Some (handlers r !! resolveAlias r name)).

(** [getCommandNames()].  The two [Map]s list their keys in insertion
    order, which a [gmap] does not keep; the result is sorted after the
    duplicates are dropped, so it does not depend on that order. *)
Definition getCommandNames (r : CommandRegistry) : list string :=
  let names := (map_to_list (handlers r)).*1 in
  let aliasNames := (map_to_list (aliases r)).*1 in
  JS.sort (JS.dedupe (names ++ aliasNames)).

End CommandRegistry.

(** ** commands/system.ts and commands/filesystem.ts *)

Module Commands.

Import CommandParser CommandContext CommandRegistry.

Definition result (out : string) (code : Z) : CommandResult :=
  {| output := out; exitCode := code |}.

(** [cmd.flags[k] === true] *)
Definition flagIsTrue (cmd : ParsedCommand) (k : string) : bool :=
  bool_decide (flags cmd !! k = Some (FlagBool true)).

(** [if (cmd.flags[k])] *)
Definition flagTruthy (cmd : ParsedCommand) (k : string) : bool :=
  match flags cmd !! k with
  | Some (FlagBool b) => b
  | Some (FlagString v) => JS.truthy v
  | None => false
  end.

(** [s.replace(/ab/g, rep)] for a pattern of two literal characters. *)
Fixpoint replacePair (a b : ascii) (rep : string) (s : string) : string :=
  match s with
  | EmptyString => EmptyString
  | String x s1 =>
      match s1 with
      | EmptyString => s
      | String y s2 =>
          if Ascii.eqb x a && Ascii.eqb y b then rep +:+ replacePair a b rep s2
          else String x (replacePair a b rep s1)
      end
  end.

Definition handleTrue : CommandHandler :=
  fun _ ctx _ _ => Returned (result EmptyString 0) ctx.

Definition handleFalse : CommandHandler :=
  fun _ ctx _ _ => Returned (result EmptyString 1) ctx.

Definition handleEcho : CommandHandler :=
  fun cmd ctx _ _ =>
    let output0 := JS.join " " (args cmd) in
    let output1 := expandVars (env ctx) output0 in
    let output2 := expandBraced (env ctx) output1 in
    let output3 :=
      if flagIsTrue cmd "e" then
        replacePair "\" "\" "\"
          (replacePair "\" "t" (JS.of_char "009")
             (replacePair "\" "n" (JS.of_char "010") output2))
      else output2 in
    Returned (result output3 0) ctx.

(** The [getText] closure of [handleWc]. *)
Definition wcText (cmd : ParsedCommand) (ctx : CommandContext)
    (stdin : option string) : option (string * string) :=
  match args cmd with
  | [] =>
      match stdin with
      | Some text => if JS.truthy text then Some (text, EmptyString) else None
      | None => None
      end
  | arg0 :: _ =>
      let resolvedPath := resolvePath ctx arg0 in
      match VirtualFileSystem.readFile (fs ctx) resolvedPath "/" with
      | Some content => Some (content, arg0)
      | None => None
      end
  end.

Definition handleWc : CommandHandler :=
  fun cmd ctx stdin _ =>
    match wcText cmd ctx stdin with
    | None =>
        Returned
          (result (match args cmd with
                   | arg0 :: _ => "wc: " +:+ arg0 +:+ ": No such file or directory"
                   | [] => EmptyString
                   end) 1) ctx
    | Some (text, name) =>
        let lineCount :=
          (Z.of_nat (length (JS.split "010" text))
           - (if JS.endsWith text (JS.of_char "010") then 1 else 0))%Z in
        let wordCount := Z.of_nat (length (JS.filter_truthy (JS.split_ws text))) in
        let charCount := JS.length text in
        if flagTruthy cmd "l" then
          Returned (result (JS.trim (JS.of_Z lineCount +:+ " " +:+ name)) 0) ctx
        else if flagTruthy cmd "w" then
          Returned (result (JS.trim (JS.of_Z wordCount +:+ " " +:+ name)) 0) ctx
        else if flagTruthy cmd "c" then
          Returned (result (JS.trim (JS.of_Z charCount +:+ " " +:+ name)) 0) ctx
        else
          Returned
            (result (JS.trim ("  " +:+ JS.of_Z lineCount +:+ "  " +:+ JS.of_Z wordCount
                              +:+ " " +:+ JS.of_Z charCount +:+ " " +:+ name)) 0) ctx
    end.

(** A file system call made from a handler: the new root replaces
    [ctx.fs]; the boolean result is dropped where the handler ignores it. *)
Definition fsCall (ctx : CommandContext)
    (call : Outcome (bool * VirtualFileSystem.FSNode))
    (k : CommandContext → HandlerOutcome) : HandlerOutcome :=
  match call with
  | Ret (_, root') => k (withFs ctx root')
  | Throw => Threw ctx
  | OffModel => Unmodelled
  end.

Definition handleMv : CommandHandler :=
  fun cmd ctx _ now =>
    match args cmd with
    | arg0 :: arg1 :: _ =>
        let src := resolvePath ctx arg0 in
        let dest := resolvePath ctx arg1 in
        match VirtualFileSystem.readFile (fs ctx) src "/" with
        | None =>
            Returned (result ("mv: cannot stat '" +:+ arg0
                              +:+ "': No such file or directory") 1) ctx
        | Some content =>
            let destFile :=
              if VirtualFileSystem.isDirectory (fs ctx) dest "/"
              then dest +:+ "/" +:+ default EmptyString (last (JS.split "/" src))
              else dest in
            fsCall ctx (VirtualFileSystem.writeFile (fs ctx) destFile content "/" now)
              (fun ctx1 =>
                 fsCall ctx1 (VirtualFileSystem.rm (fs ctx1) src "/" false)
                   (fun ctx2 => Returned (result EmptyString 0) ctx2))
        end
    | _ => Returned (result "mv: missing file operand" 1) ctx
    end.

(** [cd]: [cmd.args[0] || ctx.env.HOME] is [undefined] when there is no
    argument and no [HOME]; [ctx.resolvePath(undefined)] then raises. *)
Definition handleCd : CommandHandler :=
  fun cmd ctx _ _ =>
    let target :=
      match args cmd with
      | arg0 :: _ => if JS.truthy arg0 then Some arg0 else env ctx !! "HOME"
      | [] => env ctx !! "HOME"
      end in
    match target with
    | None => Threw ctx
    | Some target =>
        let resolvedPath :=
          if String.eqb target "-" then
            match env ctx !! "OLDPWD" with
            | Some old => if JS.truthy old then old else cwd ctx
            | None => cwd ctx
            end
          else resolvePath ctx target in
        if negb (VirtualFileSystem.exists_ (fs ctx) resolvedPath "/") then
          Returned (result ("cd: " +:+ target +:+ ": No such file or directory") 1) ctx
        else if negb (VirtualFileSystem.isDirectory (fs ctx) resolvedPath "/") then
          Returned (result ("cd: " +:+ target +:+ ": Not a directory") 1) ctx
        else
          Returned (result EmptyString 0)
            {| cwd := resolvedPath;
               env := <["PWD" := resolvedPath]> (<["OLDPWD" := cwd ctx]> (env ctx));
               fs := fs ctx; CommandContext.exitCode := CommandContext.exitCode ctx;
               user := user ctx; hostname := hostname ctx |}
    end.

(** The [for (const arg of cmd.args)] loop of [handleCat]. *)
Fixpoint catLoop (ctx : CommandContext) (todo : list string) (outputs : list string)
    : CommandResult :=
  match todo with
  | [] => result (JS.join EmptyString outputs) 0
  | arg :: rest =>
      let resolvedPath := resolvePath ctx arg in
      match VirtualFileSystem.readFile (fs ctx) resolvedPath "/" with
      | None =>
          if VirtualFileSystem.isDirectory (fs ctx) resolvedPath "/"
          then result ("cat: " +:+ arg +:+ ": Is a directory") 1
          else result ("cat: " +:+ arg +:+ ": No such file or directory") 1
      | Some content => catLoop ctx rest (outputs ++ [content])
      end
  end.

Definition handleCat : CommandHandler :=
  fun cmd ctx stdin _ =>
    match args cmd with
    | [] => Returned (result (default EmptyString stdin) 0) ctx
    | _ => Returned (catLoop ctx (args cmd) []) ctx
    end.

(** The [for (const arg of cmd.args)] loop of [handleTouch]; the writes
    of one call read the clock as [now]. *)
Fixpoint touchLoop (todo : list string) (ctx : CommandContext) (now : Z)
    : HandlerOutcome :=
  match todo with
  | [] => Returned (result EmptyString 0) ctx
  | arg :: rest =>
      let resolvedPath := resolvePath ctx arg in
      if negb (VirtualFileSystem.exists_ (fs ctx) resolvedPath "/") then
        fsCall ctx
          (VirtualFileSystem.writeFile (fs ctx) resolvedPath EmptyString "/" now)
          (fun ctx1 => touchLoop rest ctx1 now)
      else touchLoop rest ctx now
  end.

Definition handleTouch : CommandHandler :=
  fun cmd ctx _ now =>
    match args cmd with
    | [] => Returned (result "touch: missing file operand" 1) ctx
    | _ => touchLoop (args cmd) ctx now
    end.

Definition handleCp : CommandHandler :=
  fun cmd ctx _ now =>
    match args cmd with
    | arg0 :: arg1 :: _ =>
        let src := resolvePath ctx arg0 in
        let dest := resolvePath ctx arg1 in
        match VirtualFileSystem.readFile (fs ctx) src "/" with
        | None =>
            Returned (result ("cp: cannot stat '" +:+ arg0
                              +:+ "': No such file or directory") 1) ctx
        | Some content =>
            let destFile :=
              if VirtualFileSystem.isDirectory (fs ctx) dest "/"
              then dest +:+ "/" +:+ default EmptyString (last (JS.split "/" src))
              else dest in
            fsCall ctx (VirtualFileSystem.writeFile (fs ctx) destFile content "/" now)
              (fun ctx1 => Returned (result EmptyString 0) ctx1)
        end
    | _ => Returned (result "cp: missing file operand" 1) ctx
    end.

(** The loop of [handleUniq]: keep a line when it differs from [prev],
    the last line kept ([''] at the start). *)
Fixpoint uniqLoop (lines : list string) (prev : string) : list string :=
  match lines with
  | [] => []
  | line :: rest =>
      if negb (String.eqb line prev) then line :: uniqLoop rest line
      else uniqLoop rest prev
  end.

Definition handleUniq : CommandHandler :=
  fun _ ctx stdin _ =>
    let text := default EmptyString stdin in
    if negb (JS.truthy text) then Returned (result EmptyString 0) ctx
    else
      Returned
        (result (JS.join (JS.of_char "010") (uniqLoop (JS.split "010" text) EmptyString)) 0)
        ctx.

(** One round of the loop of [handleExport]: [ctx.env[key] = value] for
    an argument that holds an equals sign.  [env] is a plain object, so
    the key [__proto__] adds no property. *)
Definition exportArg (e : gmap string string) (arg : string) : gmap string string :=
  let eqIdx := JS.indexOf arg "="%char in
  if negb (eqIdx =? -1)%Z then
    VirtualFileSystem.objectSet (JS.slice arg 0 eqIdx) (JS.slice_from arg (eqIdx + 1)) e
  else e.

(** [export] with arguments.  Without arguments it lists the variables in
    insertion order, which a [gmap] does not keep: that branch is left
    out. *)
Definition handleExport : CommandHandler :=
  fun cmd ctx _ _ =>
    match args cmd with
    | [] => Unmodelled
    | _ =>
        Returned (result EmptyString 0)
          (withEnv ctx (fold_left exportArg (args cmd) (env ctx)))
    end.

(** The part of the engine's registry these handlers make up. *)
Definition coreRegistry : CommandRegistry.CommandRegistry :=
  register "mv" handleMv
    (register "wc" handleWc
       (register "false" handleFalse
          (register "true" handleTrue
             (register "echo" handleEcho CommandRegistry.empty)))).

(** *** A sample session for [mv] *)

(** A file system holding [/opt/fleetcore/a.txt], and the command
    [mv a.txt missing/b.txt] typed in [/opt/fleetcore]. *)
Definition mvSampleRoot : VirtualFileSystem.FSNode :=
  let dir := fun (nm : string) (ch : gmap string VirtualFileSystem.FSNode) =>
    VirtualFileSystem.mkFSNode nm VirtualFileSystem.directory None (Some ch) None
      (Some "drwxr-xr-x") None in
  dir "/" {[ "opt" :=
    dir "opt" {[ "fleetcore" :=
      dir "fleetcore" {[ "a.txt" := VirtualFileSystem.newFile "a.txt" "data" 0 ]} ]} ]}.

Definition mvSampleCommand : ParsedCommand :=
  {| command := "mv"; args := ["a.txt"; "missing/b.txt"];
     rawArgs := "a.txt missing/b.txt"; flags := ∅;
     inputRedirect := None; outputRedirect := None |}.

(** *** Vocabulary for the statements about [uniq] *)

(** No two neighbours are equal. *)
Definition distinctNeighbours (l : list string) : Prop :=
  ∀ i a b, l !! i = Some a → l !! S i = Some b → a ≠ b.

(** The output of [uniq] on the input [text]. *)
Definition uniqOutput (text : string) : string :=
  if negb (JS.truthy text) then EmptyString
  else JS.join (JS.of_char "010") (uniqLoop (JS.split "010" text) EmptyString).

End Commands.

(** ** PipelineExecutor.ts *)

Module PipelineExecutor.

Import CommandParser CommandContext CommandRegistry.

(** [/^[A-Za-z_]\w*$/.test(key)] *)
Definition isIdentifier (key : string) : bool :=
  match key with
  | EmptyString => false
  | String c rest =>
      JS.is_word c && negb (JS.is_digit c) && forallb JS.is_word (JS.chars rest)
  end.

Definition result (out : string) (code : Z) : CommandResult :=
  {| output := out; exitCode := code |}.

(** The outcome of [executeCommand] and of the pipeline: the result and
    the context after it, unless the run left the model. *)
Definition Exec : Type := option (CommandResult * CommandContext).

(** The [if (cmd.outputRedirect)] block inside the [try]. *)
Definition applyRedirect (cmd : ParsedCommand) (res : CommandResult)
    (ctx : CommandContext) (now : Z) : Exec :=
  match outputRedirect cmd with
  | None => Some (res, ctx)
  | Some redir =>
      let filePath := resolvePath ctx (file redir) in
      let data := CommandRegistry.output res +:+ JS.of_char "010" in
      let call :=
        if append redir
        then VirtualFileSystem.appendFile (fs ctx) filePath data "/" now
        else VirtualFileSystem.writeFile (fs ctx) filePath data "/" now in
      match call with
      | Ret (_, root') =>
          Some (result EmptyString (CommandRegistry.exitCode res), withFs ctx root')
      | Throw =>
          Some (result (command cmd +:+ ": internal error") 1, ctx)
      | OffModel => None
      end
  end.

Definition executeCommand (registry : CommandRegistry) (cmd : ParsedCommand)
    (ctx : CommandContext) (stdin : option string) (now : Z) : Exec :=
  if negb (JS.truthy (command cmd)) then Some (result EmptyString 0, ctx)
  else
    let assigned :=
      if JS.includes (command cmd) "=" && negb (JS.startsWith (command cmd) "=") then
        let eqIdx := JS.indexOf (command cmd) "="%char in
        let key := JS.slice (command cmd) 0 eqIdx in
        let value := JS.slice_from (command cmd) (eqIdx + 1) in
        if isIdentifier key
        then Some (withEnv ctx (VirtualFileSystem.objectSet key value (env ctx)))
        else None
      else None in
    match assigned with
    | Some ctx' => Some (result EmptyString 0, ctx')
    | None =>
        match get registry (command cmd) with
        | None => Some (result (command cmd +:+ ": command not found") 127, ctx)
        | Some handler =>
            match handler cmd ctx stdin now with
            | Returned res ctx1 =>
                applyRedirect cmd res
                  (withExitCode ctx1 (CommandRegistry.exitCode res)) now
            | Threw ctx1 =>
                Some (result (command cmd +:+ ": internal error") 1, ctx1)
            | Unmodelled => None
            end
        end
    end.

(** The body of the [for] loop of [executePipeline] from index [i]:
    [todo] holds [pipeline.commands[i ..]]. *)
Fixpoint pipelineLoop (registry : CommandRegistry) (ops : list Operator)
    (todo : list ParsedCommand) (i : nat) (lastResult : CommandResult)
    (pipeInput : option string) (ctx : CommandContext) (now : Z) : Exec :=
  match todo with
  | [] => Some (lastResult, ctx)
  | cmd :: todo' =>
      let operator := if (0 <? i)%nat then ops !! (i - 1)%nat else None in
      if bool_decide (operator = Some OpAnd)
         && negb (CommandRegistry.exitCode lastResult =? 0)%Z
      then Some (lastResult, ctx)
      else if bool_decide (operator = Some OpOr)
              && (CommandRegistry.exitCode lastResult =? 0)%Z
      then Some (lastResult, ctx)
      else
        match executeCommand registry cmd ctx pipeInput now with
        | None => None
        | Some (res, ctx') =>
            let pipeInput1 :=
              if bool_decide (operator = Some OpPipe)
              then Some (CommandRegistry.output res) else None in
            let pipeInput2 :=
              if bool_decide (ops !! i = Some OpPipe)
              then Some (CommandRegistry.output res) else pipeInput1 in
            pipelineLoop registry ops todo' (S i) res pipeInput2 ctx' now
        end
  end.

Definition executePipeline (registry : CommandRegistry) (pipeline : Pipeline)
    (ctx : CommandContext) (now : Z) : Exec :=
  pipelineLoop registry (operators pipeline) (commands pipeline) 0
    (result EmptyString 0) None ctx now.

Definition execute (registry : CommandRegistry) (input : string)
    (ctx : CommandContext) (now : Z) : Exec :=
  let pipeline := parse input in
  match commands pipeline, operators pipeline with
  | [], _ => Some (result EmptyString 0, ctx)
  | [cmd], [] => executeCommand registry cmd ctx None now
  | _, _ => executePipeline registry pipeline ctx now
  end.

(** *** The end-to-end scenarios *)

Definition shortCircuitInput : string :=
  "false && echo should-not-appear ; true && echo yes".

(** The line [echo "hello world" | wc -w]. *)
Definition quotedPipelineInput : string :=
  "echo " +:+ JS.of_char "034" +:+ "hello world" +:+ JS.of_char "034" +:+ " | wc -w".

Definition plainCommand (name : string) (arguments : list string) : ParsedCommand :=
  {| command := name; args := arguments; rawArgs := JS.join " " arguments;
     flags := ∅; inputRedirect := None; outputRedirect := None |}.

(** The commands run one after the other, each reading the output of the
    one before as its standard input. *)
Fixpoint runPiped (registry : CommandRegistry.CommandRegistry)
    (todo : list ParsedCommand) (lastResult : CommandResult)
    (stdin : option string) (ctx : CommandContext) (now : Z) : Exec :=
  match todo with
  | [] => Some (lastResult, ctx)
  | cmd :: todo' =>
      match executeCommand registry cmd ctx stdin now with
      | None => None
      | Some (res, ctx') =>
          runPiped registry todo' res (Some (CommandRegistry.output res)) ctx' now
      end
  end.

End PipelineExecutor.

(** ** InputBuffer.ts *)

Module InputBuffer.

Record InputBuffer := {
  buffer : string;
  cursorPos : Z;
  history : list string;
  historyIndex : Z;
  tempBuffer : string;
  completionCallback : option (string → list string)
}.

(** [new InputBuffer()] *)
Definition initial : InputBuffer :=
  {| buffer := EmptyString; cursorPos := 0; history := []; historyIndex := -1;
     tempBuffer := EmptyString; completionCallback := None |}.

Definition withLine (st : InputBuffer) (b : string) (c : Z) : InputBuffer :=
  {| buffer := b; cursorPos := c; history := history st;
     historyIndex := historyIndex st; tempBuffer := tempBuffer st;
     completionCallback := completionCallback st |}.

Definition withHistoryIndex (st : InputBuffer) (i : Z) : InputBuffer :=
  {| buffer := buffer st; cursorPos := cursorPos st; history := history st;
     historyIndex := i; tempBuffer := tempBuffer st;
     completionCallback := completionCallback st |}.

Definition withTempBuffer (st : InputBuffer) (t : string) : InputBuffer :=
  {| buffer := buffer st; cursorPos := cursorPos st; history := history st;
     historyIndex := historyIndex st; tempBuffer := t;
     completionCallback := completionCallback st |}.

Definition setCompletionProvider (cb : string → list string) (st : InputBuffer)
    : InputBuffer :=
  {| buffer := buffer st; cursorPos := cursorPos st; history := history st;
     historyIndex := historyIndex st; tempBuffer := tempBuffer st;
     completionCallback := Some cb |}.

Local Open Scope Z_scope.

(** The cursor-move escape sequence [ESC [ n dir]. *)
Definition csi (n : Z) (dir : string) : string :=
  JS.ESC +:+ "[" +:+ JS.of_Z n +:+ dir.

(** [array[i]] / [string[i]] at a numeric index. *)
Definition at_ {A} (l : list A) (i : Z) : option A :=
  if i <? 0 then None else l !! Z.to_nat i.

Definition clear (st : InputBuffer) : InputBuffer :=
  withHistoryIndex (withLine st EmptyString 0) (-1).

Definition insert (char : string) (st : InputBuffer) : string * InputBuffer :=
  let before := JS.slice (buffer st) 0 (cursorPos st) in
  let after := JS.slice_from (buffer st) (cursorPos st) in
  let st' := withLine st (before +:+ char +:+ after) (cursorPos st + JS.length char) in
  if 0 <? JS.length after
  then (char +:+ after +:+ csi (JS.length after) "D", st')
  else (char, st').

Definition backspace (st : InputBuffer) : string * InputBuffer :=
  if cursorPos st =? 0 then (EmptyString, st)
  else
    let before := JS.slice (buffer st) 0 (cursorPos st - 1) in
    let after := JS.slice_from (buffer st) (cursorPos st) in
    let st' := withLine st (before +:+ after) (cursorPos st - 1) in
    if 0 <? JS.length after
    then (JS.ESC +:+ "[D" +:+ after +:+ " " +:+ csi (JS.length after + 1) "D", st')
    else (JS.ESC +:+ "[D " +:+ JS.ESC +:+ "[D", st').

Definition delete (st : InputBuffer) : string * InputBuffer :=
  if JS.length (buffer st) <=? cursorPos st then (EmptyString, st)
  else
    let before := JS.slice (buffer st) 0 (cursorPos st) in
    let after := JS.slice_from (buffer st) (cursorPos st + 1) in
    (after +:+ " " +:+ csi (JS.length after + 1) "D",
     withLine st (before +:+ after) (cursorPos st)).

Definition moveLeft (st : InputBuffer) : string * InputBuffer :=
  if cursorPos st =? 0 then (EmptyString, st)
  else (JS.ESC +:+ "[D", withLine st (buffer st) (cursorPos st - 1)).

Definition moveRight (st : InputBuffer) : string * InputBuffer :=
  if JS.length (buffer st) <=? cursorPos st then (EmptyString, st)
  else (JS.ESC +:+ "[C", withLine st (buffer st) (cursorPos st + 1)).

Definition moveToStart (st : InputBuffer) : string * InputBuffer :=
  if cursorPos st =? 0 then (EmptyString, st)
  else (csi (cursorPos st) "D", withLine st (buffer st) 0).

Definition moveToEnd (st : InputBuffer) : string * InputBuffer :=
  if JS.length (buffer st) <=? cursorPos st then (EmptyString, st)
  else (csi (JS.length (buffer st) - cursorPos st) "C",
        withLine st (buffer st) (JS.length (buffer st))).

Definition killToEnd (st : InputBuffer) : string * InputBuffer :=
  if JS.length (buffer st) <=? cursorPos st then (EmptyString, st)
  else
    let killed := JS.length (buffer st) - cursorPos st in
    (JS.repeat " " killed +:+ csi killed "D",
     withLine st (JS.slice (buffer st) 0 (cursorPos st)) (cursorPos st)).

Definition killToStart (st : InputBuffer) : string * InputBuffer :=
  if cursorPos st =? 0 then (EmptyString, st)
  else
    let killed := cursorPos st in
    let buffer' := JS.slice_from (buffer st) (cursorPos st) in
    (csi killed "D" +:+ buffer' +:+ JS.repeat " " killed
       +:+ csi (JS.length buffer' + killed) "D",
     withLine st buffer' 0).

(** [while (newPos > 0 && test(buffer[newPos - 1])) newPos--].  The loop
    runs at most [newPos] times, which is the [fuel] it is given. *)
Fixpoint scanBack (fuel : nat) (test : option ascii → bool) (buf : string)
    (newPos : Z) : Z :=
  match fuel with
  | O => newPos
  | S fuel' =>
      if (0 <? newPos) && test (at_ (JS.chars buf) (newPos - 1))
      then scanBack fuel' test buf (newPos - 1)
      else newPos
  end.

Definition isBlank (c : option ascii) : bool := bool_decide (c = Some " "%char).

Definition deleteWordBack (st : InputBuffer) : string * InputBuffer :=
  if cursorPos st =? 0 then (EmptyString, st)
  else
    let before := JS.slice (buffer st) 0 (cursorPos st) in
    let after := JS.slice_from (buffer st) (cursorPos st) in
    let newPos0 := cursorPos st - 1 in
    let newPos1 := scanBack (Z.to_nat newPos0) isBlank (buffer st) newPos0 in
    let newPos := scanBack (Z.to_nat newPos1) (fun c => negb (isBlank c))
                    (buffer st) newPos1 in
    let deleted := cursorPos st - newPos in
    (csi deleted "D" +:+ after +:+ JS.repeat " " deleted
       +:+ csi (JS.length after + deleted) "D",
     withLine st (JS.slice before 0 newPos +:+ after) newPos).

Definition replaceLine (newContent : string) (st : InputBuffer)
    : string * InputBuffer :=
  let clearLen := JS.length (buffer st) in
  let output1 := if 0 <? cursorPos st then csi (cursorPos st) "D" else EmptyString in
  let output2 := output1 +:+ JS.repeat " " clearLen in
  let output3 := if 0 <? clearLen then output2 +:+ csi clearLen "D" else output2 in
  (output3 +:+ newContent, withLine st newContent (JS.length newContent)).

(** [this.replaceLine(this.history[this.historyIndex])]: reading past
    the history gives [undefined], whose [length] raises. *)
Definition replaceWithEntry (st : InputBuffer) : Outcome (string * InputBuffer) :=
  match at_ (history st) (historyIndex st) with
  | Some entry => Ret (replaceLine entry st)
  | None => Throw
  end.

Definition historyUp (st : InputBuffer) : Outcome (string * InputBuffer) :=
  if bool_decide (history st = []) then Ret (EmptyString, st)
  else if historyIndex st =? -1 then
    replaceWithEntry
      (withHistoryIndex (withTempBuffer st (buffer st))
         (Z.of_nat (length (history st)) - 1))
  else if 0 <? historyIndex st then
    replaceWithEntry (withHistoryIndex st (historyIndex st - 1))
  else Ret (EmptyString, st).

Definition historyDown (st : InputBuffer) : Outcome (string * InputBuffer) :=
  if historyIndex st =? -1 then Ret (EmptyString, st)
  else if historyIndex st <? Z.of_nat (length (history st)) - 1 then
    replaceWithEntry (withHistoryIndex st (historyIndex st + 1))
  else
    Ret (replaceLine (tempBuffer st) (withHistoryIndex st (-1))).

(** The inner [while] of [findCommonPrefix]: drop the last character of
    [prefix] until [s] starts with it; at most [|prefix|] rounds. *)
Fixpoint shrinkToPrefix (fuel : nat) (prefix s : string) : string :=
  if JS.startsWith s prefix then prefix
  else match fuel with
       | O => prefix
       | S fuel' => shrinkToPrefix fuel' (JS.slice prefix 0 (-1)) s
       end.

Definition findCommonPrefix (strings : list string) : string :=
  match strings with
  | [] => EmptyString
  | first :: rest =>
      fold_left (fun prefix s => shrinkToPrefix (String.length prefix) prefix s)
        rest first
  end.

Definition tabComplete (st : InputBuffer) : string * InputBuffer :=
  match completionCallback st with
  | None => (EmptyString, st)
  | Some cb =>
      let beforeCursor := JS.slice (buffer st) 0 (cursorPos st) in
      let tokens := JS.split_ws beforeCursor in
      let partial := default EmptyString (last tokens) in
      let candidates := cb partial in
      match candidates with
      | [] => (EmptyString, st)
      | [completion] =>
          let toAdd := JS.slice_from completion (JS.length partial) in
          let suffix := if JS.endsWith completion "/" then EmptyString else " " in
          insert (toAdd +:+ suffix) st
      | _ =>
          let commonPrefix := findCommonPrefix candidates in
          if JS.length partial <? JS.length commonPrefix then
            insert (JS.slice_from commonPrefix (JS.length partial)) st
          else
            (JS.of_char "013" +:+ JS.of_char "010" +:+ JS.join "  " candidates
               +:+ JS.of_char "013" +:+ JS.of_char "010", st)
      end
  end.

Definition submit (st : InputBuffer) : string * InputBuffer :=
  let command := JS.trim (buffer st) in
  (command,
   {| buffer := EmptyString; cursorPos := 0;
      history := if JS.truthy command then history st ++ [command] else history st;
      historyIndex := -1; tempBuffer := tempBuffer st;
      completionCallback := completionCallback st |}).

Definition insertText (text : string) (st : InputBuffer) : string * InputBuffer :=
  fold_left
    (fun '(output, st1) char =>
       if Ascii.eqb char "010" || Ascii.eqb char "013" then (output, st1)
       else let '(o, st2) := insert (JS.of_char char) st1 in (output +:+ o, st2))
    (JS.chars text) (EmptyString, st).

(** *** Sequences of editor operations *)

Inductive Op :=
| OpInsert (char : string)
| OpBackspace
| OpDelete
| OpMoveLeft
| OpMoveRight
| OpMoveToStart
| OpMoveToEnd
| OpKillToEnd
| OpKillToStart
| OpDeleteWordBack
| OpHistoryUp
| OpHistoryDown
| OpTabComplete
| OpInsertText (text : string)
| OpSubmit
| OpClear
| OpSetCompletionProvider (cb : string → list string).

Definition step (op : Op) (st : InputBuffer) : Outcome (string * InputBuffer) :=
  match op with
  | OpInsert char => Ret (insert char st)
  | OpBackspace => Ret (backspace st)
  | OpDelete => Ret (delete st)
  | OpMoveLeft => Ret (moveLeft st)
  | OpMoveRight => Ret (moveRight st)
  | OpMoveToStart => Ret (moveToStart st)
  | OpMoveToEnd => Ret (moveToEnd st)
  | OpKillToEnd => Ret (killToEnd st)
  | OpKillToStart => Ret (killToStart st)
  | OpDeleteWordBack => Ret (deleteWordBack st)
  | OpHistoryUp => historyUp st
  | OpHistoryDown => historyDown st
  | OpTabComplete => Ret (tabComplete st)
  | OpInsertText text => Ret (insertText text st)
  | OpSubmit => Ret (submit st)
  | OpClear => Ret (EmptyString, clear st)
  | OpSetCompletionProvider cb => Ret (EmptyString, setCompletionProvider cb st)
  end.

(** Run the operations in order; the state after the last one, unless
    one of them raised. *)
Fixpoint run (ops : list Op) (st : InputBuffer) : Outcome InputBuffer :=
  match ops with
  | [] => Ret st
  | op :: ops' =>
      match step op st with
      | Ret (_, st') => run ops' st'
      | Throw => Throw
      | OffModel => OffModel
      end
  end.

(** *** The editor invariant *)

(** The cursor lies within the line, and the history index is [-1] or
    points at an entry. *)
Definition wellFormed (st : InputBuffer) : Prop :=
  0 ≤ cursorPos st ≤ JS.length (buffer st)
  ∧ (historyIndex st = -1 ∨ 0 ≤ historyIndex st < Z.of_nat (length (history st))).

(** The text [insertText] types: the characters of [text] but line feeds
    and carriage returns. *)
Definition pasted (text : string) : string :=
  JS.str (List.filter (fun c => negb (Ascii.eqb c "010" || Ascii.eqb c "013"))
            (JS.chars text)).

End InputBuffer.

(** ** KeystrokeRecorder.ts *)

Module KeystrokeRecorder.

Local Open Scope Z_scope.

Record KeyMeta := { shift : bool; ctrl : bool; alt : bool; meta : bool }.

Inductive DetectedBy := clipboard_api | burst | both.

Inductive SessionEvent :=
| EvKey (key : string) (timestamp : Z) (meta : KeyMeta)
| EvPaste (content : string) (timestamp : Z) (detectedBy : DetectedBy)
| EvOutput (content : string) (timestamp : Z)
| EvCommand (raw : string) (timestamp : Z) (exitCode : Z)
| EvObjectiveComplete (objectiveId : string) (timestamp : Z)
| EvLevelAdvance (level : Z) (timestamp : Z)
| EvHintUsed (hintId : string) (timestamp : Z)
| EvFocusChange (focused : bool) (timestamp : Z)
| EvResize (cols rows : Z) (timestamp : Z).

Definition isPaste (e : SessionEvent) : bool :=
  match e with EvPaste _ _ _ => true | _ => false end.

(** *** BurstDetector *)

Definition BURST_THRESHOLD : Z := 50.
Definition BURST_MIN_CHARS : Z := 30.

(** The detector's state is its [timestamps] array. *)
Definition BurstDetector := list Z.

(** The [for (i = length - 1; i > 0; i--)] scan; a gap read outside the
    array is [NaN], which fails the comparison and ends the scan. *)
Fixpoint burstScan (timestamps : list Z) (i : nat) (burstCount : Z)
    (burstStart : nat) : Z * nat :=
  match i with
  | O => (burstCount, burstStart)
  | S i' =>
      match timestamps !! i, timestamps !! i' with
      | Some later, Some earlier =>
          if later - earlier <=? BURST_THRESHOLD
          then burstScan timestamps i' (burstCount + 1) i'
          else (burstCount, burstStart)
      | _, _ => (burstCount, burstStart)
      end
  end.

Record BurstResult := { count : Z; duration : option Z }.

Definition addKeystroke (timestamp : Z) (timestamps : BurstDetector)
    : option BurstResult * BurstDetector :=
  let pushed := timestamps ++ [timestamp] in
  let cutoff := timestamp - 5000 in
  let kept := List.filter (fun t => cutoff <? t) pushed in
  if Z.of_nat (length kept) <? BURST_MIN_CHARS then (None, kept)
  else
    let '(burstCount, burstStart) :=
      burstScan kept (length kept - 1)%nat 1 (length kept - 1)%nat in
    if BURST_MIN_CHARS <=? burstCount then
      (Some {| count := burstCount;
               duration := (fun t0 => timestamp - t0) <$> kept !! burstStart |},
       [])
    else (None, kept).

(** [avgGap = (recent[4] - recent[0]) / 4] over [timestamps.slice(-5)];
    the real quotient is below the threshold exactly when the difference
    is below four times the threshold. *)
Definition isInBurst (timestamps : BurstDetector) : bool :=
  if Z.of_nat (length timestamps) <? 5 then false
  else
    let recent := drop (length timestamps - 5)%nat timestamps in
    match recent !! 4%nat, recent !! 0%nat with
    | Some t4, Some t0 => t4 - t0 <? 4 * BURST_THRESHOLD
    | _, _ => false
    end.

(** *** KeystrokeRecorder *)

Record KeystrokeRecorder := {
  events : list SessionEvent;
  burstDetector : BurstDetector
}.

Definition initial : KeystrokeRecorder := {| events := []; burstDetector := [] |}.

(** Rendering of [`${duration}`]; an undefined operand gives [NaN]. *)
Definition renderDuration (d : option Z) : string :=
  match d with Some z => JS.of_Z z | None => "NaN" end.

Definition burstContent (r : BurstResult) : string :=
  "[burst detected: " +:+ JS.of_Z (count r) +:+ " chars in "
    +:+ renderDuration (duration r) +:+ "ms]".

(** [recordKey(key, meta)]; [now] is the clock reading stored in the key
    event, [now'] the later one stored in a synthesised paste event. *)
Definition recordKey (key : string) (m : KeyMeta) (now now' : Z)
    (r : KeystrokeRecorder) : KeystrokeRecorder :=
  let events1 := events r ++ [EvKey key now m] in
  let '(burstResult, detector) := addKeystroke now (burstDetector r) in
  match burstResult with
  | Some res =>
      {| events := events1 ++ [EvPaste (burstContent res) now' burst];
         burstDetector := detector |}
  | None => {| events := events1; burstDetector := detector |}
  end.

Definition recordPaste (content : string) (now : Z) (r : KeystrokeRecorder)
    : KeystrokeRecorder :=
  {| events := events r
               ++ [EvPaste content now
                     (if isInBurst (burstDetector r) then both else clipboard_api)];
     burstDetector := burstDetector r |}.

Definition getEvents (r : KeystrokeRecorder) : list SessionEvent := events r.

(** A keystroke as the recorder receives it: key, modifiers, and the two
    clock readings of [recordKey]. *)
Record Keystroke := {
  ks_key : string;
  ks_meta : KeyMeta;
  ks_now : Z;
  ks_now' : Z
}.

Definition feed (r : KeystrokeRecorder) (keys : list Keystroke) : KeystrokeRecorder :=
  fold_left (fun r k => recordKey (ks_key k) (ks_meta k) (ks_now k) (ks_now' k) r)
    keys r.

(** The regular expression [/\[burst detected: \d+ chars in \d+ms\]/]
    tested against a whole string: the literal pieces around two
    non-empty runs of digits, found at some offset. *)
Definition allDigits (s : string) : bool :=
  JS.truthy s && forallb JS.is_digit (JS.chars s).

Definition matchesBurstPattern (s : string) : Prop :=
  ∃ pre d1 d2 post,
    s = pre +:+ "[burst detected: " +:+ d1 +:+ " chars in " +:+ d2 +:+ "ms]" +:+ post
    ∧ allDigits d1 = true ∧ allDigits d2 = true.

(** *** The paste-burst scenario *)

(** Keystrokes [gap] milliseconds apart from [t0] on, the first one with
    index [i]; each press gives the key, its modifiers and the clock
    reading a synthesised paste event would get. *)
Fixpoint paced (t0 gap : Z) (i : nat) (presses : list (string * KeyMeta * Z))
    : list Keystroke :=
  match presses with
  | [] => []
  | (k, m, now') :: rest =>
      {| ks_key := k; ks_meta := m; ks_now := t0 + gap * Z.of_nat i; ks_now' := now' |}
        :: paced t0 gap (S i) rest
  end.

Definition keyEventsOf (keys : list Keystroke) : list SessionEvent :=
  (fun k => EvKey (ks_key k) (ks_now k) (ks_meta k)) <$> keys.

(** The timestamps [t0 + gap * k] for [k = b, ..., b + n - 1]. *)
Definition ticks (t0 gap : Z) (b n : nat) : list Z :=
  (fun k => t0 + gap * Z.of_nat k) <$> seq b n.

(** Every keystroke comes more than [BURST_THRESHOLD] milliseconds after
    the one before. *)
Definition slowlyTyped (keys : list Keystroke) : Prop :=
  ∀ (i : nat) (a b : Keystroke),
    keys !! i = Some a → keys !! S i = Some b →
    ks_now a + BURST_THRESHOLD < ks_now b.

(** The number of paste events recorded. *)
Definition pastes (r : KeystrokeRecorder) : nat :=
  length (List.filter isPaste (events r)).

End KeystrokeRecorder.

(** ** PatternAnalyzer.ts, PasteDetector.ts and IntegrityScorer.ts *)

Module PatternAnalyzer.

(** The result of [analyze].  The counts are integers; the two speeds are
    results of [Math.round] and the ratio is a quotient of two counts. *)
Record TypingPattern := {
  averageWPM : Z;
  maxWPM : Z;
  backspaceRatio : QArith_base.Q;
  idleBurstCount : Z;
  tabAwayCount : Z;
  sustainedHighSpeedSegments : Z;
  perfectCodeSegments : Z
}.

End PatternAnalyzer.

Module PasteDetector.

Import KeystrokeRecorder.
Local Open Scope Z_scope.

Record PasteEvent := {
  content : string;
  timestamp : Z;
  detectedBy : DetectedBy;
  charCount : Z
}.

(** The detector's state is its [pasteEvents] array. *)
Definition PasteDetector := list PasteEvent.

Definition recordClipboardPaste (text : string) (now : Z) (d : PasteDetector)
    : PasteEvent * PasteDetector :=
  let event := {| content := text; timestamp := now; detectedBy := clipboard_api;
                  charCount := JS.length text |} in
  (event, d ++ [event]).

Definition recordBurstPaste (n : Z) (now : Z) (d : PasteDetector)
    : PasteEvent * PasteDetector :=
  let event := {| content := "[burst: " +:+ JS.of_Z n +:+ " chars]"; timestamp := now;
                  detectedBy := burst; charCount := n |} in
  (event, d ++ [event]).

Definition getTotalPastedChars (d : PasteDetector) : Z :=
  fold_left (fun sum e => sum + charCount e) d 0.

Definition getPasteCount (d : PasteDetector) : Z := Z.of_nat (length d).

End PasteDetector.

Module IntegrityScorer.

Import KeystrokeRecorder PatternAnalyzer.
Local Open Scope Z_scope.

Inductive FlagSeverity := high | medium | low.

Global Instance FlagSeverity_eq_dec : EqDecision FlagSeverity.
Proof. solve_decision. Defined.

(** The optional [timestamp] of a flag is never set by the scorer and is
    left out. *)
Record IntegrityFlag := {
  severity : FlagSeverity;
  type : string;
  description : string;
  deduction : Z
}.

Record IntegrityReport := {
  score : Z;
  flags : list IntegrityFlag;
  patterns : TypingPattern;
  summary : string;
  pasteCount : Z;
  totalPastedChars : Z;
  tabAwayCount : Z;
  hintsUsed : Z;
  totalKeystrokes : Z;
  sessionDuration : QArith_base.Q
}.

Definition SEVERITY_DEDUCTIONS (s : FlagSeverity) : Z :=
  match s with high => 30 | medium => 15 | low => 5 end.

Definition generateSummary (score : Z) (flags : list IntegrityFlag) : string :=
  if 90 <=? score then "Clean session - no significant integrity concerns."
  else if 70 <=? score then
    "Minor concerns detected: " +:+ JS.join ", " (type <$> flags)
      +:+ ". Review recommended."
  else if 50 <=? score then "Multiple integrity flags raised. Careful review required."
  else "Significant integrity concerns. Session should be reviewed carefully before scoring.".

(** [flags.push(flag); score -= flag.deduction] for a flag of the given
    severity. *)
Definition raiseFlag (sev : FlagSeverity) (ty desc : string)
    (st : list IntegrityFlag * Z) : list IntegrityFlag * Z :=
  let flag := {| severity := sev; type := ty; description := desc;
                 deduction := SEVERITY_DEDUCTIONS sev |} in
  (fst st ++ [flag], snd st - deduction flag).

Definition isKey (e : SessionEvent) : bool :=
  match e with EvKey _ _ _ => true | _ => false end.

Definition isHintUsed (e : SessionEvent) : bool :=
  match e with EvHintUsed _ _ => true | _ => false end.

Definition timestampOf (e : SessionEvent) : Z :=
  match e with
  | EvKey _ t _ | EvPaste _ t _ | EvOutput _ t | EvCommand _ t _
  | EvObjectiveComplete _ t | EvLevelAdvance _ t | EvHintUsed _ t
  | EvFocusChange _ t | EvResize _ _ t => t
  end.

(** [generateReport(events, pasteDetector)]; [analyze] is the
    [PatternAnalyzer] the scorer holds.  [sessionDuration] is the
    quotient by 1000 as an exact rational. *)
Definition generateReport (analyze : list SessionEvent → TypingPattern)
    (events : list SessionEvent) (pasteDetector : PasteDetector.PasteDetector)
    : IntegrityReport :=
  let patterns := analyze events in
  let st0 : list IntegrityFlag * Z := ([], 100) in
  let pasteCount := PasteDetector.getPasteCount pasteDetector in
  let pastedChars := PasteDetector.getTotalPastedChars pasteDetector in
  let st1 :=
    if 5 <? pasteCount then
      raiseFlag high "excessive_paste"
        (JS.of_Z pasteCount +:+ " paste events detected (" +:+ JS.of_Z pastedChars
           +:+ " total characters)") st0
    else if 2 <? pasteCount then
      raiseFlag medium "moderate_paste"
        (JS.of_Z pasteCount +:+ " paste events detected") st0
    else st0 in
  let st2 :=
    if 0 <? sustainedHighSpeedSegments patterns then
      raiseFlag medium "speed_anomaly"
        (JS.of_Z (sustainedHighSpeedSegments patterns)
           +:+ " segments with sustained >200 WPM typing speed") st1
    else st1 in
  let st3 :=
    if 2 <? perfectCodeSegments patterns then
      raiseFlag medium "perfect_code"
        (JS.of_Z (perfectCodeSegments patterns)
           +:+ " code segments with near-zero backspace ratio (>100 chars)") st2
    else st2 in
  let st4 :=
    if 3 <? idleBurstCount patterns then
      raiseFlag low "idle_burst"
        (JS.of_Z (idleBurstCount patterns)
           +:+ " idle-then-burst typing patterns detected") st3
    else st3 in
  let st5 :=
    if 10 <? PatternAnalyzer.tabAwayCount patterns then
      raiseFlag low "frequent_tab_away"
        ("Tab away detected " +:+ JS.of_Z (PatternAnalyzer.tabAwayCount patterns)
           +:+ " times") st4
    else st4 in
  let keyEvents := List.filter isKey events in
  let duration :=
    match head keyEvents, last keyEvents with
    | Some first, Some final =>
        if (2 <=? length keyEvents)%nat
        then QArith_base.Qmake (timestampOf final - timestampOf first) 1000
        else QArith_base.Qmake 0 1
    | _, _ => QArith_base.Qmake 0 1
    end in
  let hints := Z.of_nat (length (List.filter isHintUsed events)) in
  let clamped := Z.max 0 (Z.min 100 (snd st5)) in
  {| score := clamped;
     flags := fst st5;
     patterns := patterns;
     summary := generateSummary clamped (fst st5);
     pasteCount := pasteCount;
     totalPastedChars := pastedChars;
     tabAwayCount := PatternAnalyzer.tabAwayCount patterns;
     hintsUsed := hints;
     totalKeystrokes := Z.of_nat (length keyEvents);
     sessionDuration := duration |}.

(** The sum of the deductions of the flags. *)
Definition deductions (fl : list IntegrityFlag) : Z :=
  fold_right (fun f acc => deduction f + acc) 0 fl.

End IntegrityScorer.

(** * Properties *)

(** ** JavaScript strings *)

Module JSFacts.

Local Open Scope Z_scope.

Lemma str_chars (s : string) : JS.str (JS.chars s) = s.
Proof. apply string_of_list_ascii_of_string. Qed.

Lemma chars_str (l : list ascii) : JS.chars (JS.str l) = l.
Proof. apply list_ascii_of_string_of_list_ascii. Qed.

Lemma length_chars (s : string) : length (JS.chars s) = String.length s.
Proof. induction s; simpl; auto. Qed.

Lemma length_str (l : list ascii) : JS.length (JS.str l) = Z.of_nat (length l).
Proof. unfold JS.length. by rewrite <- length_chars, chars_str. Qed.

Lemma length_nonneg (s : string) : 0 ≤ JS.length s.
Proof. unfold JS.length. lia. Qed.

Lemma length_app (a b : string) : JS.length (a +:+ b) = JS.length a + JS.length b.
Proof.
  unfold JS.length. induction a as [|c a IH]; simpl; [done|].
  change (String.append a b) with (a +:+ b). lia.
Qed.

Lemma length_empty : JS.length EmptyString = 0.
Proof. reflexivity. Qed.

Lemma rel_index_range (len i : Z) : 0 ≤ len → 0 ≤ JS.rel_index len i ≤ len.
Proof. unfold JS.rel_index. intros. destruct (i <? 0) eqn:E; lia. Qed.

Lemma rel_index_id (len i : Z) : 0 ≤ i ≤ len → JS.rel_index len i = i.
Proof. unfold JS.rel_index. intros. destruct (i <? 0) eqn:E; lia. Qed.

Lemma length_slice (s : string) (a b : Z) :
  JS.length (JS.slice s a b)
  = Z.max 0 (JS.rel_index (JS.length s) b - JS.rel_index (JS.length s) a).
Proof.
  unfold JS.slice. rewrite length_str, length_take, length_drop, length_chars.
  pose proof (rel_index_range (JS.length s) a (length_nonneg s)).
  pose proof (rel_index_range (JS.length s) b (length_nonneg s)).
  unfold JS.length in *. lia.
Qed.

(** [s.slice(a, b)] for indices in range. *)
Lemma length_slice_in (s : string) (a b : Z) :
  0 ≤ a ≤ b → b ≤ JS.length s → JS.length (JS.slice s a b) = b - a.
Proof. intros. rewrite length_slice, !rel_index_id by lia. lia. Qed.

Lemma length_slice_from (s : string) (a : Z) :
  0 ≤ a ≤ JS.length s → JS.length (JS.slice_from s a) = JS.length s - a.
Proof. intros. unfold JS.slice_from. rewrite length_slice_in; lia. Qed.

End JSFacts.

(** ** The parser *)

Module ParserFacts.

Import CommandParser.

(** The guard of the short-flag branch asks for a token that both starts
    and does not start with a dash: no token passes it. *)
Lemma short_flag_guard_unsatisfiable (token : string) :
  JS.startsWith token "-" && (1 <? JS.length token)%Z
    && negb (JS.startsWith token "-") = false.
Proof. destruct (JS.startsWith token "-"); simpl; [apply andb_false_r | done]. Qed.

(** A dash followed by a character other than a dash and anything after
    it: the loop pushes the token to [args] and leaves the flags alone. *)
Lemma parseStep_dash_token (acc : ParseAcc) (c : ascii) (rest : string)
    (next : option string) :
  c ≠ "-"%char →
  parseStep acc (String "-" (String c rest)) next
  = (pushArg acc (String "-" (String c rest)), false).
Proof.
  intros Hc%Ascii.eqb_neq. unfold parseStep.
  rewrite short_flag_guard_unsatisfiable.
  cbn [String.eqb JS.startsWith Ascii.eqb Bool.eqb andb].
  by rewrite Hc.
Qed.












(** C2.  The short-flag branch of [parseCommand] is dead code.  A token
    made of one dash followed by a character other than a dash (and
    whatever comes after it) is appended to [args] and sets no flag; on
    the tokens of [ls -abc] the token [-abc] ends up in [args] and none
    of the flags [a], [b], [c] is set. *)
Theorem short_flags_fall_through_to_args (acc : ParseAcc) (c : ascii)
    (rest : string) (next : option string) :
  c ≠ "-"%char →
  parseStep acc (String "-" (String c rest)) next
  = (pushArg acc (String "-" (String c rest)), false)
  ∧ args (parseCommand "ls -abc") = ["-abc"]
  ∧ flags (parseCommand "ls -abc") !! "a" = None
  ∧ flags (parseCommand "ls -abc") !! "b" = None
  ∧ flags (parseCommand "ls -abc") !! "c" = None.
Proof.
  intros Hc. split; [by apply parseStep_dash_token|]. vm_compute. by repeat split.
Qed.

Lemma short_flags_fall_through_to_args_witness :
  parseStep emptyAcc "-abc" None = (pushArg emptyAcc "-abc", false)
  ∧ args (parseCommand "ls -abc") = ["-abc"]
  ∧ flags (parseCommand "ls -abc") !! "a" = None.
Proof.
  destruct (short_flags_fall_through_to_args emptyAcc "a" "bc" None)
    as (Hstep & Hargs & Ha & _); [discriminate|].
  split; [exact Hstep|]. split; [exact Hargs | exact Ha].
Defined.


End ParserFacts.

(** ** The pipeline executor *)

Module ExecutorFacts.

Import CommandParser CommandContext CommandRegistry PipelineExecutor.


Lemma parse_shortCircuitInput :
  parse shortCircuitInput
  = {| commands := [plainCommand "false" [];
                    plainCommand "echo" ["should-not-appear"];
                    plainCommand "true" [];
                    plainCommand "echo" ["yes"]];
       operators := [OpAnd; OpSemi; OpAnd] |}.
Proof. by vm_compute. Qed.

(** C1, as stated, fails: on the initial context the scenario line yields
    the result of [false], empty output and exit code 1, not [yes] and 0. *)
Lemma short_circuit_scenario_stops_at_false :
  fst <$> execute Commands.coreRegistry shortCircuitInput
            (CommandContext.initial VirtualFileSystem.emptyRoot) 0
  = Some (result EmptyString 1)
  ∧ fst <$> execute Commands.coreRegistry shortCircuitInput
              (CommandContext.initial VirtualFileSystem.emptyRoot) 0
    ≠ Some (result ("yes" +:+ JS.of_char "010") 0).
Proof. vm_compute. split; [reflexivity | congruence]. Qed.

(** C1, amended.  Executing [false && echo should-not-appear ; true &&
    echo yes] returns the result of [false]: empty output and exit code 1.
    The [&&] after the failing [false] ends the walk over the pipeline, so
    neither [echo should-not-appear] nor the commands after the [;] run;
    the context is left as [false] left it. *)
Theorem short_circuit_ends_pipeline (registry : CommandRegistry.CommandRegistry)
    (ctx : CommandContext) (now : Z) :
  get registry "false" = Some Commands.handleFalse →
  execute registry shortCircuitInput ctx now
  = Some (result EmptyString 1, withExitCode ctx 1).
Proof.
  intros Hfalse. unfold execute. rewrite parse_shortCircuitInput.
  cbn [commands operators]. unfold executePipeline. cbn [commands operators].
  unfold plainCommand at 1. cbn [pipelineLoop].
  unfold executeCommand. cbn [command JS.truthy negb JS.includes JS.startsWith
    Ascii.eqb Bool.eqb andb orb].
  rewrite Hfalse. reflexivity.
Qed.

Lemma short_circuit_ends_pipeline_witness :
  execute Commands.coreRegistry shortCircuitInput
    (CommandContext.initial VirtualFileSystem.emptyRoot) 0
  = Some (result EmptyString 1,
          withExitCode (CommandContext.initial VirtualFileSystem.emptyRoot) 1).
Proof. apply short_circuit_ends_pipeline. reflexivity. Defined.

Lemma parse_quotedPipelineInput :
  parse quotedPipelineInput
  = {| commands := [plainCommand "echo" ["hello world"]; plainCommand "wc" ["-w"]];
       operators := [OpPipe] |}.
Proof. by vm_compute. Qed.

Lemma executeCommand_echo_hello (registry : CommandRegistry.CommandRegistry)
    (ctx : CommandContext) (stdin : option string) (now : Z) :
  get registry "echo" = Some Commands.handleEcho →
  executeCommand registry (plainCommand "echo" ["hello world"]) ctx stdin now
  = Some (result "hello world" 0, withExitCode ctx 0).
Proof.
  intros Hecho. unfold executeCommand, plainCommand.
  cbn [command JS.truthy negb JS.includes JS.startsWith Ascii.eqb Bool.eqb andb orb].
  rewrite Hecho. reflexivity.
Qed.

Lemma executeCommand_wc_dash_w (registry : CommandRegistry.CommandRegistry)
    (ctx : CommandContext) (stdin : option string) (now : Z) :
  get registry "wc" = Some Commands.handleWc →
  VirtualFileSystem.readFile (fs ctx) (resolvePath ctx "-w") "/" = None →
  executeCommand registry (plainCommand "wc" ["-w"]) ctx stdin now
  = Some (result "wc: -w: No such file or directory" 1, withExitCode ctx 1).
Proof.
  intros Hwc Hmissing. unfold executeCommand, plainCommand.
  cbn [command JS.truthy negb JS.includes JS.startsWith Ascii.eqb Bool.eqb andb orb].
  rewrite Hwc. unfold Commands.handleWc, Commands.wcText. cbn [args].
  rewrite Hmissing. reflexivity.
Qed.

(** C3.  On the line [echo "hello world" | wc -w] the token [-w] reaches
    [wc] as a file operand, not as a flag: unless the working directory
    holds a file of that name, the pipeline answers that the file [-w] is
    missing, with exit code 1, where the scenario expects [2] and 0. *)
Theorem quoted_pipeline_reports_missing_file
    (registry : CommandRegistry.CommandRegistry) (ctx : CommandContext) (now : Z) :
  get registry "echo" = Some Commands.handleEcho →
  get registry "wc" = Some Commands.handleWc →
  VirtualFileSystem.readFile (fs ctx) (resolvePath ctx "-w") "/" = None →
  execute registry quotedPipelineInput ctx now
  = Some (result "wc: -w: No such file or directory" 1, withExitCode ctx 1).
Proof.
  intros Hecho Hwc Hmissing. unfold execute. rewrite parse_quotedPipelineInput.
  cbn [commands operators]. unfold executePipeline. cbn [commands operators].
  cbn [pipelineLoop].
  rewrite (executeCommand_echo_hello registry ctx None now Hecho).
  cbv beta iota zeta.
  erewrite executeCommand_wc_dash_w; [reflexivity | exact Hwc | exact Hmissing].
Qed.

Lemma quoted_pipeline_reports_missing_file_witness :
  execute Commands.coreRegistry quotedPipelineInput
    (CommandContext.initial VirtualFileSystem.emptyRoot) 0
  = Some (result "wc: -w: No such file or directory" 1,
          withExitCode (CommandContext.initial VirtualFileSystem.emptyRoot) 1).
Proof. apply quoted_pipeline_reports_missing_file; reflexivity. Defined.

End ExecutorFacts.

(** ** The keystroke recorder *)

Module RecorderFacts.

Import KeystrokeRecorder.
Local Open Scope Z_scope.

Lemma filter_keeps_all (cutoff : Z) (l : list Z) :
  Forall (fun t => cutoff < t) l → List.filter (fun t => cutoff <? t) l = l.
Proof.
  induction 1 as [|t l Ht _ IH]; [done|]. simpl.
  apply Z.ltb_lt in Ht. by rewrite Ht, IH.
Qed.

Lemma ticks_lookup (t0 gap : Z) (b n k : nat) :
  (k < n)%nat → ticks t0 gap b n !! k = Some (t0 + gap * Z.of_nat (b + k)).
Proof.
  intros Hk. unfold ticks. rewrite list_lookup_fmap, lookup_seq_lt by done. done.
Qed.

Lemma ticks_length (t0 gap : Z) (b n : nat) : length (ticks t0 gap b n) = n.
Proof. unfold ticks. by rewrite length_fmap, length_seq. Qed.

Lemma ticks_snoc (t0 gap : Z) (b n : nat) :
  ticks t0 gap b n ++ [t0 + gap * Z.of_nat (b + n)] = ticks t0 gap b (S n).
Proof. unfold ticks. by rewrite seq_S, fmap_app. Qed.

Lemma ticks_recent (t0 gap : Z) (b n : nat) (now : Z) :
  0 ≤ gap → now - 5000 < t0 + gap * Z.of_nat b →
  Forall (fun t => now - 5000 < t) (ticks t0 gap b n).
Proof.
  intros Hgap Hb. unfold ticks. apply Forall_fmap, Forall_forall.
  intros k Hk%elem_of_seq. simpl. nia.
Qed.

(** With every gap within the threshold the backward scan runs down to
    index 0 and counts one keystroke per step. *)
Lemma burstScan_ticks (t0 gap : Z) (b n i : nat) (c : Z) (s : nat) :
  0 ≤ gap ≤ BURST_THRESHOLD → (i < n)%nat →
  burstScan (ticks t0 gap b n) i c s
  = (c + Z.of_nat i, if decide (i = O) then s else O).
Proof.
  intros Hgap. revert c s. induction i as [|i IH]; intros c s Hi.
  - simpl. f_equal. lia.
  - simpl. rewrite !ticks_lookup by lia.
    assert ((t0 + gap * Z.of_nat (b + S i) - (t0 + gap * Z.of_nat (b + i))
             <=? BURST_THRESHOLD) = true) as -> by (apply Z.leb_le; nia).
    rewrite IH by lia. f_equal; [lia|]. by destruct i.
Qed.

(** A keystroke that leaves fewer than thirty recent timestamps in the
    window detects nothing. *)
Lemma addKeystroke_quiet (t0 gap : Z) (b n : nat) :
  0 ≤ gap → gap * Z.of_nat n < 5000 → (S n < 30)%nat →
  addKeystroke (t0 + gap * Z.of_nat (b + n)) (ticks t0 gap b n)
  = (None, ticks t0 gap b (S n)).
Proof.
  intros Hgap Hspan Hn. unfold addKeystroke.
  rewrite ticks_snoc, filter_keeps_all
    by (apply ticks_recent; [lia | rewrite Nat2Z.inj_add; nia]).
  rewrite ticks_length.
  assert ((Z.of_nat (S n) <? BURST_MIN_CHARS) = true) as ->
    by (apply Z.ltb_lt; unfold BURST_MIN_CHARS; lia).
  done.
Qed.

(** The thirtieth keystroke of a rapid run is reported and empties the
    window. *)
Lemma addKeystroke_burst (t0 gap : Z) (b : nat) :
  0 ≤ gap ≤ BURST_THRESHOLD →
  addKeystroke (t0 + gap * Z.of_nat (b + 29)) (ticks t0 gap b 29)
  = (Some {| count := 30; duration := Some (gap * 29) |}, []).
Proof.
  intros Hgap. unfold addKeystroke. unfold BURST_THRESHOLD in Hgap.
  rewrite ticks_snoc, filter_keeps_all
    by (apply ticks_recent; [lia | rewrite Nat2Z.inj_add; nia]).
  rewrite ticks_length.
  change (Z.of_nat 30 <? BURST_MIN_CHARS) with false. cbv iota.
  rewrite burstScan_ticks by (unfold BURST_THRESHOLD; lia).
  change (BURST_MIN_CHARS <=? 1 + Z.of_nat (30 - 1)) with true.
  cbv iota beta. rewrite decide_False by discriminate.
  rewrite ticks_lookup by lia. cbn [fmap option_fmap option_map].
  rewrite Nat.add_0_r, Nat2Z.inj_add.
  do 4 f_equal. lia.
Qed.

Lemma feed_app (r : KeystrokeRecorder) (k1 k2 : list Keystroke) :
  feed r (k1 ++ k2) = feed (feed r k1) k2.
Proof. apply fold_left_app. Qed.

Lemma paced_app (t0 gap : Z) (i : nat) (p1 p2 : list (string * KeyMeta * Z)) :
  paced t0 gap i (p1 ++ p2) = paced t0 gap i p1 ++ paced t0 gap (i + length p1) p2.
Proof.
  revert i. induction p1 as [|[[k m] now'] p1 IH]; intros i; simpl.
  - by rewrite Nat.add_0_r.
  - rewrite IH. do 3 f_equal. lia.
Qed.

Lemma paced_length (t0 gap : Z) (i : nat) (p : list (string * KeyMeta * Z)) :
  length (paced t0 gap i p) = length p.
Proof. revert i. induction p as [|[[k m] now'] p IH]; intros i; simpl; [done | by rewrite IH]. Qed.

Lemma feed_cons (r : KeystrokeRecorder) (k : Keystroke) (ks : list Keystroke) :
  feed r (k :: ks) = feed (recordKey (ks_key k) (ks_meta k) (ks_now k) (ks_now' k) r) ks.
Proof. reflexivity. Qed.

Lemma recordKey_quiet (t0 gap : Z) (b n : nat) (es : list SessionEvent)
    (k : string) (m : KeyMeta) (now' : Z) :
  0 ≤ gap → gap * Z.of_nat n < 5000 → (S n < 30)%nat →
  recordKey k m (t0 + gap * Z.of_nat (b + n)) now'
    {| events := es; burstDetector := ticks t0 gap b n |}
  = {| events := es ++ [EvKey k (t0 + gap * Z.of_nat (b + n)) m];
       burstDetector := ticks t0 gap b (S n) |}.
Proof.
  intros Hgap Hspan Hn. unfold recordKey. cbn [events burstDetector].
  by rewrite addKeystroke_quiet.
Qed.

Lemma recordKey_burst (t0 gap : Z) (b : nat) (es : list SessionEvent)
    (k : string) (m : KeyMeta) (now' : Z) :
  0 ≤ gap ≤ BURST_THRESHOLD →
  recordKey k m (t0 + gap * Z.of_nat (b + 29)) now'
    {| events := es; burstDetector := ticks t0 gap b 29 |}
  = {| events := (es ++ [EvKey k (t0 + gap * Z.of_nat (b + 29)) m])
                 ++ [EvPaste (burstContent {| count := 30; duration := Some (gap * 29) |})
                       now' burst];
       burstDetector := [] |}.
Proof.
  intros Hgap. unfold recordKey. cbn [events burstDetector].
  by rewrite addKeystroke_burst.
Qed.

(** While the window stays below thirty entries the recorder only logs
    the keys. *)
Lemma feed_quiet (t0 gap : Z) (b : nat) (presses : list (string * KeyMeta * Z)) :
  0 ≤ gap ≤ BURST_THRESHOLD →
  ∀ (n : nat) (es : list SessionEvent),
    (n + length presses < 30)%nat →
    feed {| events := es; burstDetector := ticks t0 gap b n |}
      (paced t0 gap (b + n) presses)
    = {| events := es ++ keyEventsOf (paced t0 gap (b + n) presses);
         burstDetector := ticks t0 gap b (n + length presses) |}.
Proof.
  intros Hgap. unfold BURST_THRESHOLD in Hgap.
  induction presses as [|[[k m] now'] presses IH]; intros n es Hn.
  - cbn [paced keyEventsOf fmap list_fmap feed fold_left length].
    by rewrite app_nil_r, Nat.add_0_r.
  - cbn [length] in Hn. cbn [paced]. rewrite feed_cons.
    cbn [ks_key ks_meta ks_now ks_now'].
    rewrite recordKey_quiet by nia.
    replace (S (b + n)) with (b + S n)%nat by lia.
    rewrite IH by lia.
    cbn [keyEventsOf fmap list_fmap ks_key ks_meta ks_now length].
    f_equal; [by rewrite <- app_assoc | f_equal; lia].
Qed.

Lemma filter_isPaste_keyEvents (keys : list Keystroke) :
  List.filter isPaste (keyEventsOf keys) = [].
Proof. induction keys; simpl; auto. Qed.

Lemma burst_content_matches :
  matchesBurstPattern "[burst detected: 30 chars in 580ms]".
Proof. exists EmptyString, "30", "580", EmptyString. by repeat split. Qed.

Lemma paced_times (t0 gap : Z) (i : nat) (p : list (string * KeyMeta * Z)) :
  ks_now <$> paced t0 gap i p = ticks t0 gap i (length p).
Proof.
  revert i. induction p as [|[[k m] now'] p IH]; intros i; [done|].
  cbn [paced fmap list_fmap ks_now length]. rewrite IH. done.
Qed.

(** C9.  Thirty-five keystrokes 20 ms apart, fed to a fresh recorder,
    leave exactly one paste event in the event list: it follows the
    thirtieth key event, is detected by [burst], and its content
    [[burst detected: 30 chars in 580ms]] matches the pattern.  The
    detection empties the window: after the run it holds only the
    timestamps of the last five keystrokes, which synthesise nothing. *)
Theorem rapid_keys_synthesise_one_paste (t0 : Z)
    (presses : list (string * KeyMeta * Z)) :
  length presses = 35%nat →
  ∃ now' : Z,
    let keys := paced t0 20 0 presses in
    let r := feed initial keys in
    let paste := EvPaste "[burst detected: 30 chars in 580ms]" now' burst in
    events r = keyEventsOf (take 30 keys) ++ [paste] ++ keyEventsOf (drop 30 keys)
    ∧ List.filter isPaste (events r) = [paste]
    ∧ matchesBurstPattern "[burst detected: 30 chars in 580ms]"
    ∧ burstDetector r = ks_now <$> drop 30 keys
    ∧ length (burstDetector r) = 5%nat.
Proof.
  intros Hlen.
  destruct (lookup_lt_is_Some_2 presses 29) as [[[k m] now'] Hx]; [lia|].
  exists now'. cbv zeta.
  pose proof (take_drop_middle presses 29 _ Hx) as Hsplit.
  set (p1 := take 29 presses) in *. set (p3 := drop 30 presses) in *.
  assert (length p1 = 29%nat) as Hp1 by (subst p1; rewrite length_take; lia).
  assert (length p3 = 5%nat) as Hp3 by (subst p3; rewrite length_drop; lia).
  rewrite <- Hsplit. clear Hsplit Hx Hlen.
  rewrite paced_app. cbn [paced]. rewrite Hp1, Nat.add_0_l.
  set (k30 := {| ks_key := k; ks_meta := m; ks_now := t0 + 20 * Z.of_nat 29;
                 ks_now' := now' |}).
  assert (feed initial (paced t0 20 0 p1 ++ k30 :: paced t0 20 30 p3)
          = {| events := (keyEventsOf (paced t0 20 0 p1 ++ [k30])
                          ++ [EvPaste "[burst detected: 30 chars in 580ms]" now' burst])
                         ++ keyEventsOf (paced t0 20 30 p3);
               burstDetector := ticks t0 20 30 5 |}) as ->.
  { rewrite feed_app, feed_cons.
    change initial with {| events := []; burstDetector := ticks t0 20 0 0 |}.
    rewrite (feed_quiet t0 20 0 p1) by (unfold BURST_THRESHOLD; lia).
    rewrite Hp1. subst k30. cbn [ks_key ks_meta ks_now ks_now'].
    rewrite (recordKey_burst t0 20 0) by (unfold BURST_THRESHOLD; lia).
    change (@nil Z) with (ticks t0 20 30 0).
    rewrite (feed_quiet t0 20 30 p3 ltac:(unfold BURST_THRESHOLD; lia) 0) by lia.
    rewrite Hp3. f_equal. unfold keyEventsOf. rewrite fmap_app. reflexivity. }
  cbn [events burstDetector].
  assert (take 30 (paced t0 20 0 p1 ++ k30 :: paced t0 20 30 p3)
          = paced t0 20 0 p1 ++ [k30]) as ->.
  { rewrite (cons_middle k30), app_assoc.
    rewrite take_app_length'; [done|].
    rewrite length_app, paced_length, Hp1. done. }
  assert (drop 30 (paced t0 20 0 p1 ++ k30 :: paced t0 20 30 p3)
          = paced t0 20 30 p3) as ->.
  { rewrite (cons_middle k30), app_assoc.
    rewrite drop_app_length'; [done|].
    rewrite length_app, paced_length, Hp1. done. }
  split; [by rewrite <- app_assoc|].
  split.
  { rewrite !List.filter_app, !filter_isPaste_keyEvents. reflexivity. }
  split; [apply burst_content_matches|].
  split; [by rewrite paced_times, Hp3 | apply ticks_length].
Qed.

Lemma rapid_keys_synthesise_one_paste_witness :
  ∃ now' : Z,
    List.filter isPaste
      (events (feed initial
                 (paced 1000 20 0
                    (replicate 35
                       ("a", {| shift := false; ctrl := false; alt := false;
                                meta := false |}, 7)))))
    = [EvPaste "[burst detected: 30 chars in 580ms]" now' burst].
Proof.
  destruct (rapid_keys_synthesise_one_paste 1000
              (replicate 35
                 ("a", {| shift := false; ctrl := false; alt := false;
                          meta := false |}, 7)) eq_refl)
    as (now' & _ & H & _).
  exists now'. exact H.
Defined.

End RecorderFacts.

(** ** The line editor *)

Module InputBufferFacts.

Import InputBuffer.
Local Open Scope Z_scope.

Lemma wellFormed_withLine (st : InputBuffer) (b : string) (c : Z) :
  wellFormed st → 0 ≤ c ≤ JS.length b → wellFormed (withLine st b c).
Proof. intros [_ Hh] Hc. split; [exact Hc | exact Hh]. Qed.

Lemma insert_wellFormed (char : string) (st : InputBuffer) :
  wellFormed st → wellFormed (snd (insert char st)).
Proof.
  intros Hwf. pose proof Hwf as [Hc _]. unfold insert.
  destruct (0 <? _); cbn [snd]; apply wellFormed_withLine; try done;
    rewrite !JSFacts.length_app, JSFacts.length_slice_in, JSFacts.length_slice_from by lia;
    pose proof (JSFacts.length_nonneg char); lia.
Qed.

Lemma backspace_wellFormed (st : InputBuffer) :
  wellFormed st → wellFormed (snd (backspace st)).
Proof.
  intros Hwf. pose proof Hwf as [Hc _]. unfold backspace.
  destruct (cursorPos st =? 0) eqn:E; [done|]. apply Z.eqb_neq in E.
  destruct (0 <? _); cbn [snd]; apply wellFormed_withLine; try done;
    rewrite !JSFacts.length_app, JSFacts.length_slice_in, JSFacts.length_slice_from by lia;
    lia.
Qed.

Lemma delete_wellFormed (st : InputBuffer) :
  wellFormed st → wellFormed (snd (delete st)).
Proof.
  intros Hwf. pose proof Hwf as [Hc _]. unfold delete.
  destruct (JS.length (buffer st) <=? cursorPos st) eqn:E; [done|].
  apply Z.leb_gt in E. cbn [snd]. apply wellFormed_withLine; [done|].
  rewrite !JSFacts.length_app, JSFacts.length_slice_in, JSFacts.length_slice_from by lia.
  lia.
Qed.

Lemma moves_wellFormed (st : InputBuffer) :
  wellFormed st →
  wellFormed (snd (moveLeft st)) ∧ wellFormed (snd (moveRight st))
  ∧ wellFormed (snd (moveToStart st)) ∧ wellFormed (snd (moveToEnd st)).
Proof.
  intros Hwf. pose proof Hwf as [Hc _].
  unfold moveLeft, moveRight, moveToStart, moveToEnd.
  destruct (cursorPos st =? 0) eqn:E0;
    destruct (JS.length (buffer st) <=? cursorPos st) eqn:E1;
    try apply Z.eqb_neq in E0; try apply Z.leb_gt in E1;
    (split; [|split; [|split]]); cbn [snd];
    first [ exact Hwf | apply wellFormed_withLine; [exact Hwf | lia] ].
Qed.

Lemma kills_wellFormed (st : InputBuffer) :
  wellFormed st →
  wellFormed (snd (killToEnd st)) ∧ wellFormed (snd (killToStart st)).
Proof.
  intros Hwf. pose proof Hwf as [Hc _]. unfold killToEnd, killToStart.
  destruct (cursorPos st =? 0) eqn:E0;
    destruct (JS.length (buffer st) <=? cursorPos st) eqn:E1;
    try apply Z.eqb_neq in E0; try apply Z.leb_gt in E1;
    split; cbn [snd];
    first [ exact Hwf
          | apply wellFormed_withLine;
            [ exact Hwf
            | rewrite ?JSFacts.length_slice_in, ?JSFacts.length_slice_from by lia; lia ] ].
Qed.

(** The backward scans stop between 0 and where they started. *)
Lemma scanBack_range (fuel : nat) (test : option ascii → bool) (buf : string) (p : Z) :
  0 ≤ p → 0 ≤ scanBack fuel test buf p ≤ p.
Proof.
  revert p. induction fuel as [|fuel IH]; intros p Hp; simpl; [lia|].
  destruct (0 <? p) eqn:E; simpl; [|lia]. apply Z.ltb_lt in E.
  destruct (test _); [|lia]. specialize (IH (p - 1)). lia.
Qed.

(** The fuel given to the scans is enough: where a scan stops, the
    condition of the source loop is false. *)
Lemma scanBack_stops (test : option ascii → bool) (buf : string) (p : Z) (fuel : nat) :
  (Z.to_nat p ≤ fuel)%nat →
  let r := scanBack fuel test buf p in
  (0 <? r) && test (at_ (JS.chars buf) (r - 1)) = false.
Proof.
  revert p. induction fuel as [|fuel IH]; intros p Hp; simpl.
  - assert (p ≤ 0) by lia. destruct (0 <? p) eqn:E; [apply Z.ltb_lt in E; lia | done].
  - destruct ((0 <? p) && test (at_ (JS.chars buf) (p - 1))) eqn:E; [|exact E].
    apply IH. apply andb_true_iff in E as [E%Z.ltb_lt _]. lia.
Qed.

Lemma deleteWordBack_wellFormed (st : InputBuffer) :
  wellFormed st → wellFormed (snd (deleteWordBack st)).
Proof.
  intros Hwf. pose proof Hwf as [Hc _]. unfold deleteWordBack.
  destruct (cursorPos st =? 0) eqn:E0; [done|]. apply Z.eqb_neq in E0.
  cbn [snd]. apply wellFormed_withLine; [done|].
  set (p1 := scanBack _ isBlank _ _).
  assert (0 ≤ p1 ≤ cursorPos st - 1) as Hp1 by (apply scanBack_range; lia).
  set (p2 := scanBack _ _ _ p1).
  assert (0 ≤ p2 ≤ p1) as Hp2 by (apply scanBack_range; lia).
  rewrite JSFacts.length_app, JSFacts.length_slice_from by lia.
  rewrite JSFacts.length_slice_in; [lia | lia |].
  rewrite JSFacts.length_slice_in by lia. lia.
Qed.

Lemma replaceLine_wellFormed (newContent : string) (st : InputBuffer) :
  wellFormed st → wellFormed (snd (replaceLine newContent st)).
Proof.
  intros Hwf. unfold replaceLine. cbn [snd]. apply wellFormed_withLine; [done|].
  pose proof (JSFacts.length_nonneg newContent). lia.
Qed.

Lemma at_in_range {A} (l : list A) (i : Z) :
  0 ≤ i < Z.of_nat (length l) → is_Some (at_ l i).
Proof.
  intros Hi. unfold at_. destruct (i <? 0) eqn:E; [apply Z.ltb_lt in E; lia|].
  apply lookup_lt_is_Some. lia.
Qed.

Lemma replaceWithEntry_wellFormed (st : InputBuffer) :
  0 ≤ cursorPos st ≤ JS.length (buffer st) →
  0 ≤ historyIndex st < Z.of_nat (length (history st)) →
  ∃ out st', replaceWithEntry st = Ret (out, st') ∧ wellFormed st'.
Proof.
  intros Hc Hh. unfold replaceWithEntry.
  destruct (at_in_range (history st) (historyIndex st) Hh) as [entry ->].
  eexists _, _. split; [reflexivity|].
  apply (replaceLine_wellFormed entry st). split; [done | by right].
Qed.

Lemma historyUp_wellFormed (st : InputBuffer) :
  wellFormed st → ∃ out st', historyUp st = Ret (out, st') ∧ wellFormed st'.
Proof.
  intros Hwf. pose proof Hwf as [Hc Hh]. unfold historyUp.
  case_bool_decide as Hnil; [by eexists _, _|].
  assert (0 < Z.of_nat (length (history st))) by (destruct (history st); simpl in *; [done | lia]).
  destruct (historyIndex st =? -1) eqn:E1.
  { apply replaceWithEntry_wellFormed; simpl; [done | lia]. }
  apply Z.eqb_neq in E1.
  destruct (0 <? historyIndex st) eqn:E2.
  { apply Z.ltb_lt in E2. apply replaceWithEntry_wellFormed; simpl; [done | lia]. }
  by eexists _, _.
Qed.

Lemma historyDown_wellFormed (st : InputBuffer) :
  wellFormed st → ∃ out st', historyDown st = Ret (out, st') ∧ wellFormed st'.
Proof.
  intros Hwf. pose proof Hwf as [Hc Hh]. unfold historyDown.
  destruct (historyIndex st =? -1) eqn:E1; [by eexists _, _|].
  apply Z.eqb_neq in E1.
  destruct (historyIndex st <? _) eqn:E2.
  { apply Z.ltb_lt in E2. apply replaceWithEntry_wellFormed; simpl; [done | lia]. }
  eexists _, _. split; [reflexivity|].
  apply replaceLine_wellFormed. split; simpl; [done | by left].
Qed.

Lemma tabComplete_wellFormed (st : InputBuffer) :
  wellFormed st → wellFormed (snd (tabComplete st)).
Proof.
  intros Hwf. unfold tabComplete.
  destruct (completionCallback st) as [cb|]; [|done].
  destruct (cb _) as [|c1 [|c2 cs]]; [done | by apply insert_wellFormed |].
  destruct (_ <? _); [by apply insert_wellFormed | done].
Qed.

Lemma insertText_wellFormed (text : string) (st : InputBuffer) :
  wellFormed st → wellFormed (snd (insertText text st)).
Proof.
  unfold insertText. generalize EmptyString as out. revert st.
  induction (JS.chars text) as [|c cs IH]; intros st out Hwf; [done|].
  cbn [fold_left].
  destruct (Ascii.eqb c "010" || Ascii.eqb c "013"); [by apply IH|].
  pose proof (insert_wellFormed (JS.of_char c) st Hwf) as Hins.
  destruct (insert (JS.of_char c) st) as [o st2]. by apply IH.
Qed.

Lemma submit_wellFormed (st : InputBuffer) : wellFormed (snd (submit st)).
Proof. unfold submit, wellFormed. cbn. split; [done | by left]. Qed.

Lemma clear_wellFormed (st : InputBuffer) : wellFormed (clear st).
Proof. unfold clear, wellFormed. cbn. split; [done | by left]. Qed.

(** Every operation returns, and keeps the invariant. *)
Lemma step_wellFormed (op : Op) (st : InputBuffer) :
  wellFormed st → ∃ out st', step op st = Ret (out, st') ∧ wellFormed st'.
Proof.
  intros Hwf.
  assert (∀ r : string * InputBuffer, wellFormed (snd r) →
            ∃ out st', Ret r = Ret (out, st') ∧ wellFormed st') as Hret
    by (intros [o s'] ?; by eexists _, _).
  destruct op; cbn [step];
    try (apply Hret;
         first [ by apply insert_wellFormed | by apply backspace_wellFormed
               | by apply delete_wellFormed | by apply (moves_wellFormed st)
               | by apply (kills_wellFormed st) | by apply deleteWordBack_wellFormed
               | by apply tabComplete_wellFormed | by apply insertText_wellFormed
               | apply submit_wellFormed | apply clear_wellFormed | exact Hwf ]).
  - by apply historyUp_wellFormed.
  - by apply historyDown_wellFormed.
Qed.

Lemma run_wellFormed (ops : list Op) (st : InputBuffer) :
  wellFormed st → ∃ st', run ops st = Ret st' ∧ wellFormed st'.
Proof.
  revert st. induction ops as [|op ops IH]; intros st Hwf; [by exists st|].
  destruct (step_wellFormed op st Hwf) as (out & st1 & Hstep & Hwf1).
  cbn [run]. rewrite Hstep. by apply IH.
Qed.

(** C6.  Whatever operations the editor is given, from a fresh buffer on,
    each of them returns and the cursor ends within the line:
    [0 <= cursor <= |buffer|]. *)
Theorem cursor_stays_within_buffer (ops : list Op) :
  ∃ st : InputBuffer,
    run ops initial = Ret st ∧ 0 ≤ cursorPos st ≤ JS.length (buffer st).
Proof.
  destruct (run_wellFormed ops initial) as (st & Hrun & Hc & _).
  { split; [done | by left]. }
  by exists st.
Qed.

End InputBufferFacts.

(** ** The virtual file system: snapshots *)

Module SnapshotFacts.

Import VirtualFileSystem.

Lemma nodeSize_child (n : FSNode) (ch : gmap string FSNode) (k : string) (c : FSNode) :
  children n = Some ch → ch !! k = Some c → (nodeSize c < nodeSize n)%nat.
Proof.
  destruct n as [nm ty co chn tg pe mo]. cbn [children]. intros -> Hk.
  cbn [nodeSize children].
  enough (nodeSize c ≤ map_fold (fun _ c acc => (nodeSize c + acc)%nat) O ch)%nat by lia.
  revert k c Hk.
  induction ch as [|j x ch Hj Hfirst IH] using map_first_key_ind; intros k c Hk.
  - by rewrite lookup_empty in Hk.
  - rewrite map_fold_insert_first_key by done.
    destruct (decide (j = k)) as [->|Hne].
    + rewrite lookup_insert_eq in Hk. injection Hk as ->. lia.
    + rewrite lookup_insert_ne in Hk by done. specialize (IH k c Hk). lia.
Qed.

(** Induction on a tree, with the hypothesis for every child. *)
Lemma FSNode_children_ind (P : FSNode → Prop) :
  (∀ n, (∀ ch k c, children n = Some ch → ch !! k = Some c → P c) → P n) →
  ∀ n, P n.
Proof.
  intros Hstep n. remember (nodeSize n) as size eqn:Hsize. revert n Hsize.
  induction (lt_wf size) as [size _ IH]. intros n ->. apply Hstep.
  intros ch k c Hch Hk. eapply IH; [|reflexivity]. by eapply nodeSize_child.
Qed.

Lemma fold_andb_true {A} (f : A → bool) (m : gmap string A) :
  map_fold (fun _ c acc => f c && acc) true m = true →
  ∀ k c, m !! k = Some c → f c = true.
Proof.
  induction m as [|j x m Hj Hfirst IH] using map_first_key_ind; intros Hfold k c Hk.
  - by rewrite lookup_empty in Hk.
  - rewrite map_fold_insert_first_key in Hfold by done.
    apply andb_true_iff in Hfold as [Hx Hrest].
    destruct (decide (j = k)) as [->|Hne].
    + rewrite lookup_insert_eq in Hk. by injection Hk as ->.
    + rewrite lookup_insert_ne in Hk by done. by eapply IH.
Qed.

(** Building the snapshot object key by key gives the image of the map,
    when no key is [__proto__]. *)
Lemma fold_objectSet {A B} (f : A → B) (m : gmap string A) :
  m !! "__proto__" = None →
  map_fold (fun k c o => objectSet k (f c) o) ∅ m = f <$> m.
Proof.
  induction m as [|j x m Hj Hfirst IH] using map_first_key_ind; intros Hproto.
  - by rewrite map_fold_empty, fmap_empty.
  - rewrite map_fold_insert_first_key by done.
    assert (j ≠ "__proto__") as Hne by (intros ->; by rewrite lookup_insert_eq in Hproto).
    rewrite lookup_insert_ne in Hproto by done.
    rewrite IH by done. unfold objectSet.
    apply String.eqb_neq in Hne. rewrite Hne. by rewrite fmap_insert.
Qed.

Lemma presentIfTruthy_id (o : option string) :
  o ≠ Some EmptyString → presentIfTruthy o = o.
Proof. destruct o as [[|c s]|]; simpl; congruence. Qed.

Lemma snapshotSafe_inv (n : FSNode) :
  snapshotSafe n = true →
  target n ≠ Some EmptyString ∧ permissions n ≠ Some EmptyString
  ∧ ∀ ch, children n = Some ch →
      ch !! "__proto__" = None ∧ ∀ k c, ch !! k = Some c → snapshotSafe c = true.
Proof.
  destruct n as [nm ty co chn tg pe mo]. cbn [snapshotSafe target permissions children].
  intros H. apply andb_true_iff in H as [H Hch]. apply andb_true_iff in H as [Ht Hp].
  apply bool_decide_eq_true in Ht, Hp. repeat split; try done.
  all: destruct chn as [ch'|]; try done; injection H as <-;
    apply andb_true_iff in Hch as [Hproto Hall]; apply bool_decide_eq_true in Hproto.
  - done.
  - by apply (fold_andb_true snapshotSafe).
Qed.

(** C5, as stated, fails: the tree loaded from a snapshot whose root has
    the empty string for [permissions] comes back from the round trip
    without any [permissions] field. *)
Lemma empty_permissions_lost_in_round_trip :
  permissions blankPermissionsTree = Some EmptyString
  ∧ permissions (fromJSON 0 (toJSON blankPermissionsTree)) = None
  ∧ ¬ sameStructure (fromJSON 0 (toJSON blankPermissionsTree)) blankPermissionsTree.
Proof.
  split; [reflexivity|]. split; [reflexivity|].
  intros H. apply (f_equal permissions) in H. vm_compute in H. discriminate.
Qed.

(** C5, amended.  For every tree in which no node has an empty-string
    target or permissions and no directory has a child named [__proto__],
    the round trip through the snapshot gives the tree back with every
    [modified] stamp set to the loading time: name, kind, content,
    target, permissions and the children map of every node are kept. *)
Theorem snapshot_round_trip (now : Z) (T : FSNode) :
  snapshotSafe T = true →
  fromJSON now (toJSON T) = restamp now T
  ∧ sameStructure (fromJSON now (toJSON T)) T.
Proof.
  intros Hsafe.
  enough (fromJSON now (toJSON T) = restamp now T) as Heq.
  { split; [done|]. unfold sameStructure. rewrite Heq. clear.
    induction T as [n IH] using FSNode_children_ind.
    destruct n as [nm ty co chn tg pe mo]. cbn [restamp name type content children
      target permissions]. f_equal. destruct chn as [ch|]; [|done]. f_equal.
    rewrite <- map_fmap_compose. apply map_fmap_ext. intros k c Hk. cbn.
    by eapply IH. }
  unfold fromJSON, toJSON. revert Hsafe.
  induction T as [n IH] using FSNode_children_ind. intros Hsafe.
  destruct (snapshotSafe_inv n Hsafe) as (Ht & Hp & Hch).
  destruct n as [nm ty co chn tg pe mo].
  cbn [target permissions children] in *.
  cbn [_nodeToJSON _jsonToNode restamp name type content children target permissions
       j_name j_type j_content j_children j_target j_permissions].
  rewrite !presentIfTruthy_id by done. f_equal.
  destruct chn as [ch|]; [|done]. f_equal.
  destruct (Hch ch eq_refl) as [Hproto Hall].
  rewrite fold_objectSet by done.
  rewrite <- map_fmap_compose. apply map_fmap_ext. intros k c Hk. cbn.
  eapply IH; [reflexivity | exact Hk | by eapply Hall].
Qed.

Lemma snapshot_round_trip_witness :
  snapshotSafe sampleTree = true
  ∧ fromJSON 9 (toJSON sampleTree) = restamp 9 sampleTree.
Proof.
  split; [by vm_compute|].
  apply (snapshot_round_trip 9 sampleTree). by vm_compute.
Defined.

End SnapshotFacts.

(** ** The virtual file system: path resolution *)

Module WalkFacts.

Import VirtualFileSystem.

(** [_walk] satisfies the recursive equation of the source. *)
Lemma _walk_unfold (root : FSNode) (parts : list string) (follow : bool) (depth : nat) :
  _walk root parts follow depth
  = if (20 <? depth)%nat then None
    else walkLoop (fun targetParts => _walk root targetParts true (S depth))
           follow [] parts ([], root).
Proof.
  unfold _walk. destruct (20 <? depth)%nat eqn:E.
  - apply Nat.ltb_lt in E. by replace (21 - depth)%nat with O by lia.
  - apply Nat.ltb_ge in E. by replace (21 - depth)%nat with (S (21 - S depth)) by lia.
Qed.

Lemma walk_capped (root : FSNode) (parts : list string) (follow : bool) (depth : nat) :
  (20 < depth)%nat → _walk root parts follow depth = None.
Proof. intros H. unfold _walk. by replace (21 - depth)%nat with O by lia. Qed.

Lemma walkBudget_S (b : nat) (root : FSNode) (follow : bool) (parts : list string) :
  walkBudget (S b) root follow parts
  = walkLoop (walkBudget b root true) follow [] parts ([], root).
Proof. reflexivity. Qed.

(** The loop over [a ++ b] is the loop over [a] followed by the loop over
    [b]. *)
Lemma walkLoop_app (recur : list string → option Ref) (follow : bool)
    (a b : list string) :
  ∀ (done : list string) (current : Ref),
    walkLoop recur follow done (a ++ b) current
    = match walkLoop recur follow done a current with
      | Some c => walkLoop recur follow (done ++ a) b c
      | None => None
      end.
Proof.
  induction a as [|part a IH]; intros done current.
  - cbn [app walkLoop]. by rewrite app_nil_r.
  - cbn [app walkLoop].
    destruct (negb _); [done|].
    destruct (children (snd current)) as [ch|]; [|done].
    destruct (ch !! part) as [child|]; [|done].
    destruct (followedTarget child follow) as [t|].
    + destruct (recur _) as [targetNode|]; [|done].
      rewrite IH. by rewrite <- app_assoc.
    + rewrite IH. by rewrite <- app_assoc.
Qed.

(** Every run of the loop returns: the function computes a run. *)
Lemma loops_total (root : FSNode) (b : nat) :
  ∀ depth : nat, (depth + b = 20)%nat →
  ∀ (follow : bool) (todo done : list string) (current : Ref),
    Loops root depth follow done todo current
      (walkLoop (walkBudget b root true) follow done todo current).
Proof.
  induction b as [|b IHb]; intros depth Hdepth follow todo;
    induction todo as [|part todo IHtodo]; intros done current;
    cbn [walkLoop]; try apply loops_end.
  all: destruct (decide (type (snd current) = directory)) as [Hdir|Hdir];
    [ rewrite (bool_decide_eq_true_2 _ Hdir)
    | rewrite (bool_decide_eq_false_2 _ Hdir); by apply loops_not_directory ];
    cbn [negb];
    (destruct (children (snd current)) as [ch|] eqn:Hch;
     [|by apply loops_no_children]);
    (destruct (ch !! part) as [child|] eqn:Hchild;
     [|by eapply loops_no_child]);
    (destruct (followedTarget child follow) as [t|] eqn:Ht;
     [|by eapply loops_descend]).
  - cbn [walkBudget]. eapply loops_link_capped; eauto. lia.
  - pose proof (IHb (S depth) ltac:(lia) true
                  (_resolveParts t ("/" +:+ JS.join "/" done)) [] ([], root)) as Hcall.
    change (walkLoop (walkBudget b root true) true []
              (_resolveParts t ("/" +:+ JS.join "/" done)) ([], root))
      with (walkBudget (S b) root true (_resolveParts t ("/" +:+ JS.join "/" done)))
      in Hcall.
    destruct (walkBudget (S b) root true _) as [targetNode|].
    + eapply loops_link_followed; eauto. lia.
    + eapply loops_link_dead; eauto. lia.
Qed.

(** A run of the loop returns what the function computes. *)
Lemma loops_deterministic (root : FSNode) (depth : nat) (follow : bool)
    (done todo : list string) (current : Ref) (r : option Ref) :
  Loops root depth follow done todo current r →
  ∀ b : nat, (depth + b = 20)%nat →
    r = walkLoop (walkBudget b root true) follow done todo current.
Proof.
  induction 1 as
    [ depth follow done current
    | depth follow done part todo current Hdir
    | depth follow done part todo current Hdir Hch
    | depth follow done part todo current ch Hdir Hch Hchild
    | depth follow done part todo current ch child t Hdir Hch Hchild Ht Hcap
    | depth follow done part todo current ch child t Hdir Hch Hchild Ht Hcap _ IHcall
    | depth follow done part todo current ch child t targetNode r
        Hdir Hch Hchild Ht Hcap _ IHcall _ IHrest
    | depth follow done part todo current ch child r Hdir Hch Hchild Ht _ IHrest ];
    intros b Hb; cbn [walkLoop]; try done.
  - by rewrite (bool_decide_eq_false_2 _ Hdir).
  - by rewrite (bool_decide_eq_true_2 _ Hdir), Hch.
  - by rewrite (bool_decide_eq_true_2 _ Hdir), Hch, Hchild.
  - rewrite (bool_decide_eq_true_2 _ Hdir), Hch, Hchild, Ht. cbn [negb].
    by replace b with O by lia.
  - rewrite (bool_decide_eq_true_2 _ Hdir), Hch, Hchild, Ht. cbn [negb].
    destruct b as [|b]; [done|]. rewrite walkBudget_S.
    by rewrite <- (IHcall b ltac:(lia)).
  - rewrite (bool_decide_eq_true_2 _ Hdir), Hch, Hchild, Ht. cbn [negb].
    destruct b as [|b]; [lia|]. rewrite walkBudget_S.
    rewrite <- (IHcall b ltac:(lia)). by apply IHrest.
  - rewrite (bool_decide_eq_true_2 _ Hdir), Hch, Hchild, Ht. cbn [negb].
    by apply IHrest.
Qed.

Lemma walks_total (root : FSNode) (parts : list string) (follow : bool) (depth : nat) :
  Walks root parts follow depth (_walk root parts follow depth).
Proof.
  destruct (decide (20 < depth)%nat) as [Hcap|Hin].
  - rewrite walk_capped by done. by apply walks_capped.
  - apply walks_loop; [lia|]. unfold _walk.
    replace (21 - depth)%nat with (S (20 - depth)) by lia. cbn [walkBudget].
    apply loops_total. lia.
Qed.

Lemma walks_deterministic (root : FSNode) (parts : list string) (follow : bool)
    (depth : nat) (r : option Ref) :
  Walks root parts follow depth r → r = _walk root parts follow depth.
Proof.
  intros [Hcap | r' Hin Hloop].
  - by rewrite walk_capped.
  - unfold _walk. replace (21 - depth)%nat with (S (20 - depth)) by lia.
    cbn [walkBudget]. eapply loops_deterministic; [done | lia].
Qed.

(** More hops allowed never change a resolution that succeeds. *)
Lemma walkLoop_mono (recur recur' : list string → option Ref) (follow : bool) :
  (∀ targetParts r, recur targetParts = Some r → recur' targetParts = Some r) →
  ∀ (todo done : list string) (current : Ref) (r : Ref),
    walkLoop recur follow done todo current = Some r →
    walkLoop recur' follow done todo current = Some r.
Proof.
  intros Hrec. induction todo as [|part todo IH]; intros seen current r.
  { by intros H. }
  cbn [walkLoop]. destruct (negb _); [done|].
  destruct (children (snd current)) as [ch|]; [|done].
  destruct (ch !! part) as [child|]; [|done].
  destruct (followedTarget child follow) as [t|]; [|apply IH].
  destruct (recur _) as [targetNode|] eqn:Hcall; [|done].
  rewrite (Hrec _ _ Hcall). apply IH.
Qed.

Lemma walkBudget_mono (root : FSNode) (b : nat) :
  ∀ (b' : nat) (follow : bool) (parts : list string) (r : Ref),
    (b ≤ b')%nat →
    walkBudget b root follow parts = Some r → walkBudget b' root follow parts = Some r.
Proof.
  induction b as [|b IH]; intros b' follow parts r Hle; [done|].
  destruct b' as [|b']; [lia|]. rewrite !walkBudget_S.
  apply walkLoop_mono. intros targetParts r'. apply IH. lia.
Qed.

Lemma walkLoop_budget_agree (root : FSNode) (b1 b2 : nat) (follow : bool)
    (done todo : list string) (current r1 r2 : Ref) :
  walkLoop (walkBudget b1 root true) follow done todo current = Some r1 →
  walkLoop (walkBudget b2 root true) follow done todo current = Some r2 →
  r1 = r2.
Proof.
  intros H1 H2.
  apply (walkLoop_mono _ (walkBudget (Nat.max b1 b2) root true)) in H1;
    [|intros tp r'; apply walkBudget_mono; lia].
  apply (walkLoop_mono _ (walkBudget (Nat.max b1 b2) root true)) in H2;
    [|intros tp r'; apply walkBudget_mono; lia].
  congruence.
Qed.

(** A chain of [n] nested hops defeats every call that has [n] or fewer
    levels left. *)
Lemma nest_capped (root : FSNode) (n : nat) (parts : list string) :
  Nest root n parts →
  ∀ b : nat, (b ≤ n)%nat → walkBudget b root true parts = None.
Proof.
  induction 1 as [parts | n pre part post budget current ch child t
                            Hreach Hdir Hch Hchild Ht _ IH];
    intros b Hb.
  - by replace b with O by lia.
  - destruct b as [|b]; [done|]. rewrite walkBudget_S, walkLoop_app.
    destruct (walkLoop (walkBudget b root true) true [] pre ([], root))
      as [current'|] eqn:Hpre; [|done].
    rewrite (walkLoop_budget_agree _ _ _ _ _ _ _ _ _ Hpre Hreach).
    cbn [walkLoop app]. rewrite (bool_decide_eq_true_2 _ Hdir), Hch, Hchild, Ht.
    cbn [negb]. by rewrite IH by lia.
Qed.

Lemma selfLink_nest (n : nat) : Nest selfLinkRoot n ["loop"].
Proof.
  induction n as [|n IH]; [constructor|].
  eapply (nest_S selfLinkRoot n [] "loop" [] 0); [reflexivity..|exact IH].
Qed.

(** Links to the root met one after the other: each is resolved by a
    call one level down that returns the root at once, and the loop goes
    on at the level it runs at. *)
Lemma walkLoop_root_links (root : FSNode) (ch : gmap string FSNode)
    (r f : string) (link node : FSNode) (b : nat) :
  type root = directory → children root = Some ch →
  ch !! r = Some link → followedTarget link true = Some "/" →
  ch !! f = Some node → followedTarget node true = None →
  ∀ (n : nat) (done : list string),
    walkLoop (walkBudget (S b) root true) true done (replicate n r ++ [f]) ([], root)
    = Some ([f], node).
Proof.
  intros Hdir Hch Hr Hlink Hf Hnode. induction n as [|n IH]; intros done.
  - cbn [replicate app walkLoop fst snd].
    by rewrite (bool_decide_eq_true_2 _ Hdir), Hch, Hf, Hnode.
  - cbn [replicate app walkLoop fst snd].
    rewrite (bool_decide_eq_true_2 _ Hdir), Hch, Hr, Hlink. cbn [negb].
    change (_resolveParts "/" ("/" +:+ JS.join "/" done)) with (@nil string).
    rewrite walkBudget_S. cbn [walkLoop]. apply IH.
Qed.

(** C7 as stated fails: the cap does not count the symlinks a resolution
    follows.  The path below goes through the link [r] twenty-five times,
    one hop after the other, and resolves to the file. *)
Lemma sequential_links_are_not_capped :
  _resolveParts "/r/r/r/r/r/r/r/r/r/r/r/r/r/r/r/r/r/r/r/r/r/r/r/r/r/f" "/"
  = replicate 25 "r" ++ ["f"]
  ∧ followedTarget
      {| name := "r"; type := symlink; content := None; children := None;
         target := Some "/"; permissions := None; modified := None |} true
    = Some "/"
  ∧ resolve rootLinkTree "/r/r/r/r/r/r/r/r/r/r/r/r/r/r/r/r/r/r/r/r/r/r/r/r/r/f" "/"
    = Some (newFile "f" "data" 0).
Proof. split; [reflexivity|]. split; [reflexivity|]. by vm_compute. Qed.

(** C7, amended.  [resolve] is total, and the cap is on nesting.  Every
    call of [_walk] returns, and returns one value; a call entered more
    than twenty levels deep returns [null], whatever it is asked to
    resolve; a resolution that takes a chain of more than twenty nested
    symlink hops (a symlink whose target chain comes back to itself takes
    chains of every length) makes [resolve] return [null]; and symlinks
    met one after the other along a path are not counted together: through
    a link [r] to the root, [r/r/.../r/f] resolves to [f] however many
    times [r] is written. *)
Theorem resolve_is_total_and_capped (root : FSNode) :
  (∀ parts follow depth,
     Walks root parts follow depth (_walk root parts follow depth)
     ∧ ∀ r, Walks root parts follow depth r → r = _walk root parts follow depth)
  ∧ (∀ parts follow depth, (20 < depth)%nat → _walk root parts follow depth = None)
  ∧ (∀ path cwd, Nest root 21 (_resolveParts path cwd) → resolve root path cwd = None)
  ∧ (∀ ch r f link node n,
       type root = directory → children root = Some ch →
       ch !! r = Some link → followedTarget link true = Some "/" →
       ch !! f = Some node → followedTarget node true = None →
       _walk root (replicate n r ++ [f]) true 0 = Some ([f], node)).
Proof.
  split; [|split; [|split]].
  - intros parts follow depth. split; [apply walks_total | apply walks_deterministic].
  - apply walk_capped.
  - intros path cwd Hnest. unfold resolve, resolveRef, _walk.
    by rewrite (nest_capped root 21 _ Hnest) by lia.
  - intros ch r f link node n Hdir Hch Hr Hlink Hf Hnode.
    unfold _walk. cbn [Nat.sub]. rewrite walkBudget_S.
    by apply (walkLoop_root_links root ch r f link node).
Qed.

Lemma resolve_is_total_and_capped_witness :
  Nest selfLinkRoot 21 (_resolveParts "/loop" "/")
  ∧ resolve selfLinkRoot "/loop" "/" = None
  ∧ _walk selfLinkRoot ["loop"] true 21 = None
  ∧ _walk rootLinkTree (replicate 25 "r" ++ ["f"]) true 0
    = Some (["f"], newFile "f" "data" 0).
Proof.
  destruct (resolve_is_total_and_capped selfLinkRoot) as (_ & Hcap & Hnest & _).
  destruct (resolve_is_total_and_capped rootLinkTree) as (_ & _ & _ & Hseq).
  split; [apply selfLink_nest|].
  split; [apply Hnest, selfLink_nest|].
  split; [apply Hcap; lia|].
  eapply (Hseq _ "r" "f"); reflexivity.
Defined.

End WalkFacts.

(** ** The virtual file system: paths *)

Module PathFacts.

Import VirtualFileSystem.

Lemma split_noSlash (s : string) : noSlash s → JS.split "/" s = [s].
Proof.
  unfold noSlash. induction s as [|c s IH]; [done|]. cbn [JS.chars list_ascii_of_string forallb].
  intros [Hc Hs]%andb_true_iff. cbn [JS.split]. apply negb_true_iff in Hc. rewrite Hc.
  by rewrite (IH Hs).
Qed.

Lemma split_app_slash (w rest : string) :
  noSlash w → JS.split "/" (w +:+ String "/" rest) = w :: JS.split "/" rest.
Proof.
  unfold noSlash. induction w as [|c w IH]; [done|].
  cbn [JS.chars list_ascii_of_string forallb].
  intros [Hc Hw]%andb_true_iff. apply negb_true_iff in Hc.
  change (String c w +:+ String "/" rest) with (String c (w +:+ String "/" rest)).
  cbn [JS.split]. by rewrite Hc, (IH Hw).
Qed.

Lemma split_pieces (s : string) : Forall noSlash (JS.split "/" s).
Proof.
  induction s as [|c s IH]; [by repeat constructor|]. cbn [JS.split].
  destruct (Ascii.eqb c "/") eqn:Hc; [by constructor|].
  destruct (JS.split "/" s) as [|w ws]; [by repeat constructor; unfold noSlash; cbn; rewrite Hc|].
  apply Forall_cons in IH as [Hw Hws]. constructor; [|done].
  unfold noSlash in *. cbn [JS.chars list_ascii_of_string forallb]. by rewrite Hc.
Qed.

Lemma isName_spec (p : string) : isName p = true ↔ JS.truthy p = true ∧ noSlash p.
Proof. unfold isName, noSlash. by rewrite andb_true_iff. Qed.

Lemma pathParts_names (s : string) : Forall (fun p => isName p = true) (pathParts s).
Proof.
  unfold pathParts, JS.filter_truthy. apply Forall_forall. intros p Hp.
  apply list_elem_of_In, filter_In in Hp as [Hin Htruthy].
  apply isName_spec. split; [done|].
  pose proof (split_pieces s) as Hall. rewrite Forall_forall in Hall.
  by apply Hall, list_elem_of_In.
Qed.

Lemma split_join (parts : list string) :
  Forall noSlash parts → parts ≠ [] → JS.split "/" (JS.join "/" parts) = parts.
Proof.
  induction 1 as [|p parts Hp Hparts IH]; [done|]. intros _.
  destruct parts as [|q parts]; [by apply split_noSlash|].
  change (JS.join "/" (p :: q :: parts)) with (p +:+ String "/" (JS.join "/" (q :: parts))).
  rewrite split_app_slash by done. by rewrite IH.
Qed.

Lemma filter_truthy_names (parts : list string) :
  Forall (fun p => isName p = true) parts → JS.filter_truthy parts = parts.
Proof.
  induction 1 as [|p parts Hp _ IH]; [done|]. unfold JS.filter_truthy in *. cbn [List.filter].
  apply isName_spec in Hp as [-> _]. by rewrite IH.
Qed.

(** Splitting the rendering of a list of names gives the names back. *)
Lemma pathParts_join (parts : list string) :
  Forall (fun p => isName p = true) parts → pathParts ("/" +:+ JS.join "/" parts) = parts.
Proof.
  intros Hnames. unfold pathParts.
  change ("/" +:+ JS.join "/" parts) with (String "/" (JS.join "/" parts)).
  cbn [JS.split Ascii.eqb Bool.eqb]. unfold JS.filter_truthy. cbn [List.filter JS.truthy].
  destruct parts as [|p parts]; [done|].
  rewrite split_join; [by apply filter_truthy_names| |done].
  eapply Forall_impl; [exact Hnames|]. by intros q [_ ?]%isName_spec.
Qed.

Lemma pop_Forall {A} (P : A → Prop) (l : list A) :
  Forall P l → Forall P (removelast l).
Proof.
  induction 1 as [|x l Hx Hl IH]; [done|]. cbn [removelast].
  destruct l; [done | by constructor].
Qed.

Lemma resolvePart_Forall (P : string → Prop) (resolved : list string) (part : string) :
  Forall P resolved → P part → Forall P (resolvePart resolved part).
Proof.
  intros Hres Hpart. unfold resolvePart.
  destruct (String.eqb part "."); [done|].
  destruct (String.eqb part ".."); [by apply pop_Forall|].
  apply Forall_app. by repeat constructor.
Qed.

Lemma fold_resolvePart_Forall (P : string → Prop) (inputs base : list string) :
  Forall P base →
  Forall (fun p => String.eqb p "." = false → String.eqb p ".." = false → P p) inputs →
  Forall P (fold_left resolvePart inputs base).
Proof.
  revert base. induction inputs as [|part inputs IH]; intros base Hbase Hin; [done|].
  apply Forall_cons in Hin as [Hpart Hin]. cbn [fold_left]. apply IH; [|done].
  unfold resolvePart.
  destruct (String.eqb part ".") eqn:E1; [done|].
  destruct (String.eqb part "..") eqn:E2; [by apply pop_Forall|].
  apply Forall_app. split; [done|]. repeat constructor. by apply Hpart.
Qed.

Lemma resolveParts_names (path cwd : string) :
  Forall (fun p => isName p = true) (_resolveParts path cwd).
Proof.
  unfold _resolveParts. apply fold_resolvePart_Forall.
  - destruct (JS.startsWith path "/"); [constructor | apply pathParts_names].
  - eapply Forall_impl; [apply pathParts_names|]. by intros.
Qed.

Lemma resolveParts_plain (path cwd : string) :
  forallb isPlain (pathParts cwd) = true →
  Forall (fun p => isPlain p = true) (_resolveParts path cwd).
Proof.
  intros Hcwd. unfold _resolveParts. apply fold_resolvePart_Forall.
  - destruct (JS.startsWith path "/"); [constructor|].
    apply Forall_forall. intros x Hx.
    rewrite forallb_forall in Hcwd. by apply Hcwd, list_elem_of_In.
  - apply Forall_forall. intros p _ E1 E2. unfold isPlain. by rewrite E1, E2.
Qed.

Lemma fold_resolvePart_plain (parts base : list string) :
  Forall (fun p => isPlain p = true) parts →
  fold_left resolvePart parts base = base ++ parts.
Proof.
  revert base. induction parts as [|p parts IH]; intros base Hplain.
  - by rewrite app_nil_r.
  - apply Forall_cons in Hplain as [Hp Hparts]. cbn [fold_left].
    unfold isPlain in Hp. apply andb_true_iff in Hp as [E1%negb_true_iff E2%negb_true_iff].
    unfold resolvePart at 2. rewrite E1, E2, IH by done. by rewrite <- app_assoc.
Qed.

(** Resolving the rendering of plain names from any working directory
    gives the names back. *)
Lemma resolveParts_join (parts : list string) (cwd : string) :
  Forall (fun p => isName p = true) parts →
  Forall (fun p => isPlain p = true) parts →
  _resolveParts ("/" +:+ JS.join "/" parts) cwd = parts.
Proof.
  intros Hnames Hplain. unfold _resolveParts.
  rewrite pathParts_join by done.
  change (JS.startsWith ("/" +:+ JS.join "/" parts) "/") with true. cbv iota.
  by rewrite fold_resolvePart_plain.
Qed.

Lemma last_pop (l : list string) (x : string) :
  last l = Some x → l = pop l ++ [x].
Proof.
  intros [l' ->]%last_Some. unfold pop. by rewrite removelast_last.
Qed.

End PathFacts.

(** ** The virtual file system: trees under mutation *)

Module TreeFacts.

Import VirtualFileSystem.

Lemma nodeAt_app (n : FSNode) (a b : Loc) :
  nodeAt n (a ++ b) = nodeAt n a ≫= fun m => nodeAt m b.
Proof.
  revert n. induction a as [|k a IH]; intros n; [done|]. cbn [app nodeAt].
  destruct (bool_decide _); [|done].
  destruct (children n) as [ch|]; [|done].
  destruct (ch !! k) as [c|]; [apply IH | done].
Qed.

Lemma nodeAt_snoc (n : FSNode) (loc : Loc) (k : string) (m : FSNode)
    (ch : gmap string FSNode) :
  nodeAt n loc = Some m → type m = directory → children m = Some ch →
  nodeAt n (loc ++ [k]) = ch !! k.
Proof.
  intros Hm Hdir Hch. rewrite nodeAt_app, Hm. cbn [mbind option_bind nodeAt].
  rewrite (bool_decide_eq_true_2 _ Hdir), Hch. by destruct (ch !! k).
Qed.

Lemma nodeAt_below_file (n : FSNode) (loc rest : Loc) (f : FSNode) :
  nodeAt n loc = Some f → type f = file → rest ≠ [] → nodeAt n (loc ++ rest) = None.
Proof.
  intros Hf Hfile Hrest. rewrite nodeAt_app, Hf. cbn [mbind option_bind].
  destruct rest as [|k rest]; [done|]. cbn [nodeAt].
  rewrite bool_decide_eq_false_2; [done|]. by rewrite Hfile.
Qed.

(** Walks return references that point into the tree. *)
Lemma walkLoop_refOk (root : FSNode) (recur : list string → option Ref) (follow : bool) :
  (∀ targetParts r, recur targetParts = Some r → refOk root r) →
  ∀ (todo seen : list string) (current r : Ref),
    refOk root current →
    walkLoop recur follow seen todo current = Some r → refOk root r.
Proof.
  intros Hrec. induction todo as [|part todo IH]; intros seen current r Hcur.
  { cbn [walkLoop]. by intros [= <-]. }
  cbn [walkLoop].
  destruct (decide (type (snd current) = directory)) as [Hdir|Hdir];
    [rewrite (bool_decide_eq_true_2 _ Hdir) | by rewrite (bool_decide_eq_false_2 _ Hdir)].
  cbn [negb].
  destruct (children (snd current)) as [ch|] eqn:Hch; [|done].
  destruct (ch !! part) as [child|] eqn:Hchild; [|done].
  destruct (followedTarget child follow) as [t|].
  - destruct (recur _) as [targetNode|] eqn:Hcall; [|done].
    apply IH. by eapply Hrec.
  - apply IH. unfold refOk in *. cbn [fst snd].
    by rewrite (nodeAt_snoc _ _ _ _ _ Hcur Hdir Hch).
Qed.

Lemma walkBudget_refOk (root : FSNode) (b : nat) :
  ∀ (follow : bool) (parts : list string) (r : Ref),
    walkBudget b root follow parts = Some r → refOk root r.
Proof.
  induction b as [|b IH]; intros follow parts r; [done|].
  rewrite WalkFacts.walkBudget_S. apply walkLoop_refOk; [apply IH | done].
Qed.

Lemma shallowEq_refl (a : FSNode) : shallowEq a a.
Proof. by repeat split. Qed.

Lemma shallowEq_sym (a b : FSNode) : shallowEq a b → shallowEq b a.
Proof. intros (? & ? & ?). unfold shallowEq. intuition congruence. Qed.

Lemma agree_sym (X Y : FSNode) (loc : Loc) : agree X Y loc → agree Y X loc.
Proof.
  unfold agree. destruct (nodeAt X loc), (nodeAt Y loc); try done. apply shallowEq_sym.
Qed.

Lemma agree_same (X Y : FSNode) (loc : Loc) :
  nodeAt X loc = nodeAt Y loc → agree X Y loc.
Proof.
  unfold agree. intros ->. destruct (nodeAt Y loc); [apply shallowEq_refl | done].
Qed.

Lemma followedTarget_shallowEq (a b : FSNode) (follow : bool) :
  shallowEq a b → followedTarget a follow = followedTarget b follow.
Proof. intros (Hty & Htg & _). unfold followedTarget. by rewrite Hty, Htg. Qed.

Lemma setChild_editsEntry (k : string) (c : FSNode) : editsEntry k (setChild k c).
Proof.
  intros n. unfold setChild. destruct (children n) as [ch|] eqn:Hch.
  - cbn. repeat split. eexists. split; [done|]. intros j Hj. by rewrite lookup_insert_ne.
  - done.
Qed.

Lemma deleteChild_editsEntry (k : string) : editsEntry k (deleteChild k).
Proof.
  intros n. unfold deleteChild. destruct (children n) as [ch|] eqn:Hch.
  - cbn. repeat split. eexists. split; [done|]. intros j Hj. by rewrite lookup_delete_ne.
  - done.
Qed.

(** A mutation of the entry [k] of the directory at [L] is invisible to
    a walk everywhere but at or below that entry. *)
Lemma agree_updateAt (k : string) (f : FSNode → FSNode) :
  editsEntry k f →
  ∀ (L : Loc) (X : FSNode) (loc : Loc),
    ¬ (L ++ [k]) `prefix_of` loc → agree X (updateAt L f X) loc.
Proof.
  intros Hf. induction L as [|l L IH]; intros X loc Hoff.
  - cbn [updateAt app] in *. destruct (Hf X) as (Hty & Htg & Hch).
    destruct loc as [|j more].
    + unfold agree. cbn [nodeAt]. repeat split; [done..| |].
      * intros HX. rewrite HX in Hch. by rewrite Hch.
      * intros HfX. destruct (children X); [|done]. destruct Hch as (? & ? & _). congruence.
    + apply agree_same. cbn [nodeAt]. rewrite Hty.
      destruct (bool_decide _); [|done].
      destruct (children X) as [ch|] eqn:HchX; [|by rewrite Hch, HchX].
      destruct Hch as (ch' & -> & Hsame).
      rewrite Hsame; [done|]. intros ->. apply Hoff. by apply prefix_cons, prefix_nil.
  - cbn [updateAt]. destruct (children X) as [ch|] eqn:HchX; [|by apply agree_same].
    destruct loc as [|j more].
    + unfold agree. cbn [nodeAt]. repeat split; cbn; by rewrite ?HchX.
    + unfold agree. cbn [nodeAt type children]. rewrite HchX.
      destruct (bool_decide _); [|done].
      destruct (decide (j = l)) as [->|Hne].
      * rewrite lookup_alter_eq. destruct (ch !! l) as [c|]; [|done]. cbn.
        apply (IH c more). intros Hpre. apply Hoff. cbn [app]. by apply prefix_cons.
      * rewrite lookup_alter_ne by done.
        destruct (ch !! j) as [c|]; [|done].
        destruct (nodeAt c more); [apply shallowEq_refl | done].
Qed.

(** The mutated node sits where the original did. *)
Lemma nodeAt_updateAt_here (f : FSNode → FSNode) :
  ∀ (L : Loc) (X parent : FSNode),
    nodeAt X L = Some parent → nodeAt (updateAt L f X) L = Some (f parent).
Proof.
  induction L as [|l L IH]; intros X parent.
  - cbn. by intros [= ->].
  - cbn [nodeAt updateAt].
    destruct (bool_decide (type X = directory)) eqn:Hdir; [|done].
    destruct (children X) as [ch|] eqn:HchX; [|done].
    destruct (ch !! l) as [c|] eqn:Hc; [|done].
    intros Hparent. cbn [nodeAt type children]. rewrite Hdir, lookup_alter_eq, Hc. cbn.
    by apply IH.
Qed.

Lemma prefix_snoc_cases (E loc : Loc) (part : string) :
  E `prefix_of` (loc ++ [part]) → E = loc ++ [part] ∨ E `prefix_of` loc.
Proof.
  intros [rest Hrest]. destruct rest as [|x rest _] using rev_ind.
  - left. by rewrite app_nil_r in Hrest.
  - right. rewrite app_assoc in Hrest. apply app_inj_tail in Hrest as [-> _].
    by exists rest.
Qed.

(** *** Walking two trees that differ in one entry *)

Section Simulation.

Variables (X Y : FSNode) (E : Loc).

Hypothesis Hagree : ∀ loc, ¬ E `prefix_of` loc → agree X Y loc.

Hypothesis Hentry :
  nodeAt X E = None
  ∨ ∃ fX fY, nodeAt X E = Some fX ∧ nodeAt Y E = Some fY
             ∧ type fX = file ∧ type fY = file.

(** A directory of [X] a walk stands in is not at or below the entry. *)
Lemma directory_off_entry (loc : Loc) (nX : FSNode) :
  nodeAt X loc = Some nX → type nX = directory → ¬ E `prefix_of` loc.
Proof using Hentry.
  intros HnX Hdir [rest ->].
  destruct Hentry as [Hnone | (fX & fY & HfX & _ & Hfile & _)].
  - by rewrite nodeAt_app, Hnone in HnX.
  - destruct rest as [|j rest].
    + rewrite app_nil_r in HnX. congruence.
    + by rewrite (nodeAt_below_file X E (j :: rest) fX HfX Hfile) in HnX.
Qed.

Lemma sim_loop (recX recY : list string → option Ref) (follow : bool) :
  (∀ targetParts r, recX targetParts = Some r → refOk X r) →
  (∀ targetParts r, recY targetParts = Some r → refOk Y r) →
  (∀ targetParts r, recX targetParts = Some r →
     ∃ nY, recY targetParts = Some (fst r, nY)) →
  ∀ (todo seen : list string) (loc : Loc) (nX nY : FSNode) (r : Ref),
    nodeAt X loc = Some nX → nodeAt Y loc = Some nY →
    walkLoop recX follow seen todo (loc, nX) = Some r →
    ∃ nY', walkLoop recY follow seen todo (loc, nY) = Some (fst r, nY').
Proof using Hagree Hentry.
  intros HokX HokY Hrec.
  induction todo as [|part todo IH]; intros seen loc nX nY r HnX HnY.
  { cbn [walkLoop]. intros [= <-]. by exists nY. }
  cbn [walkLoop fst snd].
  destruct (decide (type nX = directory)) as [Hdir|Hdir];
    [rewrite (bool_decide_eq_true_2 _ Hdir) | by rewrite (bool_decide_eq_false_2 _ Hdir)].
  cbn [negb].
  destruct (children nX) as [chX|] eqn:HchX; [|done].
  destruct (chX !! part) as [cX|] eqn:HcX; [|done].
  pose proof (directory_off_entry loc nX HnX Hdir) as Hoff.
  pose proof (Hagree loc Hoff) as Hloc. unfold agree in Hloc.
  rewrite HnX, HnY in Hloc. destruct Hloc as (Hty & _ & Hch).
  assert (type nY = directory) as HdirY by congruence.
  destruct (children nY) as [chY|] eqn:HchY;
    [|by assert (children nX = None) by tauto; congruence].
  rewrite (bool_decide_eq_true_2 _ HdirY). cbn [negb].
  assert (nodeAt X (loc ++ [part]) = Some cX) as HcX'
    by (by rewrite (nodeAt_snoc X loc part nX chX)).
  assert (nodeAt Y (loc ++ [part]) = chY !! part) as HcY'
    by (by rewrite (nodeAt_snoc Y loc part nY chY)).
  destruct (decide (E = loc ++ [part])) as [HE|HE].
  - destruct Hentry as [Hnone | (fX & fY & HfX & HfY & HfileX & HfileY)];
      [congruence|].
    rewrite HE, HcX' in HfX. injection HfX as <-.
    rewrite HE, HcY' in HfY. rewrite HfY.
    assert (followedTarget cX follow = None) as ->
      by (unfold followedTarget; by rewrite HfileX).
    assert (followedTarget fY follow = None) as ->
      by (unfold followedTarget; by rewrite HfileY).
    apply IH; [done | by rewrite HcY'].
  - assert (¬ E `prefix_of` (loc ++ [part])) as Hoff'.
    { intros [?|?]%prefix_snoc_cases; done. }
    pose proof (Hagree _ Hoff') as Hchild. unfold agree in Hchild.
    rewrite HcX', HcY' in Hchild.
    destruct (chY !! part) as [cY|] eqn:HcY; [|done].
    rewrite <- (followedTarget_shallowEq cX cY follow Hchild).
    destruct (followedTarget cX follow) as [t|].
    + destruct (recX _) as [targetNode|] eqn:Hcall; [|done].
      destruct (Hrec _ _ Hcall) as [nT HcallY]. rewrite HcallY.
      pose proof (HokX _ _ Hcall) as HtX. pose proof (HokY _ _ HcallY) as HtY.
      destruct targetNode as [tloc tn]. by apply IH.
    + by apply IH.
Qed.

(** A resolution that succeeds in [X] succeeds in [Y], at the same
    location. *)
Lemma sim_walk (b : nat) :
  ∀ (follow : bool) (parts : list string) (r : Ref),
    walkBudget b X follow parts = Some r →
    ∃ nY, walkBudget b Y follow parts = Some (fst r, nY).
Proof using Hagree Hentry.
  induction b as [|b IH]; intros follow parts r; [done|].
  rewrite !WalkFacts.walkBudget_S.
  apply sim_loop; try done; intros tp r'; apply walkBudget_refOk || apply IH.
Qed.

End Simulation.

End TreeFacts.

(** ** The virtual file system: writes and removals *)

Module WriteFacts.

Import VirtualFileSystem.

Lemma pathParts_resolvePath (path cwd : string) :
  pathParts (resolvePath path cwd) = _resolveParts path cwd.
Proof. unfold resolvePath. apply PathFacts.pathParts_join, PathFacts.resolveParts_names. Qed.

(** The parent that [writeFile] and [rm] resolve is the walk over all the
    components of the path but the last. *)
Lemma resolveRef_parent (root : FSNode) (path cwd : string) :
  forallb isPlain (pathParts cwd) = true →
  resolveRef root (parentPathOf path cwd) "/"
  = walkBudget 21 root true (pop (_resolveParts path cwd)).
Proof.
  intros Hcwd. unfold resolveRef, parentPathOf, _walk.
  rewrite pathParts_resolvePath.
  rewrite PathFacts.resolveParts_join; [done | |].
  - apply PathFacts.pop_Forall, PathFacts.resolveParts_names.
  - by apply PathFacts.pop_Forall, PathFacts.resolveParts_plain.
Qed.

Lemma walk_snoc (root : FSNode) (parts : list string) (k : string) :
  walkBudget 21 root true (parts ++ [k])
  = match walkBudget 21 root true parts with
    | Some c => walkLoop (walkBudget 20 root true) true parts [k] c
    | None => None
    end.
Proof. by rewrite !WalkFacts.walkBudget_S, WalkFacts.walkLoop_app. Qed.

(** The last step of a walk that succeeds: the parent is a directory
    that holds the last component, and what it holds is not a directory
    unless the walk ends on it. *)
Lemma walk_snoc_inv (root : FSNode) (parts : list string) (k : string) (r : Ref) :
  walkBudget 21 root true (parts ++ [k]) = Some r →
  ∃ loc parent ch child,
    walkBudget 21 root true parts = Some (loc, parent)
    ∧ type parent = directory ∧ children parent = Some ch ∧ ch !! k = Some child
    ∧ (type child = symlink ∨ r = (loc ++ [k], child)).
Proof.
  rewrite walk_snoc.
  destruct (walkBudget 21 root true parts) as [[loc parent]|]; [|done].
  cbn [walkLoop fst snd].
  destruct (decide (type parent = directory)) as [Hdir|Hdir];
    [rewrite (bool_decide_eq_true_2 _ Hdir) | by rewrite (bool_decide_eq_false_2 _ Hdir)].
  cbn [negb].
  destruct (children parent) as [ch|] eqn:Hch; [|done].
  destruct (ch !! k) as [child|] eqn:Hchild; [|done].
  intros Hr. exists loc, parent, ch, child. repeat split; try done.
  unfold followedTarget in Hr.
  destruct (decide (type child = symlink)) as [Hlink|Hlink]; [by left|].
  rewrite (bool_decide_eq_false_2 _ Hlink) in Hr. cbn in Hr. right. congruence.
Qed.

Lemma resolve_walk (root : FSNode) (path cwd : string) :
  resolve root path cwd = snd <$> walkBudget 21 root true (_resolveParts path cwd).
Proof. reflexivity. Qed.

(** A path whose parent does not resolve does not resolve. *)
Lemma resolve_without_parent (root : FSNode) (path cwd : string) :
  forallb isPlain (pathParts cwd) = true →
  resolve root (parentPathOf path cwd) "/" = None →
  resolve root path cwd = None.
Proof.
  intros Hcwd. unfold resolve at 1. rewrite resolveRef_parent by done.
  rewrite resolve_walk.
  destruct (last (_resolveParts path cwd)) as [k|] eqn:Hlast.
  - rewrite (PathFacts.last_pop _ _ Hlast) at 2. rewrite walk_snoc.
    by destruct (walkBudget 21 root true (pop _)).
  - apply last_None in Hlast. rewrite Hlast. done.
Qed.

(** C4, as stated, fails: on the empty file system the parent of [/a/b]
    is missing, [writeFile] returns [false] and changes nothing, and the
    path neither reads back nor exists. *)
Lemma write_without_parent_reads_nothing :
  writeFile emptyRoot "/a/b" "x" "/" 0 = Ret (false, emptyRoot)
  ∧ readFile emptyRoot "/a/b" "/" ≠ Some "x"
  ∧ exists_ emptyRoot "/a/b" "/" = false.
Proof. by vm_compute. Qed.

(** C4, amended.  When the parent of [p] resolves to a directory and the
    entry that [p] names in it is absent or a regular file (and the working
    directory has no [.] or [..] component), [write_file(p, c)] succeeds
    and afterwards [read_file(p)] returns exactly [c] and [exists(p)] is
    true. *)
Theorem write_then_read (root : FSNode) (path content cwd : string) (now : Z) :
  writableSlot root path cwd →
  ∃ root' : FSNode,
    writeFile root path content cwd now = Ret (true, root')
    ∧ readFile root' path cwd = Some content
    ∧ exists_ root' path cwd = true.
Proof.
  intros (Hcwd & fileName & loc & parent & ch & Hlast & Hparent & Hdir & Hch & Hslot).
  set (new := newFile fileName content now).
  set (Y := updateAt loc (setChild fileName new) root).
  exists Y.
  assert (writeFile root path content cwd now = Ret (true, Y)) as Hwrite.
  { unfold writeFile. rewrite Hparent, (bool_decide_eq_true_2 _ Hdir), Hch.
    cbn [negb]. rewrite pathParts_resolvePath, Hlast.
    rewrite bool_decide_eq_false_2; [done|].
    destruct Hslot as [-> | (f & -> & Hf)]; cbn; congruence. }
  split; [exact Hwrite|].
  rewrite resolveRef_parent in Hparent by done.
  pose proof (TreeFacts.walkBudget_refOk _ _ _ _ _ Hparent) as HokX.
  unfold refOk in HokX. cbn [fst snd] in HokX.
  assert (nodeAt Y loc = Some (setChild fileName new parent)) as HparentY
    by (by apply TreeFacts.nodeAt_updateAt_here).
  assert (type (setChild fileName new parent) = directory
          ∧ children (setChild fileName new parent) = Some (<[fileName := new]> ch))
    as [HdirY HchY] by (unfold setChild; by rewrite Hch).
  destruct (TreeFacts.sim_walk root Y (loc ++ [fileName])) with
    (b := 21%nat) (follow := true) (parts := pop (_resolveParts path cwd))
    (r := (loc, parent)) as [nY HwalkY]; [| |done|].
  { intros l Hoff.
    apply (TreeFacts.agree_updateAt fileName); [apply TreeFacts.setChild_editsEntry | done]. }
  { rewrite (TreeFacts.nodeAt_snoc root loc fileName parent ch) by done.
    rewrite (TreeFacts.nodeAt_snoc Y loc fileName _ _ HparentY HdirY HchY).
    rewrite lookup_insert_eq.
    destruct Hslot as [-> | (f & -> & Hf)]; [by left | right].
    by exists f, new. }
  cbn [fst] in HwalkY.
  pose proof (TreeFacts.walkBudget_refOk _ _ _ _ _ HwalkY) as HokY.
  unfold refOk in HokY. cbn [fst snd] in HokY.
  assert (nY = setChild fileName new parent) as -> by congruence.
  assert (resolve Y path cwd = Some new) as Hresolve.
  { rewrite resolve_walk, (PathFacts.last_pop _ _ Hlast), walk_snoc, HwalkY.
    cbn [walkLoop fst snd].
    rewrite (bool_decide_eq_true_2 _ HdirY), HchY, lookup_insert_eq. reflexivity. }
  unfold readFile, exists_. rewrite Hresolve. split; [reflexivity|].
  by apply bool_decide_eq_true_2.
Qed.

Lemma write_then_read_witness :
  writableSlot emptyRoot "/notes.txt" "/"
  ∧ ∃ root' : FSNode,
      writeFile emptyRoot "/notes.txt" "hello" "/" 0 = Ret (true, root')
      ∧ readFile root' "/notes.txt" "/" = Some "hello"
      ∧ exists_ root' "/notes.txt" "/" = true.
Proof.
  assert (writableSlot emptyRoot "/notes.txt" "/") as Hslot.
  { split; [reflexivity|].
    exists "notes.txt", [], emptyRoot, ∅.
    repeat split; try reflexivity. by left. }
  split; [exact Hslot|].
  exact (write_then_read emptyRoot "/notes.txt" "hello" "/" 0 Hslot).
Defined.

(** Removing an existing file: [rm] succeeds, the path no longer
    resolves, and no path that failed to resolve before resolves after. *)
Lemma rm_existing_file (root : FSNode) (src content : string) :
  type root = directory →
  readFile root src "/" = Some content →
  ∃ root' : FSNode,
    rm root src "/" false = Ret (true, root')
    ∧ resolve root' src "/" = None
    ∧ ∀ q cwd, resolve root q cwd = None → resolve root' q cwd = None.
Proof.
  intros Hroot Hread. unfold readFile in Hread. rewrite resolve_walk in Hread.
  destruct (walkBudget 21 root true (_resolveParts src "/")) as [[l n]|] eqn:Hwalk;
    [|done].
  cbn [fmap option_fmap option_map snd] in Hread.
  destruct (decide (type n = file)) as [Hfile|Hfile];
    [|by rewrite (bool_decide_eq_false_2 _ Hfile) in Hread].
  clear Hread.
  destruct (last (_resolveParts src "/")) as [k|] eqn:Hlast; cycle 1.
  { apply last_None in Hlast. rewrite Hlast in Hwalk. injection Hwalk as <- <-.
    congruence. }
  pose proof (PathFacts.last_pop _ _ Hlast) as Hsplit.
  set (PP := pop (_resolveParts src "/")) in *.
  rewrite Hsplit in Hwalk.
  destruct (walk_snoc_inv _ _ _ _ Hwalk)
    as (loc & parent & ch & child & Hparent & Hdir & Hch & Hchild & Hkind).
  assert (type child ≠ directory) as Hnotdir.
  { destruct Hkind as [Hlink | [= -> ->]]; congruence. }
  set (X := updateAt loc (deleteChild k) root).
  exists X.
  assert (rm root src "/" false = Ret (true, X)) as Hrm.
  { unfold rm. rewrite pathParts_resolvePath, Hlast.
    rewrite resolveRef_parent by reflexivity. fold PP. rewrite Hparent.
    rewrite (bool_decide_eq_true_2 _ Hdir), Hch, Hchild. cbn [negb].
    by rewrite (bool_decide_eq_false_2 _ Hnotdir). }
  split; [exact Hrm|].
  pose proof (TreeFacts.walkBudget_refOk _ _ _ _ _ Hparent) as HokX.
  unfold refOk in HokX. cbn [fst snd] in HokX.
  assert (nodeAt X loc = Some (deleteChild k parent)) as HparentX
    by (by apply TreeFacts.nodeAt_updateAt_here).
  assert (type (deleteChild k parent) = directory
          ∧ children (deleteChild k parent) = Some (delete k ch))
    as [HdirX HchX] by (unfold deleteChild; by rewrite Hch).
  assert (∀ parts r, walkBudget 21 X true parts = Some r →
            ∃ nY, walkBudget 21 root true parts = Some (fst r, nY)) as Hsim.
  { intros parts r. apply (TreeFacts.sim_walk X root (loc ++ [k])).
    - intros l' Hoff. apply TreeFacts.agree_sym.
      apply (TreeFacts.agree_updateAt k); [apply TreeFacts.deleteChild_editsEntry | done].
    - left. rewrite (TreeFacts.nodeAt_snoc X loc k _ _ HparentX HdirX HchX).
      apply lookup_delete_eq. }
  split.
  - rewrite resolve_walk, Hsplit.
    destruct (walkBudget 21 X true (PP ++ [k])) as [r|] eqn:HwalkX; [|done].
    destruct (walk_snoc_inv _ _ _ _ HwalkX)
      as (loc' & parent' & ch' & child' & Hparent' & _ & Hch' & Hchild' & _).
    destruct (Hsim _ _ Hparent') as [nY HwalkY]. cbn [fst] in HwalkY.
    assert (loc' = loc) as -> by congruence.
    pose proof (TreeFacts.walkBudget_refOk _ _ _ _ _ Hparent') as Hok'.
    unfold refOk in Hok'. cbn [fst snd] in Hok'.
    assert (parent' = deleteChild k parent) as -> by congruence.
    rewrite HchX in Hch'. injection Hch' as <-.
    by rewrite lookup_delete_eq in Hchild'.
  - intros q cwd. rewrite !resolve_walk.
    destruct (walkBudget 21 X true (_resolveParts q cwd)) as [r|] eqn:HwalkX; [|done].
    destruct (Hsim _ _ HwalkX) as [nY ->]. done.
Qed.

End WriteFacts.

(** ** mv *)

Module MvFacts.

Import VirtualFileSystem CommandParser CommandContext CommandRegistry.

(** C10.  [mv s d] where [s] is an existing file and the parent of [d]
    does not exist: the write to [d] fails and its result is dropped, [s]
    is removed all the same, and the command returns exit code 0 with
    empty output.  Afterwards neither [s] nor [d] exists: the content is
    lost, and the file system is not the one [mv] started from. *)
Theorem mv_to_missing_parent_loses_file (cmd : ParsedCommand) (ctx : CommandContext)
    (stdin : option string) (now : Z) (arg0 arg1 : string) (more : list string)
    (content : string) :
  args cmd = arg0 :: arg1 :: more →
  type (fs ctx) = directory →
  readFile (fs ctx) (resolvePath ctx arg0) "/" = Some content →
  resolve (fs ctx) (parentPathOf (resolvePath ctx arg1) "/") "/" = None →
  ∃ root' : FSNode,
    Commands.handleMv cmd ctx stdin now
    = Returned (Commands.result EmptyString 0) (withFs ctx root')
    ∧ writeFile (fs ctx) (resolvePath ctx arg1) content "/" now = Ret (false, fs ctx)
    ∧ rm (fs ctx) (resolvePath ctx arg0) "/" false = Ret (true, root')
    ∧ exists_ root' (resolvePath ctx arg0) "/" = false
    ∧ exists_ root' (resolvePath ctx arg1) "/" = false
    ∧ readFile root' (resolvePath ctx arg0) "/" = None
    ∧ readFile root' (resolvePath ctx arg1) "/" = None
    ∧ root' ≠ fs ctx.
Proof.
  intros Hargs Hroot Hread Hparent.
  set (src := resolvePath ctx arg0) in *. set (dest := resolvePath ctx arg1) in *.
  destruct (WriteFacts.rm_existing_file (fs ctx) src content Hroot Hread)
    as (root' & Hrm & Hgone & Hmono).
  pose proof (WriteFacts.resolve_without_parent (fs ctx) dest "/" eq_refl Hparent)
    as Hdest.
  exists root'.
  assert (resolveRef (fs ctx) (parentPathOf dest "/") "/" = None) as HparentRef.
  { unfold resolve in Hparent. by destruct (resolveRef _ _ _). }
  split.
  { unfold Commands.handleMv. rewrite Hargs. fold src dest. rewrite Hread.
    unfold isDirectory. rewrite Hdest.
    unfold writeFile. rewrite HparentRef.
    unfold Commands.fsCall at 1. cbn [fs withFs]. rewrite Hrm.
    unfold Commands.fsCall. reflexivity. }
  split; [unfold writeFile; by rewrite HparentRef|].
  split; [exact Hrm|].
  pose proof (Hmono dest "/" Hdest) as Hdest'.
  unfold exists_, readFile. rewrite Hgone, Hdest'.
  repeat split; try reflexivity.
  intros ->. unfold readFile in Hread. by rewrite Hgone in Hread.
Qed.

Lemma mv_to_missing_parent_loses_file_witness :
  ∃ root' : FSNode,
    Commands.handleMv Commands.mvSampleCommand
      (CommandContext.initial Commands.mvSampleRoot) None 0%Z
    = Returned (Commands.result EmptyString 0)
        (withFs (CommandContext.initial Commands.mvSampleRoot) root')
    ∧ exists_ root'
        (resolvePath (CommandContext.initial Commands.mvSampleRoot) "a.txt") "/" = false
    ∧ exists_ root'
        (resolvePath (CommandContext.initial Commands.mvSampleRoot) "missing/b.txt") "/"
      = false.
Proof.
  destruct (mv_to_missing_parent_loses_file Commands.mvSampleCommand
              (CommandContext.initial Commands.mvSampleRoot) None 0%Z
              "a.txt" "missing/b.txt" [] "data"
              eq_refl eq_refl ltac:(vm_compute; reflexivity)
              ltac:(vm_compute; reflexivity))
    as (root' & Hmv & _ & _ & Hsrc & Hdest & _).
  exists root'. split; [exact Hmv|]. split; [exact Hsrc | exact Hdest].
Defined.

End MvFacts.

(** ** Strings: concatenation, slices, split and join *)

Module StringFacts.

Local Open Scope Z_scope.

(** Expose the first character of a concatenation. *)
Ltac str_cons :=
  repeat match goal with
         | |- context [String ?c ?a +:+ ?b] =>
             change (String c a +:+ b) with (String c (a +:+ b))
         | |- context [EmptyString +:+ ?b] =>
             change (EmptyString +:+ b) with b
         end.

Lemma chars_app (a b : string) : JS.chars (a +:+ b) = JS.chars a ++ JS.chars b.
Proof.
  unfold JS.chars. induction a as [|c a IH]; [done|]. str_cons.
  cbn [list_ascii_of_string app]. by rewrite IH.
Qed.

Lemma str_app (a b : list ascii) : JS.str (a ++ b) = JS.str a +:+ JS.str b.
Proof.
  unfold JS.str. induction a as [|c a IH]; [done|].
  cbn [string_of_list_ascii app]. str_cons. by rewrite IH.
Qed.

Lemma append_empty_r (a : string) : a +:+ EmptyString = a.
Proof. induction a as [|c a IH]; [done|]. str_cons. by rewrite IH. Qed.

Lemma append_assoc (a b c : string) : (a +:+ b) +:+ c = a +:+ b +:+ c.
Proof. induction a as [|x a IH]; [done|]. str_cons. by rewrite IH. Qed.

Lemma push_app (a : string) (c : ascii) (b : string) :
  JS.push a c +:+ b = a +:+ String c b.
Proof. unfold JS.push, JS.of_char. by rewrite append_assoc. Qed.

Lemma truthy_app (a b : string) :
  JS.truthy (a +:+ b) = JS.truthy a || JS.truthy b.
Proof. by destruct a. Qed.

(** [slice] between two indices inside the string. *)
Lemma slice_in (s : string) (a b : Z) :
  0 ≤ a ≤ b → b ≤ JS.length s →
  JS.slice s a b = JS.str (take (Z.to_nat (b - a)) (drop (Z.to_nat a) (JS.chars s))).
Proof.
  intros Ha Hb. unfold JS.slice.
  by rewrite !JSFacts.rel_index_id by lia.
Qed.

Lemma slice_prefix (a b : string) : JS.slice (a +:+ b) 0 (JS.length a) = a.
Proof.
  pose proof (JSFacts.length_nonneg a). pose proof (JSFacts.length_nonneg b).
  rewrite slice_in by (rewrite ?JSFacts.length_app; lia).
  rewrite chars_app. change (Z.to_nat 0) with O. rewrite drop_0, Z.sub_0_r.
  unfold JS.length. rewrite Nat2Z.id, <- JSFacts.length_chars.
  by rewrite take_app_length, JSFacts.str_chars.
Qed.

Lemma slice_from_suffix (a b : string) : JS.slice_from (a +:+ b) (JS.length a) = b.
Proof.
  pose proof (JSFacts.length_nonneg a). pose proof (JSFacts.length_nonneg b).
  unfold JS.slice_from. rewrite slice_in by (rewrite ?JSFacts.length_app; lia).
  rewrite chars_app, JSFacts.length_app.
  replace (JS.length a + JS.length b - JS.length a) with (JS.length b) by lia.
  unfold JS.length. rewrite !Nat2Z.id, <- !JSFacts.length_chars.
  by rewrite drop_app_length, take_ge, JSFacts.str_chars.
Qed.


(** Cutting a string at an index and gluing the two pieces gives it back. *)
Lemma slice_glue (s : string) (c : Z) :
  0 ≤ c ≤ JS.length s → JS.slice s 0 c +:+ JS.slice_from s c = s.
Proof.
  intros Hc. unfold JS.slice_from. rewrite !slice_in by lia.
  change (Z.to_nat 0) with O. rewrite drop_0, Z.sub_0_r, <- str_app.
  rewrite (take_ge (drop _ _)).
  - by rewrite take_drop, JSFacts.str_chars.
  - rewrite length_drop, JSFacts.length_chars. unfold JS.length in *. lia.
Qed.

(** A string cut at an index is the concatenation of two strings, the
    first of that length. *)
Lemma cut_at (s : string) (c : Z) :
  0 ≤ c ≤ JS.length s →
  ∃ a b, s = a +:+ b ∧ JS.length a = c
         ∧ JS.slice s 0 c = a ∧ JS.slice_from s c = b.
Proof.
  intros Hc. exists (JS.slice s 0 c), (JS.slice_from s c).
  split; [by rewrite slice_glue|]. split; [|done].
  rewrite JSFacts.length_slice_in; lia.
Qed.

Lemma startsWith_app (p s : string) : JS.startsWith (p +:+ s) p = true.
Proof.
  induction p as [|c p IH]; [done|]. str_cons. cbn [JS.startsWith]. rewrite IH.
  by rewrite (proj2 (Ascii.eqb_eq c c) eq_refl).
Qed.

Lemma startsWith_spec (s p : string) :
  JS.startsWith s p = true ↔ ∃ r, s = p +:+ r.
Proof.
  split.
  - revert s. induction p as [|c p IH]; intros s; [by exists s|].
    destruct s as [|d s]; [done|]. cbn [JS.startsWith].
    intros [Hc Hp]%andb_true_iff. apply Ascii.eqb_eq in Hc as ->.
    destruct (IH _ Hp) as [r ->]. by exists r.
  - intros [r ->]. apply startsWith_app.
Qed.

Lemma indexOf_go_fresh (cs : list ascii) (c : ascii) (rest : list ascii) (i : Z) :
  Forall (fun x => x ≠ c) cs →
  JS.indexOf_go (cs ++ c :: rest) c i = i + Z.of_nat (length cs).
Proof.
  revert i. induction cs as [|x cs IH]; intros i Hcs.
  - cbn. rewrite (proj2 (Ascii.eqb_eq c c) eq_refl). lia.
  - inversion Hcs as [|? ? Hx Hrest]; subst. cbn [app JS.indexOf_go].
    rewrite (proj2 (Ascii.eqb_neq x c) Hx), IH by done. cbn [length]. lia.
Qed.

(** The index of the first occurrence of [c]. *)
Lemma indexOf_first (a b : string) (c : ascii) :
  Forall (fun x => x ≠ c) (JS.chars a) →
  JS.indexOf (a +:+ String c b) c = JS.length a.
Proof.
  intros Ha. unfold JS.indexOf. rewrite chars_app. cbn [JS.chars list_ascii_of_string].
  rewrite indexOf_go_fresh by done. unfold JS.length.
  rewrite JSFacts.length_chars. lia.
Qed.



(** *** split and join for any separator *)

Lemma split_nonempty (sep : ascii) (s : string) : JS.split sep s ≠ [].
Proof.
  induction s as [|c s IH]; [done|]. cbn.
  destruct (Ascii.eqb c sep); [done|]. by destruct (JS.split sep s).
Qed.

Lemma split_free (sep : ascii) (s : string) : JS.free sep s → JS.split sep s = [s].
Proof.
  induction s as [|c s IH]; [done|]. intros Hs.
  inversion Hs as [|? ? Hc Hrest]; subst. cbn.
  rewrite (proj2 (Ascii.eqb_neq c sep) Hc). by rewrite IH.
Qed.

Lemma split_app (sep : ascii) (w rest : string) :
  JS.free sep w → JS.split sep (w +:+ String sep rest) = w :: JS.split sep rest.
Proof.
  induction w as [|c w IH]; intros Hw.
  - str_cons. cbn [JS.split]. by rewrite (proj2 (Ascii.eqb_eq sep sep) eq_refl).
  - inversion Hw as [|? ? Hc Hrest]; subst. str_cons. cbn [JS.split].
    rewrite (proj2 (Ascii.eqb_neq c sep) Hc). by rewrite IH.
Qed.

Lemma split_pieces_free (sep : ascii) (s : string) : Forall (JS.free sep) (JS.split sep s).
Proof.
  induction s as [|c s IH]; [by repeat constructor|]. cbn.
  destruct (Ascii.eqb c sep) eqn:Hc; [by constructor; [constructor|]|].
  destruct (JS.split sep s) as [|w ws]; [by repeat constructor; apply Ascii.eqb_neq|].
  inversion IH; subst. constructor; [|done]. constructor; [by apply Ascii.eqb_neq | done].
Qed.

Lemma split_join_any (sep : ascii) (parts : list string) :
  Forall (JS.free sep) parts → parts ≠ [] →
  JS.split sep (JS.join (JS.of_char sep) parts) = parts.
Proof.
  induction parts as [|p parts IH]; [done|]. intros Hparts _.
  inversion Hparts as [|? ? Hp Hrest]; subst.
  destruct parts as [|q parts]; [by apply split_free|].
  change (JS.join (JS.of_char sep) (p :: q :: parts))
    with (p +:+ String sep (JS.join (JS.of_char sep) (q :: parts))).
  rewrite split_app by done. by rewrite IH.
Qed.

(** Splitting at a separator distributes over a concatenation at that
    separator. *)
Lemma split_cat (sep : ascii) (a b : string) :
  JS.split sep (a +:+ String sep b) = JS.split sep a ++ JS.split sep b.
Proof.
  induction a as [|c a IH].
  - str_cons. cbn [JS.split]. by rewrite (proj2 (Ascii.eqb_eq sep sep) eq_refl).
  - str_cons. cbn [JS.split]. destruct (Ascii.eqb c sep); [by rewrite IH|].
    rewrite IH. pose proof (split_nonempty sep a).
    by destruct (JS.split sep a).
Qed.

(** *** trim *)

Lemma drop_while_head {A} (p : A → bool) (x : A) (l : list A) :
  p x = false → JS.drop_while p (x :: l) = x :: l.
Proof. intros Hx. cbn. by rewrite Hx. Qed.

(** A string that neither starts nor ends with white space is its own
    trimming. *)
Lemma trim_id (s : string) :
  (∀ c, head (JS.chars s) = Some c → JS.is_space c = false) →
  (∀ c, last (JS.chars s) = Some c → JS.is_space c = false) →
  JS.trim s = s.
Proof.
  intros Hhead Hlast. unfold JS.trim.
  destruct (JS.chars s) as [|c cs] eqn:Hcs.
  - cbn. rewrite <- (JSFacts.str_chars s), Hcs. done.
  - rewrite (drop_while_head _ c cs) by (by apply Hhead).
    destruct (rev (c :: cs)) as [|d ds] eqn:Hrev.
    + apply (f_equal (@length ascii)) in Hrev. by rewrite length_rev in Hrev.
    + rewrite (drop_while_head _ d ds).
      * rewrite <- Hrev, rev_involutive, <- Hcs. apply JSFacts.str_chars.
      * apply Hlast. rewrite <- (rev_involutive (c :: cs)), Hrev.
        cbn [rev]. by rewrite last_snoc.
Qed.

(** A string of white space trims to the empty string. *)
Lemma trim_blank (s : string) :
  Forall (fun c => JS.is_space c = true) (JS.chars s) → JS.trim s = EmptyString.
Proof.
  intros Hs. unfold JS.trim.
  assert (JS.drop_while JS.is_space (JS.chars s) = []) as ->; [|done].
  induction Hs as [|c cs Hc _ IH]; [done|]. cbn. by rewrite Hc.
Qed.

End StringFacts.

(** ** The tokenizer *)

Module TokenizerFacts.

Import CommandParser StringFacts.

Lemma lacks_spec (c : ascii) (s : string) :
  lacks c s = true ↔ Forall (fun x => x ≠ c) (JS.chars s).
Proof.
  unfold lacks. induction (JS.chars s) as [|x cs IH]; cbn [forallb].
  - split; [constructor | done].
  - rewrite andb_true_iff, negb_true_iff, Ascii.eqb_neq, IH, Forall_cons. done.
Qed.

Lemma lacks_cons (c x : ascii) (s : string) :
  lacks c (String x s) = negb (Ascii.eqb x c) && lacks c s.
Proof. reflexivity. Qed.


Lemma eqb_refl (c : ascii) : Ascii.eqb c c = true.
Proof. by apply Ascii.eqb_eq. Qed.

Lemma tokenize_alt (input : string) :
  tokenize input
  = tokFinish (fold_left tokenizeStep (JS.chars input)
                 {| tk_tokens := []; tk_current := EmptyString;
                    tk_single := false; tk_double := false; tk_escaped := false |}).
Proof. reflexivity. Qed.

(** Every token pushed so far, and the token the scan would push at the
    end, is non-empty. *)
Lemma tokenizeStep_nonempty (st : TokState) (char : ascii) :
  Forall (fun t => JS.truthy t = true) (tk_tokens st) →
  Forall (fun t => JS.truthy t = true) (tk_tokens (tokenizeStep st char)).
Proof.
  intros Hst. destruct st as [tokens current inS inD escaped]. cbn in *.
  repeat (match goal with |- context [if ?b then _ else _] => destruct b eqn:? end;
          cbn; try done).
  apply Forall_app. split; [done|]. by repeat constructor.
Qed.

Lemma tok_plain (cs : list ascii) :
  ∀ (toks : list string) (cur : string),
    quoteFree (JS.str cs) = true →
    tokFinish (fold_left tokenizeStep cs
                 {| tk_tokens := toks; tk_current := cur; tk_single := false;
                    tk_double := false; tk_escaped := false |})
    = toks ++ JS.filter_truthy (glue cur (JS.split " " (JS.str cs))).
Proof.
  induction cs as [|c cs IH]; intros toks cur Hq.
  - cbn. rewrite append_empty_r. unfold tokFinish. cbn.
    destruct (JS.truthy cur); [done | by rewrite app_nil_r].
  - change (JS.str (c :: cs)) with (String c (JS.str cs)) in *.
    unfold quoteFree in Hq. rewrite !lacks_cons in Hq.
    rewrite !andb_true_iff in Hq. destruct Hq as [[[H1 Hq1] [H2 Hq2]] [H3 Hq3]].
    apply negb_true_iff in H1, H2, H3.
    assert (quoteFree (JS.str cs) = true) as Hq
      by (unfold quoteFree; by rewrite Hq1, Hq2, Hq3).
    cbn [fold_left tokenizeStep]. rewrite H1, H2, H3. cbn [andb negb].
    cbn [JS.split].
    destruct (Ascii.eqb c " ") eqn:Hsp.
    + cbn [andb]. destruct (JS.truthy cur) eqn:Hcur.
      * rewrite IH by done. cbn [glue]. rewrite append_empty_r.
        unfold JS.filter_truthy at 2. cbn [List.filter]. rewrite Hcur.
        rewrite <- app_assoc. f_equal. cbn [app]. f_equal.
        pose proof (split_nonempty " " (JS.str cs)).
        destruct (JS.split " " (JS.str cs)) as [|w ws]; [done|]. done.
      * rewrite IH by done. cbn [glue]. rewrite append_empty_r.
        unfold JS.filter_truthy at 2. cbn [List.filter]. rewrite Hcur.
        f_equal. pose proof (split_nonempty " " (JS.str cs)).
        destruct (JS.split " " (JS.str cs)) as [|w ws]; [done|].
        by destruct cur.
    + cbn [andb]. rewrite IH by done. f_equal. f_equal.
      pose proof (split_nonempty " " (JS.str cs)).
      destruct (JS.split " " (JS.str cs)) as [|w ws]; [done|].
      cbn [glue]. by rewrite push_app.
Qed.

Lemma tokenize_plain (input : string) :
  quoteFree input = true →
  tokenize input = JS.filter_truthy (JS.split " " input).
Proof.
  intros Hq. rewrite tokenize_alt.
  rewrite tok_plain by (by rewrite JSFacts.str_chars).
  rewrite JSFacts.str_chars. cbn [app]. f_equal.
  pose proof (split_nonempty " " input).
  by destruct (JS.split " " input).
Qed.

End TokenizerFacts.

(** ** Parsing lines *)

Module ParserLaws.

Import CommandParser StringFacts TokenizerFacts.

(** A word character is none of the characters the scanners treat
    specially. *)
Lemma is_word_ordinary (c : ascii) :
  JS.is_word c = true →
  c ≠ "\"%char ∧ c ≠ "'"%char ∧ c ≠ "034"%char ∧ c ≠ " "%char
  ∧ c ≠ "|"%char ∧ c ≠ "&"%char ∧ c ≠ ";"%char ∧ c ≠ "="%char
  ∧ c ≠ "$"%char ∧ c ≠ "/"%char ∧ JS.is_space c = false.
Proof.
  intros Hw. repeat split; try (intros ->; vm_compute in Hw; discriminate).
  destruct c as [[] [] [] [] [] [] [] []]; vm_compute in Hw |- *; congruence.
Qed.

(** *** The tokenizer on words and on quoted text *)

Lemma tok_word_run (cs : list ascii) :
  ∀ (toks : list string) (cur : string),
    forallb JS.is_word cs = true →
    fold_left tokenizeStep cs
      {| tk_tokens := toks; tk_current := cur; tk_single := false;
         tk_double := false; tk_escaped := false |}
    = {| tk_tokens := toks; tk_current := cur +:+ JS.str cs; tk_single := false;
         tk_double := false; tk_escaped := false |}.
Proof.
  induction cs as [|c cs IH]; intros toks cur Hcs.
  - cbn. by rewrite append_empty_r.
  - cbn [forallb] in Hcs. apply andb_true_iff in Hcs as [Hc Hcs].
    destruct (is_word_ordinary c Hc) as (H1 & H2 & H3 & H4 & _).
    apply Ascii.eqb_neq in H1, H2, H3, H4.
    cbn [fold_left tokenizeStep]. rewrite H1, H2, H3, H4. cbn [andb].
    rewrite IH by done. change (JS.str (c :: cs)) with (String c (JS.str cs)).
    by rewrite push_app.
Qed.

Lemma tok_single_run (cs : list ascii) :
  ∀ (toks : list string) (cur : string),
    lacks "'" (JS.str cs) = true →
    fold_left tokenizeStep cs
      {| tk_tokens := toks; tk_current := cur; tk_single := true;
         tk_double := false; tk_escaped := false |}
    = {| tk_tokens := toks; tk_current := cur +:+ JS.str cs; tk_single := true;
         tk_double := false; tk_escaped := false |}.
Proof.
  induction cs as [|c cs IH]; intros toks cur Hcs.
  - cbn. by rewrite append_empty_r.
  - change (JS.str (c :: cs)) with (String c (JS.str cs)) in *.
    rewrite lacks_cons in Hcs. apply andb_true_iff in Hcs as [Hc Hcs].
    apply negb_true_iff in Hc.
    cbn [fold_left tokenizeStep]. rewrite Hc. cbn [andb negb].
    rewrite !andb_false_r. cbn [andb].
    rewrite IH by done. by rewrite push_app.
Qed.

Lemma chars_quotedLine (name w : string) :
  JS.chars (quotedLine name w)
  = JS.chars name ++ " "%char :: "'"%char :: JS.chars w ++ ["'"%char].
Proof. unfold quotedLine. by rewrite !chars_app. Qed.

Lemma tokenize_quotedLine (name w : string) :
  isWord name = true → lacks "'" w = true →
  tokenize (quotedLine name w) = name :: JS.filter_truthy [w].
Proof.
  intros [Hne Hname]%andb_true_iff Hw.
  rewrite tokenize_alt, chars_quotedLine.
  rewrite fold_left_app, tok_word_run by done.
  rewrite JSFacts.str_chars. cbn [fold_left]. 
  change (EmptyString +:+ name) with name.
  assert (tokenizeStep
            {| tk_tokens := []; tk_current := name; tk_single := false;
               tk_double := false; tk_escaped := false |} " "
          = {| tk_tokens := [name]; tk_current := EmptyString; tk_single := false;
               tk_double := false; tk_escaped := false |}) as ->
    by (cbn; by rewrite Hne).
  assert (tokenizeStep
            {| tk_tokens := [name]; tk_current := EmptyString; tk_single := false;
               tk_double := false; tk_escaped := false |} "'"
          = {| tk_tokens := [name]; tk_current := EmptyString; tk_single := true;
               tk_double := false; tk_escaped := false |}) as -> by reflexivity.
  rewrite fold_left_app, tok_single_run by (by rewrite JSFacts.str_chars).
  rewrite JSFacts.str_chars. change (EmptyString +:+ w) with w.
  cbn [fold_left]. unfold tokFinish. cbn. by destruct (JS.truthy w).
Qed.

(** *** The pipeline splitter where no operator can fire *)

Lemma splitStep_no_operator (st : SplitState) (c : ascii) (next : option ascii) :
  c ≠ "|"%char → c ≠ "&"%char → c ≠ ";"%char →
  ∃ s d e, splitStep st c next = (keepChar st c s d e, false).
Proof.
  intros H1 H2 H3. apply Ascii.eqb_neq in H1, H2, H3.
  unfold splitStep. rewrite H1, H2, H3. cbn [andb].
  repeat (match goal with |- context [if ?b then _ else _] => destruct b end);
    by do 3 eexists.
Qed.

Lemma splitStep_single_quoted (st : SplitState) (c : ascii) (next : option ascii) :
  sp_single st = true → sp_double st = false → c ≠ "'"%char →
  ∃ e, splitStep st c next = (keepChar st c true false e, false).
Proof.
  intros HS HD Hc. apply Ascii.eqb_neq in Hc.
  unfold splitStep. rewrite HS, HD, Hc. cbn [andb negb orb].
  rewrite !andb_false_r.
  repeat (match goal with |- context [if ?b then _ else _] => destruct b end);
    by eexists.
Qed.

(** A run of characters none of which is an operator character: nothing
    is emitted and the run joins the pending segment. *)
Lemma splitLoop_no_operator (cs : list ascii) :
  ∀ (rest : list ascii) (st : SplitState),
    operatorFree (JS.str cs) = true →
    ∃ st', splitLoop (cs ++ rest) st = splitLoop rest st'
           ∧ sp_results st' = sp_results st
           ∧ sp_current st' = sp_current st +:+ JS.str cs.
Proof.
  induction cs as [|c cs IH]; intros rest st Hcs.
  - exists st. by rewrite append_empty_r.
  - change (JS.str (c :: cs)) with (String c (JS.str cs)) in *.
    unfold operatorFree in Hcs. rewrite !lacks_cons in Hcs.
    rewrite !andb_true_iff in Hcs. destruct Hcs as [[[H1 Hq1] [H2 Hq2]] [H3 Hq3]].
    apply negb_true_iff, Ascii.eqb_neq in H1, H2, H3.
    destruct (splitStep_no_operator st c (head (cs ++ rest)) H1 H2 H3)
      as (s & d & e & Hstep).
    cbn [app splitLoop]. rewrite Hstep.
    destruct (IH rest (keepChar st c s d e)) as (st' & Hloop & Hres & Hcur).
    { unfold operatorFree. by rewrite Hq1, Hq2, Hq3. }
    exists st'. split; [exact Hloop|]. split; [by rewrite Hres|].
    rewrite Hcur. cbn [keepChar sp_current]. by rewrite push_app.
Qed.

(** A run of characters inside single quotes. *)
Lemma splitLoop_single_quoted (cs : list ascii) :
  ∀ (rest : list ascii) (st : SplitState),
    sp_single st = true → sp_double st = false →
    lacks "'" (JS.str cs) = true →
    ∃ st', splitLoop (cs ++ rest) st = splitLoop rest st'
           ∧ sp_results st' = sp_results st
           ∧ sp_current st' = sp_current st +:+ JS.str cs
           ∧ sp_single st' = true ∧ sp_double st' = false.
Proof.
  induction cs as [|c cs IH]; intros rest st HS HD Hcs.
  - exists st. by rewrite append_empty_r.
  - change (JS.str (c :: cs)) with (String c (JS.str cs)) in *.
    rewrite lacks_cons in Hcs. apply andb_true_iff in Hcs as [Hc Hcs].
    apply negb_true_iff, Ascii.eqb_neq in Hc.
    destruct (splitStep_single_quoted st c (head (cs ++ rest)) HS HD Hc) as (e & Hstep).
    cbn [app splitLoop]. rewrite Hstep.
    destruct (IH rest (keepChar st c true false e)) as (st' & Hloop & Hres & Hcur & Hfl);
      [done..|].
    exists st'. split; [exact Hloop|]. split; [by rewrite Hres|].
    split; [|exact Hfl].
    rewrite Hcur. cbn [keepChar sp_current]. by rewrite push_app.
Qed.

Lemma splitPipeline_alt (input : string) :
  splitPipeline input
  = let st := splitLoop (JS.chars input)
                {| sp_results := []; sp_current := EmptyString;
                   sp_single := false; sp_double := false; sp_escaped := false |} in
    pushCommand (sp_results st) (sp_current st).
Proof. reflexivity. Qed.

(** A line without [|], [&] and [;] is one segment. *)
Lemma splitPipeline_no_operator (input : string) :
  operatorFree input = true → splitPipeline input = pushCommand [] input.
Proof.
  intros Hin. rewrite splitPipeline_alt.
  destruct (splitLoop_no_operator (JS.chars input) []
              {| sp_results := []; sp_current := EmptyString;
                 sp_single := false; sp_double := false; sp_escaped := false |})
    as (st' & Hloop & Hres & Hcur); [by rewrite JSFacts.str_chars|].
  rewrite app_nil_r in Hloop. rewrite Hloop. cbn [splitLoop].
  cbv zeta. rewrite Hres, Hcur, JSFacts.str_chars. done.
Qed.



Lemma splitLoop_word_run (cs : list ascii) :
  ∀ (rest : list ascii) (results : list Segment) (cur : string),
    forallb JS.is_word cs = true →
    splitLoop (cs ++ rest)
      {| sp_results := results; sp_current := cur; sp_single := false;
         sp_double := false; sp_escaped := false |}
    = splitLoop rest
        {| sp_results := results; sp_current := cur +:+ JS.str cs; sp_single := false;
           sp_double := false; sp_escaped := false |}.
Proof.
  induction cs as [|c cs IH]; intros rest results cur Hcs.
  - cbn [app]. by rewrite append_empty_r.
  - cbn [forallb] in Hcs. apply andb_true_iff in Hcs as [Hc Hcs].
    destruct (is_word_ordinary c Hc) as (H1 & H2 & H3 & _ & H5 & H6 & H7 & _).
    apply Ascii.eqb_neq in H1, H2, H3, H5, H6, H7.
    cbn [app splitLoop]. unfold splitStep. cbn [sp_escaped sp_single sp_double].
    rewrite H1, H2, H3, H5, H6, H7. cbn [andb orb negb].
    unfold keepChar. cbn [sp_results sp_current].
    rewrite IH by done. change (JS.str (c :: cs)) with (String c (JS.str cs)).
    by rewrite push_app.
Qed.

Lemma splitLoop_keep (c : ascii) (rest : list ascii) (st st' : SplitState) :
  splitStep st c (head rest) = (st', false) →
  splitLoop (c :: rest) st = splitLoop rest st'.
Proof. intros Hstep. cbn [splitLoop]. by rewrite Hstep. Qed.

Lemma splitStep_space (results : list Segment) (cur : string) (next : option ascii) :
  splitStep {| sp_results := results; sp_current := cur; sp_single := false;
               sp_double := false; sp_escaped := false |} " " next
  = ({| sp_results := results; sp_current := JS.push cur " "; sp_single := false;
        sp_double := false; sp_escaped := false |}, false).
Proof. reflexivity. Qed.

Lemma splitStep_open (results : list Segment) (cur : string) (next : option ascii) :
  splitStep {| sp_results := results; sp_current := cur; sp_single := false;
               sp_double := false; sp_escaped := false |} "'" next
  = ({| sp_results := results; sp_current := JS.push cur "'"; sp_single := true;
        sp_double := false; sp_escaped := false |}, false).
Proof. reflexivity. Qed.

Lemma splitPipeline_quotedLine (name w : string) :
  isWord name = true → lacks "'" w = true →
  splitPipeline (quotedLine name w) = [SegCommand (quotedLine name w)].
Proof.
  intros [Hne Hname]%andb_true_iff Hw.
  rewrite splitPipeline_alt, chars_quotedLine. cbv zeta.
  rewrite splitLoop_word_run by done. rewrite JSFacts.str_chars.
  change (EmptyString +:+ name) with name.
  rewrite (splitLoop_keep _ _ _ _ (splitStep_space _ _ _)).
  rewrite (splitLoop_keep _ _ _ _ (splitStep_open _ _ _)).
  destruct (splitLoop_single_quoted (JS.chars w) ["'"%char]
              {| sp_results := []; sp_current := JS.push (JS.push name " ") "'";
                 sp_single := true; sp_double := false; sp_escaped := false |})
    as (st' & Hloop & Hres & Hcur & HS & HD); [done | done | by rewrite JSFacts.str_chars |].
  cbn [sp_results sp_current] in *.
  rewrite Hloop.
  assert (∃ s d e, splitStep st' "'" (head []) = (keepChar st' "'" s d e, false))
    as (s & d & e & Hlast).
  { unfold splitStep. rewrite HS, HD. cbn [andb orb negb].
    destruct (sp_escaped st'); [by do 3 eexists|].
    change (Ascii.eqb "'" "\") with false. change (Ascii.eqb "'" "'") with true.
    cbn [andb]. by do 3 eexists. }
  rewrite (splitLoop_keep _ _ _ _ Hlast). cbn [splitLoop].
  cbn [keepChar sp_results sp_current]. rewrite Hres, Hcur, JSFacts.str_chars.
  assert (JS.push (JS.push (JS.push name " ") "'" +:+ w) "'" = quotedLine name w) as ->.
  { unfold quotedLine, JS.push, JS.of_char. by rewrite !append_assoc. }
  unfold pushCommand.
  assert (JS.trim (quotedLine name w) = quotedLine name w) as ->.
  { apply trim_id; rewrite chars_quotedLine.
    - destruct (JS.chars name) as [|c cs] eqn:Hcs.
      + rewrite <- (JSFacts.str_chars name), Hcs in Hne. done.
      + cbn [app head]. intros ? [= <-]. cbn [forallb] in Hname.
        apply andb_true_iff in Hname as [Hc _].
        by destruct (is_word_ordinary c Hc) as (_ & _ & _ & _ & _ & _ & _ & _ & _ & _ & ?).
    - intros c.
      replace (JS.chars name ++ " "%char :: "'"%char :: JS.chars w ++ ["'"%char])
        with ((JS.chars name ++ " "%char :: "'"%char :: JS.chars w) ++ ["'"%char])
        by (by rewrite <- app_assoc).
      rewrite last_snoc. by intros [= <-]. }
  assert (JS.truthy (quotedLine name w) = true) as ->; [|done].
  unfold quotedLine. rewrite truthy_app, Hne. done.
Qed.

(** X1. A token the tokenizer returns is never the empty string; in
    particular an empty quoted argument leaves no token. *)
Theorem tokenize_tokens_nonempty (input : string) :
  Forall (fun t => JS.truthy t = true) (tokenize input).
Proof.
  rewrite tokenize_alt. unfold tokFinish.
  set (st0 := {| tk_tokens := []; tk_current := EmptyString; tk_single := false;
                 tk_double := false; tk_escaped := false |}).
  assert (Forall (fun t => JS.truthy t = true) (tk_tokens st0)) as H0 by constructor.
  revert H0. generalize st0. clear st0.
  induction (JS.chars input) as [|c cs IH]; intros st Hst; cbn [fold_left].
  - destruct (JS.truthy (tk_current st)) eqn:Hcur; [|done].
    apply Forall_app. split; [done|]. by repeat constructor.
  - apply IH. by apply tokenizeStep_nonempty.
Qed.

(** X2. On a line without quotes and backslashes the tokens are the
    non-empty pieces between spaces. *)
Theorem tokenize_splits_on_spaces (input : string) :
  quoteFree input = true →
  tokenize input = JS.filter_truthy (JS.split " " input).
Proof. apply tokenize_plain. Qed.

Lemma tokenize_splits_on_spaces_witness :
  quoteFree "ls  -la   src " = true
  ∧ tokenize "ls  -la   src " = ["ls"; "-la"; "src"].
Proof.
  split; [reflexivity|].
  rewrite (tokenize_splits_on_spaces "ls  -la   src " eq_refl). reflexivity.
Defined.

(** X3. Text between single quotes is taken literally, whatever it holds
    but a single quote: the line [name 'w'] is one command without
    operators, and its tokens are [name] and [w]. *)
Theorem single_quotes_protect (name w : string) :
  isWord name = true → lacks "'" w = true →
  parse (quotedLine name w)
  = {| commands := [parseCommand (quotedLine name w)]; operators := [] |}
  ∧ tokenize (quotedLine name w) = name :: JS.filter_truthy [w]
  ∧ command (parseCommand (quotedLine name w)) = name
  ∧ rawArgs (parseCommand (quotedLine name w)) = w.
Proof.
  intros Hname Hw.
  pose proof (tokenize_quotedLine name w Hname Hw) as Htok.
  split; [|split; [exact Htok|]].
  - unfold parse. by rewrite splitPipeline_quotedLine.
  - unfold parseCommand. rewrite Htok. cbn [command rawArgs].
    split; [done|]. unfold JS.filter_truthy. cbn [List.filter].
    by destruct w.
Qed.

Lemma single_quotes_protect_witness :
  operators (parse (quotedLine "echo" "a | b ; c && d")) = []
  ∧ tokenize (quotedLine "echo" "a | b ; c && d") = ["echo"; "a | b ; c && d"].
Proof.
  destruct (single_quotes_protect "echo" "a | b ; c && d" eq_refl eq_refl)
    as (Hparse & Htok & _).
  split; [by rewrite Hparse | exact Htok].
Defined.

(** X4. A line without [|], [&] and [;] parses to no operator and to at
    most one command, the parse of the trimmed line. *)
Theorem operator_free_line_is_one_command (input : string) :
  operatorFree input = true →
  parse input
  = {| commands := if JS.truthy (JS.trim input) then [parseCommand (JS.trim input)]
                   else [];
       operators := [] |}.
Proof.
  intros Hin. unfold parse. rewrite splitPipeline_no_operator by done.
  unfold pushCommand. by destruct (JS.truthy (JS.trim input)).
Qed.

Lemma operator_free_line_is_one_command_witness :
  parse "  ls -la  " = {| commands := [parseCommand "ls -la"]; operators := [] |}.
Proof. exact (operator_free_line_is_one_command "  ls -la  " eq_refl). Defined.



End ParserLaws.

(** ** Operators and vacant positions *)

Module SplitLaws.

Import CommandParser CommandContext CommandRegistry PipelineExecutor.
Import StringFacts TokenizerFacts ParserLaws.











End SplitLaws.

(** ** Normal forms of paths *)

Module PathLaws.

Import VirtualFileSystem StringFacts.

Lemma filter_truthy_app (a b : list string) :
  JS.filter_truthy (a ++ b) = JS.filter_truthy a ++ JS.filter_truthy b.
Proof. unfold JS.filter_truthy. induction a as [|x a IH]; [done|]. cbn. rewrite IH. by destruct (JS.truthy x). Qed.

Lemma pathParts_cat (a b : string) :
  pathParts (a +:+ "/" +:+ b) = pathParts a ++ pathParts b.
Proof.
  unfold pathParts. change ("/" +:+ b) with (String "/" b).
  by rewrite split_cat, filter_truthy_app.
Qed.

(** X6. [resolvePath] returns a normal form: resolving its result again,
    from any working directory, gives it back. *)
Theorem resolvePath_idempotent (path cwd cwd' : string) :
  forallb isPlain (pathParts cwd) = true →
  resolvePath (resolvePath path cwd) cwd' = resolvePath path cwd.
Proof.
  intros Hcwd. unfold resolvePath at 1 3. f_equal. f_equal.
  unfold resolvePath. apply PathFacts.resolveParts_join.
  - apply PathFacts.resolveParts_names.
  - by apply PathFacts.resolveParts_plain.
Qed.

Lemma resolvePath_idempotent_witness :
  resolvePath (resolvePath "../lib/./x" "/opt/fleetcore") "/tmp" = "/opt/lib/x".
Proof.
  rewrite (resolvePath_idempotent "../lib/./x" "/opt/fleetcore" "/tmp" eq_refl).
  reflexivity.
Defined.

(** X7. A relative path resolves as the path made of the working
    directory, a slash and the path, resolved from the root. *)
Theorem resolvePath_relative (path cwd : string) :
  JS.startsWith path "/" = false →
  forallb isPlain (pathParts cwd) = true →
  resolvePath path cwd = resolvePath (cwd +:+ "/" +:+ path) "/".
Proof.
  intros Hrel Hcwd. unfold resolvePath. f_equal. f_equal.
  unfold _resolveParts. rewrite Hrel, pathParts_cat, fold_left_app.
  assert (fold_left resolvePart (pathParts cwd) [] = pathParts cwd) as Hbase.
  { rewrite PathFacts.fold_resolvePart_plain; [done|].
    apply Forall_forall. intros p Hp. rewrite forallb_forall in Hcwd.
    by apply Hcwd, list_elem_of_In. }
  assert ((if JS.startsWith (cwd +:+ "/" +:+ path) "/" then [] else pathParts "/")
          = @nil string) as ->
    by (destruct (JS.startsWith (cwd +:+ "/" +:+ path) "/"); reflexivity).
  by rewrite Hbase.
Qed.

Lemma resolvePath_relative_witness :
  resolvePath "src/../README" "/opt/fleetcore" = "/opt/fleetcore/README".
Proof.
  rewrite (resolvePath_relative "src/../README" "/opt/fleetcore" eq_refl eq_refl).
  reflexivity.
Defined.

End PathLaws.

(** ** Setting one entry of a directory *)

Module TreeLaws.

Import VirtualFileSystem.

(** A mutation of the entry [k] of the directory at [L] leaves every node
    in place that is neither at or below the entry nor above it. *)
Lemma nodeAt_updateAt_off (k : string) (f : FSNode → FSNode) :
  editsEntry k f →
  ∀ (L : Loc) (X : FSNode) (l : Loc),
    ¬ (L ++ [k]) `prefix_of` l → ¬ l `prefix_of` L →
    nodeAt (updateAt L f X) l = nodeAt X l.
Proof.
  intros Hf. induction L as [|l0 L IH]; intros X l Hoff Habove.
  - destruct l as [|j more]; [by destruct Habove; apply prefix_nil|].
    cbn [updateAt app] in *. destruct (Hf X) as (Hty & _ & Hch).
    cbn [nodeAt]. rewrite Hty. destruct (bool_decide _); [|done].
    destruct (children X) as [ch|] eqn:HchX; [|by rewrite Hch, HchX].
    destruct Hch as (ch' & -> & Hsame). rewrite Hsame; [done|].
    intros ->. apply Hoff. by apply prefix_cons, prefix_nil.
  - destruct l as [|j more]; [by destruct Habove; apply prefix_nil|].
    cbn [updateAt]. destruct (children X) as [ch|] eqn:HchX; [|done].
    cbn [nodeAt type children]. rewrite HchX.
    destruct (bool_decide _); [|done].
    destruct (decide (j = l0)) as [->|Hne].
    + rewrite lookup_alter_eq. destruct (ch !! l0) as [c|]; [|done]. cbn.
      apply IH.
      * intros Hpre. apply Hoff. cbn [app]. by apply prefix_cons.
      * intros Hpre. apply Habove. by apply prefix_cons.
    + by rewrite lookup_alter_ne.
Qed.

(** Walking the tree after the entry [k] of the directory a walk reached
    has been set to [new], where the entry was vacant or held a file that
    a file replaces. *)
Section SetEntry.

Variables (root : FSNode) (parts : list string) (k : string) (loc : Loc)
  (parent : FSNode) (ch : gmap string FSNode) (new : FSNode).

Hypothesis Hparent : walkBudget 21 root true parts = Some (loc, parent).
Hypothesis Hdir : type parent = directory.
Hypothesis Hch : children parent = Some ch.
Hypothesis Hslot :
  ch !! k = None ∨ ∃ f, ch !! k = Some f ∧ type f = file ∧ type new = file.

Let Y := updateAt loc (setChild k new) root.

Lemma set_entry_parent_X : nodeAt root loc = Some parent.
Proof using Hparent. exact (TreeFacts.walkBudget_refOk _ _ _ _ _ Hparent). Qed.

Lemma set_entry_parent_Y : nodeAt Y loc = Some (setChild k new parent).
Proof using Hparent. apply TreeFacts.nodeAt_updateAt_here, set_entry_parent_X. Qed.

Lemma set_entry_shape :
  type (setChild k new parent) = directory
  ∧ children (setChild k new parent) = Some (<[k := new]> ch).
Proof using Hdir Hch. unfold setChild. by rewrite Hch. Qed.

Lemma set_entry_here : nodeAt Y (loc ++ [k]) = Some new.
Proof using Hparent Hdir Hch.
  destruct set_entry_shape as [HdirY HchY].
  rewrite (TreeFacts.nodeAt_snoc Y loc k _ _ set_entry_parent_Y HdirY HchY).
  apply lookup_insert_eq.
Qed.

Lemma set_entry_agree (l : Loc) : ¬ (loc ++ [k]) `prefix_of` l → agree root Y l.
Proof.
  intros Hoff.
  apply (TreeFacts.agree_updateAt k); [apply TreeFacts.setChild_editsEntry | done].
Qed.

Lemma set_entry_slot :
  nodeAt root (loc ++ [k]) = None
  ∨ ∃ fX fY, nodeAt root (loc ++ [k]) = Some fX ∧ nodeAt Y (loc ++ [k]) = Some fY
             ∧ type fX = file ∧ type fY = file.
Proof using Hparent Hdir Hch Hslot.
  rewrite (TreeFacts.nodeAt_snoc root loc k parent ch set_entry_parent_X Hdir Hch).
  rewrite set_entry_here.
  destruct Hslot as [-> | (f & -> & Hf & Hnew)]; [by left | right].
  by exists f, new.
Qed.

(** A walk that succeeds before succeeds after, at the same place. *)
Lemma set_entry_sim (b : nat) (follow : bool) (parts' : list string) (r : Ref) :
  walkBudget b root follow parts' = Some r →
  ∃ nY, walkBudget b Y follow parts' = Some (fst r, nY).
Proof using Hparent Hdir Hch Hslot.
  apply (TreeFacts.sim_walk root Y (loc ++ [k])).
  - apply set_entry_agree.
  - apply set_entry_slot.
Qed.

Lemma set_entry_walk_parent :
  walkBudget 21 Y true parts = Some (loc, setChild k new parent).
Proof using Hparent Hdir Hch Hslot.
  destruct (set_entry_sim _ _ _ _ Hparent) as [nY HwalkY]. cbn [fst] in HwalkY.
  pose proof (TreeFacts.walkBudget_refOk _ _ _ _ _ HwalkY) as HokY.
  unfold refOk in HokY. cbn [fst snd] in HokY.
  rewrite set_entry_parent_Y in HokY. by injection HokY as <-.
Qed.

(** The path to the entry now resolves to [new]. *)
Lemma set_entry_walk_entry :
  type new ≠ symlink →
  walkBudget 21 Y true (parts ++ [k]) = Some (loc ++ [k], new).
Proof using Hparent Hdir Hch Hslot.
  intros Hnew. destruct set_entry_shape as [HdirY HchY].
  rewrite WriteFacts.walk_snoc, set_entry_walk_parent.
  cbn [walkLoop fst snd].
  rewrite (bool_decide_eq_true_2 _ HdirY), HchY, lookup_insert_eq. cbn [negb].
  unfold followedTarget. by rewrite (bool_decide_eq_false_2 _ Hnew).
Qed.

(** A file a walk reached before is reached after: the same file, or
    [new] when the walk ends on the entry. *)
Lemma set_entry_frame (parts' : list string) (r : Ref) :
  walkBudget 21 root true parts' = Some r → type (snd r) = file →
  walkBudget 21 Y true parts' = Some r
  ∨ (fst r = loc ++ [k] ∧ walkBudget 21 Y true parts' = Some (loc ++ [k], new)).
Proof using Hparent Hdir Hch Hslot.
  intros Hwalk Hfile.
  destruct (set_entry_sim _ _ _ _ Hwalk) as [nY HwalkY].
  pose proof (TreeFacts.walkBudget_refOk _ _ _ _ _ Hwalk) as HokX.
  pose proof (TreeFacts.walkBudget_refOk _ _ _ _ _ HwalkY) as HokY.
  unfold refOk in HokX, HokY. cbn [fst snd] in HokY.
  destruct r as [l n]. cbn [fst snd] in HokX, HokY, HwalkY, Hfile, Hwalk |- *.
  destruct (decide (l = loc ++ [k])) as [->|Hne].
  { right. split; [done|]. rewrite set_entry_here in HokY. by injection HokY as <-. }
  left. rewrite HwalkY. f_equal. f_equal.
  assert (nodeAt Y l = nodeAt root l) as Hsame.
  { apply (nodeAt_updateAt_off k); [apply TreeFacts.setChild_editsEntry | |].
    - intros [rest ->]. destruct rest as [|j rest]; [by rewrite app_nil_r in Hne|].
      pose proof set_entry_parent_X as HpX.
      rewrite <- (app_assoc loc [k]) in HokX.
      rewrite TreeFacts.nodeAt_app, HpX in HokX. cbn [mbind option_bind] in HokX.
      cbn [app nodeAt] in HokX.
      rewrite (bool_decide_eq_true_2 _ Hdir), Hch in HokX.
      destruct Hslot as [Hnone | (f & Hf & Hff & _)].
      + by rewrite Hnone in HokX.
      + rewrite Hf in HokX. cbn [nodeAt] in HokX.
        by rewrite bool_decide_eq_false_2 in HokX by (by rewrite Hff).
    - intros [rest Hrest]. pose proof set_entry_parent_X as HpX.
      rewrite Hrest in HpX. destruct rest as [|j rest].
      + rewrite app_nil_r in HpX. congruence.
      + by rewrite (TreeFacts.nodeAt_below_file root l (j :: rest) n HokX Hfile) in HpX. }
  congruence.
Qed.

End SetEntry.

End TreeLaws.

(** ** Writes and appends *)

Module WriteLaws.

Import VirtualFileSystem TreeLaws.

Lemma readFile_walk (root : FSNode) (path cwd c : string) :
  readFile root path cwd = Some c ↔
  ∃ l n, walkBudget 21 root true (_resolveParts path cwd) = Some (l, n)
         ∧ type n = file ∧ c = default EmptyString (content n).
Proof.
  unfold readFile. rewrite WriteFacts.resolve_walk.
  destruct (walkBudget 21 root true (_resolveParts path cwd)) as [[l n]|];
    cbn [fmap option_fmap option_map snd].
  - destruct (decide (type n = file)) as [Hf|Hf].
    + rewrite (bool_decide_eq_true_2 _ Hf). split.
      * intros [= <-]. by exists l, n.
      * intros (? & ? & [= <- <-] & _ & ->). done.
    + rewrite (bool_decide_eq_false_2 _ Hf). split; [done|].
      intros (? & ? & [= <- <-] & ? & _). done.
  - split; [done|]. by intros (? & ? & ? & _).
Qed.

(** What a write to a writable slot does. *)
Lemma write_slot (root : FSNode) (path content cwd : string) (now : Z) :
  writableSlot root path cwd →
  ∃ root' : FSNode,
    writeFile root path content cwd now = Ret (true, root')
    ∧ readFile root' path cwd = Some content
    ∧ writableSlot root' path cwd
    ∧ ∀ q cwd' c, readFile root q cwd' = Some c →
        (¬ sameEntry root' q cwd' path cwd ∧ readFile root' q cwd' = Some c)
        ∨ (sameEntry root' q cwd' path cwd ∧ readFile root' q cwd' = Some content).
Proof.
  intros (Hcwd & fileName & loc & parent & ch & Hlast & Hparent & Hdir & Hch & Hslot).
  set (new := newFile fileName content now).
  set (Y := updateAt loc (setChild fileName new) root).
  exists Y.
  assert (writeFile root path content cwd now = Ret (true, Y)) as Hwrite.
  { unfold writeFile. rewrite Hparent, (bool_decide_eq_true_2 _ Hdir), Hch.
    cbn [negb]. rewrite WriteFacts.pathParts_resolvePath, Hlast.
    rewrite bool_decide_eq_false_2; [done|].
    destruct Hslot as [-> | (f & -> & Hf)]; cbn; congruence. }
  split; [exact Hwrite|].
  rewrite WriteFacts.resolveRef_parent in Hparent by done.
  assert (ch !! fileName = None
          ∨ ∃ f, ch !! fileName = Some f ∧ type f = file ∧ type new = file) as Hslot'.
  { destruct Hslot as [? | (f & ? & ?)]; [by left | right]. by exists f. }
  pose proof (set_entry_walk_entry root _ fileName loc parent ch new
                Hparent Hdir Hch Hslot' ltac:(done)) as Hentry.
  pose proof (set_entry_walk_parent root _ fileName loc parent ch new
                Hparent Hdir Hch Hslot') as HparentY.
  fold Y in Hentry, HparentY.
  rewrite <- (PathFacts.last_pop _ _ Hlast) in Hentry.
  split; [|split].
  - apply readFile_walk. by exists (loc ++ [fileName]), new.
  - split; [done|]. exists fileName, loc, (setChild fileName new parent), (<[fileName := new]> ch).
    split; [done|]. split; [by rewrite WriteFacts.resolveRef_parent|].
    destruct (set_entry_shape fileName parent ch new Hdir Hch) as [HdirY HchY].
    split; [done|]. split; [done|].
    right. exists new. by rewrite lookup_insert_eq.
  - intros q cwd' c (l & n & Hwalk & Hfile & ->)%readFile_walk.
    assert (∀ l' n', walkBudget 21 Y true (_resolveParts q cwd') = Some (l', n') →
              sameEntry Y q cwd' path cwd ↔ l' = loc ++ [fileName]) as Hsame.
    { intros l' n' Hq. unfold sameEntry, resolveRef, _walk. cbn [Nat.sub].
      rewrite Hq, Hentry. cbn [fmap option_fmap option_map fst]. split.
      - intros (loc0 & [= <-] & [= Hloc]). done.
      - intros ->. by exists (loc ++ [fileName]). }
    destruct (set_entry_frame root _ fileName loc parent ch new
                Hparent Hdir Hch Hslot' _ (l, n) Hwalk Hfile) as [HY | [_ HY]];
      fold Y in HY.
    + destruct (decide (l = loc ++ [fileName])) as [Hl|Hl].
      * right. split; [by apply (Hsame l n)|].
        pose proof (TreeFacts.walkBudget_refOk _ _ _ _ _ HY) as HokY.
        pose proof (TreeFacts.walkBudget_refOk _ _ _ _ _ Hentry) as HokE.
        unfold refOk in HokY, HokE. cbn [fst snd] in HokY, HokE.
        rewrite Hl, HokE in HokY. injection HokY as <-.
        apply readFile_walk. by exists l, new.
      * left. split; [by rewrite (Hsame l n)|].
        apply readFile_walk. by exists l, n.
    + right. split; [by apply (Hsame (loc ++ [fileName]) new)|].
      apply readFile_walk. by exists (loc ++ [fileName]), new.
Qed.

Lemma emptyRoot_slot :
  writableSlot emptyRoot "/notes.txt" "/".
Proof.
  split; [reflexivity|].
  exists "notes.txt", [], emptyRoot, ∅.
  repeat split; try reflexivity. by left.
Qed.

Lemma sampleTree_slot :
  writableSlot sampleTree "/notes" "/".
Proof.
  split; [reflexivity|].
  exists "notes", [], sampleTree, {[ "notes" := newFile "notes" "hello" 5;
                                     "link" := {| name := "link"; type := symlink;
                                                  content := None; children := None;
                                                  target := Some "/notes";
                                                  permissions := None;
                                                  modified := None |} ]}.
  repeat split; try reflexivity.
  right. by exists (newFile "notes" "hello" 5).
Qed.

(** X8.  A successful write changes no other file: a path that read as a
    file before the write reads the same content after it, unless it leads
    to the written file, and then it reads the content just written. *)
Theorem write_keeps_other_files (root : FSNode) (path content cwd : string) (now : Z) :
  writableSlot root path cwd →
  ∃ root' : FSNode,
    writeFile root path content cwd now = Ret (true, root')
    ∧ ∀ q cwd' c, readFile root q cwd' = Some c →
        (¬ sameEntry root' q cwd' path cwd ∧ readFile root' q cwd' = Some c)
        ∨ (sameEntry root' q cwd' path cwd ∧ readFile root' q cwd' = Some content).
Proof.
  intros Hslot. destruct (write_slot root path content cwd now Hslot)
    as (root' & Hwrite & _ & _ & Hframe).
  by exists root'.
Qed.

Lemma write_keeps_other_files_witness :
  ∃ root' : FSNode,
    writeFile sampleTree "/notes" "bye" "/" 9 = Ret (true, root')
    ∧ ∀ q cwd' c, readFile sampleTree q cwd' = Some c →
        (¬ sameEntry root' q cwd' "/notes" "/" ∧ readFile root' q cwd' = Some c)
        ∨ (sameEntry root' q cwd' "/notes" "/" ∧ readFile root' q cwd' = Some "bye").
Proof. exact (write_keeps_other_files sampleTree "/notes" "bye" "/" 9 sampleTree_slot). Defined.

(** X9. The last write wins: a second write to the same path succeeds
    and the path then reads the second content. *)
Theorem last_write_wins (root : FSNode) (path c1 c2 cwd : string) (now1 now2 : Z) :
  writableSlot root path cwd →
  ∃ root1 root2 : FSNode,
    writeFile root path c1 cwd now1 = Ret (true, root1)
    ∧ writeFile root1 path c2 cwd now2 = Ret (true, root2)
    ∧ readFile root2 path cwd = Some c2.
Proof.
  intros Hslot. destruct (write_slot root path c1 cwd now1 Hslot)
    as (root1 & Hwrite1 & _ & Hslot1 & _).
  destruct (write_slot root1 path c2 cwd now2 Hslot1)
    as (root2 & Hwrite2 & Hread2 & _ & _).
  by exists root1, root2.
Qed.

Lemma last_write_wins_witness :
  ∃ root1 root2 : FSNode,
    writeFile emptyRoot "/notes.txt" "one" "/" 1 = Ret (true, root1)
    ∧ writeFile root1 "/notes.txt" "two" "/" 2 = Ret (true, root2)
    ∧ readFile root2 "/notes.txt" "/" = Some "two".
Proof. exact (last_write_wins emptyRoot "/notes.txt" "one" "two" "/" 1 2 emptyRoot_slot). Defined.

(** *** appendFile *)

Lemma agree_update_node (g : FSNode → FSNode) :
  (∀ n, type (g n) = type n ∧ target (g n) = target n ∧ children (g n) = children n) →
  ∀ (L : Loc) (X : FSNode) (l : Loc), agree X (updateAt L g X) l.
Proof.
  intros Hg. induction L as [|l0 L IH]; intros X l.
  - cbn [updateAt]. destruct (Hg X) as (Hty & Htg & Hch).
    destruct l as [|j more].
    + unfold agree. cbn [nodeAt]. unfold shallowEq. by rewrite Hty, Htg, Hch.
    + apply TreeFacts.agree_same. cbn [nodeAt]. by rewrite Hty, Hch.
  - cbn [updateAt]. destruct (children X) as [ch|] eqn:HchX;
      [|by apply TreeFacts.agree_same].
    destruct l as [|j more].
    + unfold agree. cbn [nodeAt]. repeat split; cbn; by rewrite ?HchX.
    + unfold agree. cbn [nodeAt type children]. rewrite HchX.
      destruct (bool_decide _); [|done].
      destruct (decide (j = l0)) as [->|Hne].
      * rewrite lookup_alter_eq. destruct (ch !! l0) as [c|]; [|done]. cbn.
        apply (IH c more).
      * rewrite lookup_alter_ne by done.
        destruct (ch !! j) as [c|]; [|done].
        destruct (nodeAt c more); [apply TreeFacts.shallowEq_refl | done].
Qed.

(** X10. Appending to a path that reads as a file succeeds, and the path
    then reads the old content followed by the appended text. *)
Theorem append_appends (root : FSNode) (path old extra cwd : string) (now : Z) :
  readFile root path cwd = Some old →
  ∃ root' : FSNode,
    appendFile root path extra cwd now = Ret (true, root')
    ∧ readFile root' path cwd = Some (old +:+ extra).
Proof.
  intros (loc & node & Hwalk & Hfile & ->)%readFile_walk.
  set (Y := updateAt loc (appendContent extra now) root).
  exists Y. split.
  { unfold appendFile, resolveRef, _walk. cbn [Nat.sub]. rewrite Hwalk.
    by rewrite (bool_decide_eq_true_2 _ Hfile). }
  pose proof (TreeFacts.walkBudget_refOk _ _ _ _ _ Hwalk) as HokX.
  unfold refOk in HokX. cbn [fst snd] in HokX.
  destruct (TreeFacts.sim_walk root Y (loc ++ ["x"])) with
    (b := 21%nat) (follow := true) (parts := _resolveParts path cwd)
    (r := (loc, node)) as [nY HwalkY]; [| |done|].
  { intros l _. by apply agree_update_node. }
  { left. apply (TreeFacts.nodeAt_below_file root loc ["x"] node); done. }
  cbn [fst] in HwalkY.
  pose proof (TreeFacts.walkBudget_refOk _ _ _ _ _ HwalkY) as HokY.
  unfold refOk in HokY. cbn [fst snd] in HokY.
  unfold Y in HokY.
  rewrite (TreeFacts.nodeAt_updateAt_here _ _ _ _ HokX) in HokY.
  injection HokY as <-.
  apply readFile_walk. by exists loc, (appendContent extra now node).
Qed.

Lemma append_appends_witness :
  readFile sampleTree "/notes" "/" = Some "hello"
  ∧ ∃ root' : FSNode,
      appendFile sampleTree "/notes" " world" "/" 9 = Ret (true, root')
      ∧ readFile root' "/notes" "/" = Some "hello world".
Proof.
  split; [reflexivity|].
  exact (append_appends sampleTree "/notes" "hello" " world" "/" 9 eq_refl).
Defined.

End WriteLaws.

(** ** Removing and making directories *)

Module DirectoryLaws.

Import VirtualFileSystem TreeLaws WriteLaws.

(** *** rm *)

(** X11. Removing a path that reads as a file succeeds; the path no
    longer exists, and whatever reads as a file afterwards read the same
    before: a removal alters no other file. *)
Theorem rm_removes_only_the_entry (root : FSNode) (path content cwd : string) :
  type root = directory →
  forallb isPlain (pathParts cwd) = true →
  readFile root path cwd = Some content →
  ∃ root' : FSNode,
    rm root path cwd false = Ret (true, root')
    ∧ exists_ root' path cwd = false
    ∧ ∀ q cwd' c, readFile root' q cwd' = Some c → readFile root q cwd' = Some c.
Proof.
  intros Hroot Hcwd (l & n & Hwalk & Hfile & _)%readFile_walk.
  destruct (last (_resolveParts path cwd)) as [k|] eqn:Hlast; cycle 1.
  { apply last_None in Hlast. rewrite Hlast in Hwalk. injection Hwalk as <- <-.
    congruence. }
  pose proof (PathFacts.last_pop _ _ Hlast) as Hsplit.
  set (PP := pop (_resolveParts path cwd)) in *.
  rewrite Hsplit in Hwalk.
  destruct (WriteFacts.walk_snoc_inv _ _ _ _ Hwalk)
    as (loc & parent & ch & child & Hparent & Hdir & Hch & Hchild & Hkind).
  assert (type child ≠ directory) as Hnotdir.
  { destruct Hkind as [Hlink | [= -> ->]]; congruence. }
  set (X := updateAt loc (deleteChild k) root).
  exists X.
  assert (rm root path cwd false = Ret (true, X)) as Hrm.
  { unfold rm. rewrite WriteFacts.pathParts_resolvePath, Hlast.
    rewrite WriteFacts.resolveRef_parent by done. fold PP. rewrite Hparent.
    rewrite (bool_decide_eq_true_2 _ Hdir), Hch, Hchild. cbn [negb].
    by rewrite (bool_decide_eq_false_2 _ Hnotdir). }
  split; [exact Hrm|].
  pose proof (TreeFacts.walkBudget_refOk _ _ _ _ _ Hparent) as HokX.
  unfold refOk in HokX. cbn [fst snd] in HokX.
  assert (nodeAt X loc = Some (deleteChild k parent)) as HparentX
    by (by apply TreeFacts.nodeAt_updateAt_here).
  assert (type (deleteChild k parent) = directory
          ∧ children (deleteChild k parent) = Some (delete k ch))
    as [HdirX HchX] by (unfold deleteChild; by rewrite Hch).
  assert (nodeAt X (loc ++ [k]) = None) as Hgone.
  { rewrite (TreeFacts.nodeAt_snoc X loc k _ _ HparentX HdirX HchX).
    apply lookup_delete_eq. }
  assert (∀ parts r, walkBudget 21 X true parts = Some r →
            ∃ nY, walkBudget 21 root true parts = Some (fst r, nY)) as Hsim.
  { intros parts r. apply (TreeFacts.sim_walk X root (loc ++ [k])).
    - intros l' Hoff. apply TreeFacts.agree_sym.
      apply (TreeFacts.agree_updateAt k); [apply TreeFacts.deleteChild_editsEntry | done].
    - by left. }
  split.
  - unfold exists_. apply bool_decide_eq_false_2. intros [r Hr].
    rewrite WriteFacts.resolve_walk, Hsplit in Hr.
    destruct (walkBudget 21 X true (PP ++ [k])) as [r'|] eqn:HwalkX; [|done].
    destruct (WriteFacts.walk_snoc_inv _ _ _ _ HwalkX)
      as (loc' & parent' & ch' & child' & Hparent' & _ & Hch' & Hchild' & _).
    destruct (Hsim _ _ Hparent') as [nY HwalkY]. cbn [fst] in HwalkY.
    assert (loc' = loc) as -> by congruence.
    pose proof (TreeFacts.walkBudget_refOk _ _ _ _ _ Hparent') as Hok'.
    unfold refOk in Hok'. cbn [fst snd] in Hok'.
    assert (parent' = deleteChild k parent) as -> by congruence.
    rewrite HchX in Hch'. injection Hch' as <-.
    by rewrite lookup_delete_eq in Hchild'.
  - intros q cwd' c (l' & n' & HwalkX & Hfile' & ->)%readFile_walk.
    destruct (Hsim _ _ HwalkX) as [nR HwalkR]. cbn [fst] in HwalkR.
    pose proof (TreeFacts.walkBudget_refOk _ _ _ _ _ HwalkX) as HokX'.
    pose proof (TreeFacts.walkBudget_refOk _ _ _ _ _ HwalkR) as HokR.
    unfold refOk in HokX', HokR. cbn [fst snd] in HokX', HokR.
    assert (nodeAt X l' = nodeAt root l') as Hsame.
    { apply (nodeAt_updateAt_off k); [apply TreeFacts.deleteChild_editsEntry | |].
      - intros [rest ->]. by rewrite TreeFacts.nodeAt_app, Hgone in HokX'.
      - intros [rest ->]. destruct rest as [|j rest].
        + rewrite app_nil_r in HparentX. congruence.
        + by rewrite (TreeFacts.nodeAt_below_file X l' (j :: rest) n' HokX' Hfile')
            in HparentX. }
    apply readFile_walk. exists l', n'. split; [|done]. congruence.
Qed.

Lemma rm_removes_only_the_entry_witness :
  readFile sampleTree "/notes" "/" = Some "hello"
  ∧ ∃ root' : FSNode,
      rm sampleTree "/notes" "/" false = Ret (true, root')
      ∧ exists_ root' "/notes" "/" = false
      ∧ ∀ q cwd' c, readFile root' q cwd' = Some c → readFile sampleTree q cwd' = Some c.
Proof.
  split; [reflexivity|].
  exact (rm_removes_only_the_entry sampleTree "/notes" "hello" "/" eq_refl eq_refl eq_refl).
Defined.

(** *** mkdir *)

Lemma mkdirLoop_type (parts : list string) (now : Z) :
  ∀ current, type (snd (mkdirLoop parts now current)) = type current.
Proof.
  induction parts as [|part rest IH]; intros current; [done|].
  cbn [mkdirLoop]. destruct (children current) as [ch|] eqn:Hch; [|done].
  destruct (ch !! part) as [child|].
  - destruct (bool_decide (type child = directory)); [|done]. cbn [negb].
    destruct (mkdirLoop rest now child) as [ok child']. cbn [snd].
    unfold setChild. by rewrite Hch.
  - destruct (mkdirLoop rest now (newDirectory part now)) as [ok child']. cbn [snd].
    unfold setChild. by rewrite Hch.
Qed.

(** After a loop that returned [true] the parts lead down a chain of
    directories. *)
Lemma mkdirLoop_walk (parts : list string) (now : Z) :
  ∀ (current : FSNode) (recur : list string → option Ref) (follow : bool)
    (seen : list string) (l : Loc),
    type current = directory →
    fst (mkdirLoop parts now current) = true →
    ∃ d, walkLoop recur follow seen parts (l, snd (mkdirLoop parts now current))
         = Some (l ++ parts, d)
         ∧ type d = directory.
Proof.
  induction parts as [|part rest IH]; intros current recur follow seen l Hdir Hok.
  { exists current. by rewrite app_nil_r. }
  cbn [mkdirLoop] in Hok |- *.
  destruct (children current) as [ch|] eqn:Hch; [|done].
  assert (∀ child, type child = directory →
            fst (mkdirLoop rest now child) = true →
            ∃ d, walkLoop recur follow seen (part :: rest)
                   (l, setChild part (snd (mkdirLoop rest now child)) current)
                 = Some (l ++ part :: rest, d) ∧ type d = directory) as Hstep.
  { intros child Hchild Hrest.
    destruct (IH child recur follow (seen ++ [part]) (l ++ [part]) Hchild Hrest)
      as (d & Hwalk & Hd).
    exists d. split; [|done]. cbn [walkLoop fst snd].
    assert (type (setChild part (snd (mkdirLoop rest now child)) current) = directory)
      as Hty by (unfold setChild; by rewrite Hch).
    rewrite (bool_decide_eq_true_2 _ Hty). cbn [negb].
    unfold setChild at 1. rewrite Hch. cbn [setChildren children].
    rewrite lookup_insert_eq.
    unfold followedTarget. rewrite mkdirLoop_type, Hchild.
    rewrite bool_decide_eq_false_2 by done. cbn [andb fst snd].
    rewrite <- app_assoc in Hwalk. exact Hwalk. }
  destruct (ch !! part) as [child|] eqn:Hpart.
  - destruct (decide (type child = directory)) as [Hc|Hc];
      [rewrite (bool_decide_eq_true_2 _ Hc) in Hok |- *
      | by rewrite (bool_decide_eq_false_2 _ Hc) in Hok].
    cbn [negb] in Hok |- *.
    destruct (mkdirLoop rest now child) as [ok child'] eqn:Hloop.
    cbn [fst snd] in Hok |- *. specialize (Hstep child Hc).
    rewrite Hloop in Hstep. by apply Hstep.
  - destruct (mkdirLoop rest now (newDirectory part now)) as [ok child'] eqn:Hloop.
    cbn [fst snd] in Hok |- *. specialize (Hstep (newDirectory part now) eq_refl).
    rewrite Hloop in Hstep. by apply Hstep.
Qed.

(** Running the loop again over what it built changes nothing. *)
Lemma mkdirLoop_again (parts : list string) (now now' : Z) :
  ∀ current,
    fst (mkdirLoop parts now current) = true →
    mkdirLoop parts now' (snd (mkdirLoop parts now current))
    = (true, snd (mkdirLoop parts now current)).
Proof.
  induction parts as [|part rest IH]; intros current Hok; [done|].
  cbn [mkdirLoop] in Hok |- *.
  destruct (children current) as [ch|] eqn:Hch; [|done].
  assert (∀ child, type child = directory →
            fst (mkdirLoop rest now child) = true →
            mkdirLoop (part :: rest) now'
              (setChild part (snd (mkdirLoop rest now child)) current)
            = (true, setChild part (snd (mkdirLoop rest now child)) current)) as Hstep.
  { intros child Hchild Hrest. cbn [mkdirLoop].
    unfold setChild at 1. rewrite Hch. cbn [setChildren children].
    rewrite lookup_insert_eq, mkdirLoop_type, Hchild.
    rewrite bool_decide_eq_true_2 by done. cbn [negb].
    rewrite (IH child Hrest). f_equal.
    unfold setChild. rewrite Hch. cbn [setChildren children].
    by rewrite insert_insert_eq. }
  destruct (ch !! part) as [child|] eqn:Hpart.
  - destruct (decide (type child = directory)) as [Hc|Hc];
      [rewrite (bool_decide_eq_true_2 _ Hc) in Hok |- *
      | by rewrite (bool_decide_eq_false_2 _ Hc) in Hok].
    cbn [negb] in Hok |- *.
    specialize (Hstep child Hc).
    destruct (mkdirLoop rest now child) as [ok child'] eqn:Hloop.
    cbn [fst snd] in Hok, Hstep |- *. by apply Hstep.
  - specialize (Hstep (newDirectory part now) eq_refl).
    destruct (mkdirLoop rest now (newDirectory part now)) as [ok child'] eqn:Hloop.
    cbn [fst snd] in Hok, Hstep |- *. by apply Hstep.
Qed.

(** X12. When [mkdir] with [recursive] returns [true] the path is a
    directory afterwards, and repeating the call returns [true] and leaves
    the tree as it is. *)
Theorem mkdir_recursive_makes_directory (root root' : FSNode) (path cwd : string)
    (now now' : Z) :
  type root = directory →
  mkdir root path cwd true now = Ret (true, root') →
  isDirectory root' path cwd = true
  ∧ mkdir root' path cwd true now' = Ret (true, root').
Proof.
  intros Hroot Hmk. unfold mkdir in Hmk |- *.
  rewrite WriteFacts.pathParts_resolvePath in Hmk |- *.
  injection Hmk as Hmk.
  assert (fst (mkdirLoop (_resolveParts path cwd) now root) = true) as Hok
    by (by rewrite Hmk).
  assert (root' = snd (mkdirLoop (_resolveParts path cwd) now root)) as ->
    by (by rewrite Hmk).
  split.
  - unfold isDirectory. rewrite WriteFacts.resolve_walk.
    destruct (mkdirLoop_walk (_resolveParts path cwd) now root
                (walkBudget 20 (snd (mkdirLoop (_resolveParts path cwd) now root)) true)
                true [] [] Hroot Hok) as (d & Hwalk & Hd).
    assert (walkBudget 21 (snd (mkdirLoop (_resolveParts path cwd) now root)) true
              (_resolveParts path cwd) = Some (_resolveParts path cwd, d)) as ->
      by (rewrite WalkFacts.walkBudget_S; exact Hwalk).
    cbn. by apply bool_decide_eq_true_2.
  - f_equal. by apply mkdirLoop_again.
Qed.

Lemma mkdir_recursive_makes_directory_witness :
  ∃ root' : FSNode,
    mkdir emptyRoot "/a/b" "/" true 3 = Ret (true, root')
    ∧ isDirectory root' "/a/b" "/" = true
    ∧ mkdir root' "/a/b" "/" true 4 = Ret (true, root').
Proof.
  eexists. split; [reflexivity|].
  apply (mkdir_recursive_makes_directory emptyRoot _ "/a/b" "/" 3 4); reflexivity.
Defined.

(** X13. When [mkdir] without [recursive] returns [true] the path is a
    directory afterwards, a second call returns [false], and every path
    that read as a file still reads the same. *)
Theorem mkdir_makes_directory (root root' : FSNode) (path cwd : string) (now : Z) :
  forallb isPlain (pathParts cwd) = true →
  mkdir root path cwd false now = Ret (true, root') →
  isDirectory root' path cwd = true
  ∧ (∀ now', mkdir root' path cwd false now' = Ret (false, root'))
  ∧ ∀ q cwd' c, readFile root q cwd' = Some c → readFile root' q cwd' = Some c.
Proof.
  intros Hcwd Hmk. unfold mkdir in Hmk.
  rewrite WriteFacts.pathParts_resolvePath in Hmk.
  destruct (resolveRef root (parentPathOf path cwd) "/") as [[loc parent]|] eqn:Hparent;
    [|done].
  destruct (decide (type parent = directory)) as [Hdir|Hdir];
    [rewrite (bool_decide_eq_true_2 _ Hdir) in Hmk
    | by rewrite (bool_decide_eq_false_2 _ Hdir) in Hmk].
  cbn [negb] in Hmk.
  destruct (children parent) as [ch|] eqn:Hch; [|done].
  destruct (last (_resolveParts path cwd)) as [k|] eqn:Hlast; [|done].
  destruct (ch !! k) as [c0|] eqn:Hk.
  { rewrite bool_decide_eq_true_2 in Hmk by done. done. }
  rewrite bool_decide_eq_false_2 in Hmk by (by intros [? ?]).
  injection Hmk as <-.
  set (new := newDirectory k now).
  rewrite WriteFacts.resolveRef_parent in Hparent by done.
  assert (ch !! k = None ∨ ∃ f, ch !! k = Some f ∧ type f = file ∧ type new = file)
    as Hslot by (by left).
  pose proof (set_entry_walk_entry root _ k loc parent ch new
                Hparent Hdir Hch Hslot ltac:(done)) as Hentry.
  pose proof (set_entry_walk_parent root _ k loc parent ch new
                Hparent Hdir Hch Hslot) as HparentY.
  rewrite <- (PathFacts.last_pop _ _ Hlast) in Hentry.
  destruct (set_entry_shape k parent ch new Hdir Hch) as [HdirY HchY].
  split; [|split].
  - unfold isDirectory. rewrite WriteFacts.resolve_walk, Hentry. done.
  - intros now'. unfold mkdir.
    rewrite WriteFacts.pathParts_resolvePath, WriteFacts.resolveRef_parent by done.
    rewrite HparentY, (bool_decide_eq_true_2 _ HdirY), HchY, Hlast. cbn [negb].
    rewrite bool_decide_eq_true_2; [done|]. by rewrite lookup_insert_eq.
  - intros q cwd' c (l & n & Hwalk & Hfile & ->)%readFile_walk.
    destruct (set_entry_frame root _ k loc parent ch new
                Hparent Hdir Hch Hslot _ (l, n) Hwalk Hfile) as [HY | [Hl _]].
    + apply readFile_walk. by exists l, n.
    + cbn [fst] in Hl. subst l.
      pose proof (TreeFacts.walkBudget_refOk _ _ _ _ _ Hwalk) as Hok.
      pose proof (TreeFacts.walkBudget_refOk _ _ _ _ _ Hparent) as HokP.
      unfold refOk in Hok, HokP. cbn [fst snd] in Hok, HokP.
      rewrite (TreeFacts.nodeAt_snoc root loc k parent ch HokP Hdir Hch) in Hok.
      congruence.
Qed.

Lemma mkdir_makes_directory_witness :
  ∃ root' : FSNode,
    mkdir sampleTree "/src" "/" false 3 = Ret (true, root')
    ∧ isDirectory root' "/src" "/" = true
    ∧ (∀ now', mkdir root' "/src" "/" false now' = Ret (false, root'))
    ∧ ∀ q cwd' c, readFile sampleTree q cwd' = Some c → readFile root' q cwd' = Some c.
Proof.
  eexists. split; [reflexivity|].
  apply (mkdir_makes_directory sampleTree _ "/src" "/" 3); reflexivity.
Defined.

End DirectoryLaws.

(** ** Paths of the context, and the file handlers *)

Module ContextLaws.

Import CommandParser CommandContext StringFacts TokenizerFacts ParserLaws.

Lemma expandVars_go_plain (e : gmap string string) (cs : list ascii) :
  ∀ out, lacks "$" (JS.str cs) = true →
         expandVars_go e cs None out = out +:+ JS.str cs.
Proof.
  induction cs as [|c cs IH]; intros out Hcs.
  - cbn. by rewrite !append_empty_r.
  - change (JS.str (c :: cs)) with (String c (JS.str cs)) in *.
    rewrite lacks_cons in Hcs. apply andb_true_iff in Hcs as [Hc Hcs].
    apply negb_true_iff in Hc.
    cbn [expandVars_go flushVar]. rewrite bool_decide_eq_false_2 by (by intros [? ?]).
    cbn [andb]. rewrite Hc, append_empty_r, IH by done. by rewrite push_app.
Qed.

Lemma expandVars_plain (e : gmap string string) (s : string) :
  lacks "$" s = true → expandVars e s = s.
Proof.
  intros Hs. unfold expandVars.
  rewrite expandVars_go_plain by (by rewrite JSFacts.str_chars).
  by rewrite JSFacts.str_chars.
Qed.

Lemma expandBraced_go_plain (e : gmap string string) (cs : list ascii) :
  ∀ out, lacks "$" (JS.str cs) = true →
         expandBraced_go e cs ScanText out = out +:+ JS.str cs.
Proof.
  induction cs as [|c cs IH]; intros out Hcs.
  - cbn. by rewrite !append_empty_r.
  - change (JS.str (c :: cs)) with (String c (JS.str cs)) in *.
    rewrite lacks_cons in Hcs. apply andb_true_iff in Hcs as [Hc Hcs].
    apply negb_true_iff in Hc.
    cbn [expandBraced_go]. rewrite Hc, IH by done. by rewrite push_app.
Qed.

Lemma expandBraced_plain (e : gmap string string) (s : string) :
  lacks "$" s = true → expandBraced e s = s.
Proof.
  intros Hs. unfold expandBraced.
  rewrite expandBraced_go_plain by (by rewrite JSFacts.str_chars).
  by rewrite JSFacts.str_chars.
Qed.

Lemma expandVars_go_name (e : gmap string string) (cs : list ascii) :
  ∀ name out, forallb JS.is_word cs = true →
    expandVars_go e cs (Some name) out
    = out +:+ flushVar e (Some (name +:+ JS.str cs)).
Proof.
  induction cs as [|c cs IH]; intros name out Hcs.
  - cbn [expandVars_go JS.str string_of_list_ascii]. by rewrite append_empty_r.
  - cbn [forallb] in Hcs. apply andb_true_iff in Hcs as [Hc Hcs].
    cbn [expandVars_go]. rewrite bool_decide_eq_true_2 by done. cbn [andb].
    rewrite Hc. cbn [default]. rewrite IH by done.
    change (JS.str (c :: cs)) with (String c (JS.str cs)). by rewrite push_app.
Qed.

(** [$NAME] alone expands to the value of [NAME]. *)
Lemma expandVars_reference (e : gmap string string) (name : string) :
  isWord name = true → expandVars e ("$" +:+ name) = envOrEmpty e name.
Proof.
  intros [Hne Hname]%andb_true_iff. unfold expandVars.
  change (JS.chars ("$" +:+ name)) with ("$"%char :: JS.chars name).
  cbn [expandVars_go]. rewrite bool_decide_eq_false_2 by (by intros [? ?]).
  cbn [andb flushVar]. change (Ascii.eqb "$" "$") with true. cbv iota.
  rewrite expandVars_go_name by done.
  rewrite JSFacts.str_chars. cbn [flushVar]. change (EmptyString +:+ name) with name.
  by rewrite Hne.
Qed.

(** X14. On a path without [$] that does not start with [~] the
    context's [resolvePath] is the file system's, from the working
    directory. *)
Theorem resolvePath_without_expansion (ctx : CommandContext) (path : string) :
  lacks "$" path = true → JS.startsWith path "~" = false →
  resolvePath ctx path = VirtualFileSystem.resolvePath path (cwd ctx).
Proof.
  intros Hdollar Htilde. unfold resolvePath, expandHome. rewrite Htilde.
  by rewrite expandVars_plain, expandBraced_plain.
Qed.

Lemma resolvePath_without_expansion_witness :
  resolvePath (initial VirtualFileSystem.emptyRoot) "src/app.ts"
  = "/opt/fleetcore/src/app.ts".
Proof.
  rewrite (resolvePath_without_expansion (initial VirtualFileSystem.emptyRoot)
             "src/app.ts" eq_refl eq_refl).
  reflexivity.
Defined.

End ContextLaws.

Module HandlerLaws.

Import VirtualFileSystem CommandParser CommandContext CommandRegistry Commands.
Import CommandParser StringFacts TokenizerFacts TreeLaws WriteLaws.

(** *** cd *)

Lemma isDirectory_exists (root : FSNode) (path cwd : string) :
  isDirectory root path cwd = true → exists_ root path cwd = true.
Proof.
  unfold isDirectory, exists_. destruct (resolve root path cwd); [|done].
  intros _. by apply bool_decide_eq_true_2.
Qed.

(** X15. [cd target] into a directory sets the working directory, [PWD]
    and [OLDPWD]; a following [cd -] returns to the directory left, when
    that one is still a directory. *)
Theorem cd_dash_returns (cmd cmd' : ParsedCommand) (ctx : CommandContext)
    (target : string) (more : list string) (stdin stdin' : option string)
    (now now' : Z) :
  args cmd = target :: more → args cmd' = ["-"] →
  JS.truthy target = true → target ≠ "-" →
  isDirectory (fs ctx) (resolvePath ctx target) "/" = true →
  JS.truthy (cwd ctx) = true →
  isDirectory (fs ctx) (cwd ctx) "/" = true →
  ∃ ctx1 ctx2 : CommandContext,
    handleCd cmd ctx stdin now = Returned (result EmptyString 0) ctx1
    ∧ cwd ctx1 = resolvePath ctx target
    ∧ env ctx1 !! "PWD" = Some (resolvePath ctx target)
    ∧ env ctx1 !! "OLDPWD" = Some (cwd ctx)
    ∧ handleCd cmd' ctx1 stdin' now' = Returned (result EmptyString 0) ctx2
    ∧ cwd ctx2 = cwd ctx
    ∧ env ctx2 !! "PWD" = Some (cwd ctx)
    ∧ env ctx2 !! "OLDPWD" = Some (resolvePath ctx target)
    ∧ fs ctx2 = fs ctx.
Proof.
  intros Hargs Hargs' Htruthy Hdash Hdir Hcwd Hback.
  set (there := resolvePath ctx target) in *.
  set (ctx1 := {| cwd := there;
                  env := <["PWD" := there]> (<["OLDPWD" := cwd ctx]> (env ctx));
                  fs := fs ctx; CommandContext.exitCode := CommandContext.exitCode ctx;
                  user := user ctx; hostname := hostname ctx |}).
  set (ctx2 := {| cwd := cwd ctx;
                  env := <["PWD" := cwd ctx]> (<["OLDPWD" := there]> (env ctx1));
                  fs := fs ctx; CommandContext.exitCode := CommandContext.exitCode ctx;
                  user := user ctx; hostname := hostname ctx |}).
  assert (env ctx1 !! "OLDPWD" = Some (cwd ctx)) as Hold
    by (unfold ctx1; cbn [env]; by rewrite lookup_insert_ne, lookup_insert_eq).
  exists ctx1, ctx2. split.
  { unfold handleCd. rewrite Hargs, Htruthy.
    rewrite (proj2 (String.eqb_neq target "-") Hdash). fold there.
    by rewrite (isDirectory_exists _ _ _ Hdir), Hdir. }
  split; [done|].
  split; [unfold ctx1; cbn [env]; by rewrite lookup_insert_eq|].
  split; [exact Hold|].
  split.
  { unfold handleCd. rewrite Hargs'. cbn [JS.truthy].
    change (String.eqb "-" "-") with true. cbv iota.
    rewrite Hold, Hcwd.
    change (fs ctx1) with (fs ctx).
    by rewrite (isDirectory_exists _ _ _ Hback), Hback. }
  split; [done|].
  split; [unfold ctx2; cbn [env]; by rewrite lookup_insert_eq|].
  split; [unfold ctx2; cbn [env]; by rewrite lookup_insert_ne, lookup_insert_eq|].
  done.
Qed.

Lemma cd_dash_returns_witness :
  ∃ ctx1 ctx2 : CommandContext,
    handleCd (PipelineExecutor.plainCommand "cd" ["/opt"]) (initial mvSampleRoot) None 0%Z
    = Returned (result EmptyString 0%Z) ctx1
    ∧ cwd ctx1 = "/opt"
    ∧ env ctx1 !! "PWD" = Some "/opt"
    ∧ env ctx1 !! "OLDPWD" = Some "/opt/fleetcore"
    ∧ handleCd (PipelineExecutor.plainCommand "cd" ["-"]) ctx1 None 0%Z = Returned (result EmptyString 0%Z) ctx2
    ∧ cwd ctx2 = "/opt/fleetcore"
    ∧ env ctx2 !! "PWD" = Some "/opt/fleetcore"
    ∧ env ctx2 !! "OLDPWD" = Some "/opt"
    ∧ fs ctx2 = mvSampleRoot.
Proof.
  exact (cd_dash_returns (PipelineExecutor.plainCommand "cd" ["/opt"]) (PipelineExecutor.plainCommand "cd" ["-"])
           (initial mvSampleRoot) "/opt" [] None None 0%Z 0%Z
           eq_refl eq_refl eq_refl ltac:(discriminate) eq_refl eq_refl eq_refl).
Defined.

(** *** touch *)

Lemma touchLoop_existing (todo : list string) (ctx : CommandContext) (now : Z) :
  Forall (fun arg => exists_ (fs ctx) (resolvePath ctx arg) "/" = true) todo →
  touchLoop todo ctx now = Returned (result EmptyString 0%Z) ctx.
Proof.
  induction 1 as [|arg rest Harg _ IH]; [done|].
  cbn [touchLoop]. by rewrite Harg.
Qed.

(** X16. [touch] on paths that all exist changes nothing: no content, no
    stamp. *)
Theorem touch_leaves_existing_alone (cmd : ParsedCommand) (ctx : CommandContext)
    (stdin : option string) (now : Z) :
  args cmd ≠ [] →
  Forall (fun arg => exists_ (fs ctx) (resolvePath ctx arg) "/" = true) (args cmd) →
  handleTouch cmd ctx stdin now = Returned (result EmptyString 0%Z) ctx.
Proof.
  intros Hne Hall. unfold handleTouch.
  destruct (args cmd) as [|a rest] eqn:Hargs; [done|].
  by apply touchLoop_existing.
Qed.

Lemma touch_leaves_existing_alone_witness :
  handleTouch (PipelineExecutor.plainCommand "touch" ["a.txt"; "/opt"]) (initial mvSampleRoot) None 7%Z
  = Returned (result EmptyString 0%Z) (initial mvSampleRoot).
Proof.
  apply (touch_leaves_existing_alone (PipelineExecutor.plainCommand "touch" ["a.txt"; "/opt"])
           (initial mvSampleRoot) None 7%Z); [discriminate|].
  repeat constructor.
Defined.

(** *** cp *)

Lemma writableSlot_not_directory (root : FSNode) (path cwd : string) :
  writableSlot root path cwd → isDirectory root path cwd = false.
Proof.
  intros (Hcwd & k & loc & parent & ch & Hlast & Hparent & Hdir & Hch & Hslot).
  rewrite WriteFacts.resolveRef_parent in Hparent by done.
  unfold isDirectory. rewrite WriteFacts.resolve_walk.
  rewrite (PathFacts.last_pop _ _ Hlast), WriteFacts.walk_snoc, Hparent.
  cbn [walkLoop fst snd]. rewrite (bool_decide_eq_true_2 _ Hdir), Hch. cbn [negb].
  destruct Hslot as [-> | (f & -> & Hf)]; [done|].
  unfold followedTarget. rewrite Hf.
  rewrite (bool_decide_eq_false_2 (VirtualFileSystem.file = symlink)) by done.
  cbn [andb walkLoop fmap option_fmap option_map snd].
  rewrite bool_decide_eq_false_2; [done|]. by rewrite Hf.
Qed.

(** X17. [cp src dest] of a file onto a writable slot returns exit code 0,
    and afterwards both paths read the content of [src]. *)
Theorem cp_copies (cmd : ParsedCommand) (ctx : CommandContext)
    (stdin : option string) (now : Z) (arg0 arg1 : string) (more : list string)
    (content : string) :
  args cmd = arg0 :: arg1 :: more →
  readFile (fs ctx) (resolvePath ctx arg0) "/" = Some content →
  writableSlot (fs ctx) (resolvePath ctx arg1) "/" →
  ∃ root' : FSNode,
    handleCp cmd ctx stdin now = Returned (result EmptyString 0%Z) (withFs ctx root')
    ∧ readFile root' (resolvePath ctx arg1) "/" = Some content
    ∧ readFile root' (resolvePath ctx arg0) "/" = Some content.
Proof.
  intros Hargs Hread Hslot.
  destruct (write_slot (fs ctx) (resolvePath ctx arg1) content "/" now Hslot)
    as (root' & Hwrite & Hdest & _ & Hframe).
  exists root'. split.
  { unfold handleCp. rewrite Hargs, Hread.
    rewrite (writableSlot_not_directory _ _ _ Hslot), Hwrite. reflexivity. }
  split; [exact Hdest|].
  by destruct (Hframe _ _ _ Hread) as [[_ ?]|[_ ?]].
Qed.

Lemma mvSampleRoot_slot :
  writableSlot mvSampleRoot "/opt/fleetcore/b.txt" "/".
Proof.
  split; [reflexivity|]. do 4 eexists.
  split; [reflexivity|]. split; [reflexivity|]. split; [reflexivity|].
  split; [reflexivity|]. left. reflexivity.
Qed.

Lemma cp_copies_witness :
  ∃ root' : FSNode,
    handleCp (PipelineExecutor.plainCommand "cp" ["a.txt"; "b.txt"]) (initial mvSampleRoot) None 7%Z
    = Returned (result EmptyString 0%Z) (withFs (initial mvSampleRoot) root')
    ∧ readFile root' "/opt/fleetcore/b.txt" "/" = Some "data"
    ∧ readFile root' "/opt/fleetcore/a.txt" "/" = Some "data".
Proof.
  exact (cp_copies (PipelineExecutor.plainCommand "cp" ["a.txt"; "b.txt"]) (initial mvSampleRoot) None 7%Z
           "a.txt" "b.txt" [] "data" eq_refl eq_refl mvSampleRoot_slot).
Defined.

End HandlerLaws.

(** ** Running lines *)

Module ExecutorLaws.

Import VirtualFileSystem CommandParser CommandContext CommandRegistry PipelineExecutor.
Import CommandParser StringFacts TokenizerFacts ParserLaws ContextLaws WriteLaws.

Lemma includes_absent (s : string) (c : ascii) :
  lacks c s = true → JS.includes s (String c EmptyString) = false.
Proof.
  induction s as [|x s IH]; [done|]. rewrite lacks_cons.
  intros [Hx Hs]%andb_true_iff. apply negb_true_iff in Hx.
  cbn [JS.includes JS.startsWith]. rewrite Hx. cbn [andb orb].
  exact (IH Hs).
Qed.

Lemma isWord_lacks (s : string) (c : ascii) :
  JS.is_word c = false → forallb JS.is_word (JS.chars s) = true → lacks c s = true.
Proof.
  intros Hc. unfold lacks. induction (JS.chars s) as [|x cs IH]; [done|].
  cbn [forallb]. intros [Hx Hcs]%andb_true_iff. rewrite IH by done.
  rewrite andb_true_r. apply negb_true_iff, Ascii.eqb_neq. congruence.
Qed.

(** A word is its own trimming and its own only token. *)
Lemma word_trim (w : string) : isWord w = true → JS.trim w = w.
Proof.
  intros [_ Hw]%andb_true_iff. rewrite forallb_forall in Hw.
  apply trim_id; intros c Hc.
  - assert (In c (JS.chars w)) as Hin
      by (destruct (JS.chars w); [done | injection Hc as ->; by left]).
    by destruct (is_word_ordinary c (Hw c Hin)) as (_ & _ & _ & _ & _ & _ & _ & _ & _ & _ & ?).
  - assert (In c (JS.chars w)) as Hin.
    { apply list_elem_of_In. by apply last_Some_elem_of. }
    by destruct (is_word_ordinary c (Hw c Hin)) as (_ & _ & _ & _ & _ & _ & _ & _ & _ & _ & ?).
Qed.

Lemma word_tokenize (w : string) : isWord w = true → tokenize w = [w].
Proof.
  intros Hw. pose proof Hw as [Hne Hchars]%andb_true_iff.
  rewrite tokenize_plain.
  - rewrite split_free.
    + unfold JS.filter_truthy. cbn. by rewrite Hne.
    + apply lacks_spec. by apply isWord_lacks.
  - unfold quoteFree. by rewrite !isWord_lacks.
Qed.

Lemma word_parse (w : string) :
  isWord w = true →
  parse w = {| commands := [plainCommand w []]; operators := [] |}.
Proof.
  intros Hw. pose proof Hw as [Hne Hchars]%andb_true_iff.
  unfold parse.
  rewrite splitPipeline_no_operator by (unfold operatorFree; by rewrite !isWord_lacks).
  unfold pushCommand. rewrite word_trim, Hne by done.
  cbn. f_equal. f_equal.
  unfold parseCommand. by rewrite word_tokenize.
Qed.

(** X18. A line that is a single word no handler is registered for:
    the result is [word: command not found] with exit code 127, and the
    context is left as it was. *)
Theorem unknown_command_not_found (registry : CommandRegistry.CommandRegistry)
    (w : string) (ctx : CommandContext) (now : Z) :
  isWord w = true → get registry w = None →
  execute registry w ctx now
  = Some (result (w +:+ ": command not found") 127, ctx).
Proof.
  intros Hw Hget. pose proof Hw as [Hne Hchars]%andb_true_iff.
  unfold execute. rewrite word_parse by done. cbn [commands operators].
  unfold executeCommand. cbn [plainCommand command]. rewrite Hne. cbn [negb].
  rewrite (includes_absent w "=") by (by apply isWord_lacks). cbn [andb].
  by rewrite Hget.
Qed.

Lemma unknown_command_not_found_witness :
  execute Commands.coreRegistry "frobnicate" (initial emptyRoot) 0
  = Some (result "frobnicate: command not found" 127, initial emptyRoot).
Proof.
  exact (unknown_command_not_found Commands.coreRegistry "frobnicate"
           (initial emptyRoot) 0 eq_refl eq_refl).
Defined.

(** *** Pipes *)

Lemma lookup_all {A} (x : A) (l : list A) (i : nat) (y : A) :
  Forall (eq x) l → l !! i = Some y → y = x.
Proof. intros Hall Hi. by apply (Forall_lookup_1 _ _ _ _ Hall) in Hi. Qed.

Lemma pipelineLoop_piped (registry : CommandRegistry.CommandRegistry)
    (ops : list Operator) (now : Z) :
  Forall (eq OpPipe) ops →
  ∀ (todo : list ParsedCommand) (i : nat) (lastResult : CommandResult)
    (ctx : CommandContext),
    (i + length todo ≤ length ops)%nat →
    pipelineLoop registry ops todo (S i) lastResult
      (Some (CommandRegistry.output lastResult)) ctx now
    = runPiped registry todo lastResult (Some (CommandRegistry.output lastResult)) ctx now.
Proof.
  intros Hops. induction todo as [|cmd todo IH]; intros i lastResult ctx Hlen; [done|].
  cbn [pipelineLoop runPiped length] in *.
  change (0 <? S i)%nat with true. cbv iota.
  replace (S i - 1)%nat with i by lia.
  destruct (lookup_lt_is_Some_2 ops i ltac:(lia)) as [op Hop].
  rewrite Hop, (lookup_all _ _ _ _ Hops Hop).
  rewrite (bool_decide_eq_false_2 (Some OpPipe = Some OpAnd)) by done.
  rewrite (bool_decide_eq_false_2 (Some OpPipe = Some OpOr)) by done.
  cbn [andb].
  destruct (executeCommand registry cmd ctx _ now) as [[res ctx']|]; [|done].
  rewrite (bool_decide_eq_true_2 (Some OpPipe = Some OpPipe)) by done.
  assert ((if bool_decide (ops !! S i = Some OpPipe)
           then Some (CommandRegistry.output res)
           else Some (CommandRegistry.output res))
          = Some (CommandRegistry.output res)) as -> by (by destruct (bool_decide _)).
  apply IH. lia.
Qed.

(** X19. A pipeline whose operators are all [|], with no command missing
    between them: the first command reads no input, every other command
    reads the output of the one before, in the context that one left. *)
Theorem pipes_thread_outputs (registry : CommandRegistry.CommandRegistry)
    (pipeline : Pipeline) (ctx : CommandContext) (now : Z) :
  Forall (eq OpPipe) (operators pipeline) →
  length (commands pipeline) = S (length (operators pipeline)) →
  executePipeline registry pipeline ctx now
  = runPiped registry (commands pipeline) (result EmptyString 0) None ctx now.
Proof.
  intros Hops Hlen. unfold executePipeline.
  destruct (commands pipeline) as [|cmd todo]; [done|].
  cbn [pipelineLoop runPiped length] in *.
  change (0 <? 0)%nat with false. cbv iota.
  rewrite (bool_decide_eq_false_2 (None = Some OpAnd)) by done.
  rewrite (bool_decide_eq_false_2 (None = Some OpOr)) by done.
  cbn [andb].
  destruct (executeCommand registry cmd ctx None now) as [[res ctx']|]; [|done].
  rewrite (bool_decide_eq_false_2 (None = Some OpPipe)) by done.
  destruct todo as [|cmd2 todo]; [done|].
  destruct (lookup_lt_is_Some_2 (operators pipeline) 0 ltac:(cbn in Hlen; lia))
    as [op Hop].
  rewrite Hop, (lookup_all _ _ _ _ Hops Hop).
  rewrite bool_decide_eq_true_2 by done.
  apply (pipelineLoop_piped registry (operators pipeline) now Hops).
  cbn [length] in *. lia.
Qed.

Lemma pipes_thread_outputs_witness :
  executePipeline Commands.coreRegistry
    {| commands := [plainCommand "echo" ["a b"]; plainCommand "wc" []; plainCommand "true" []];
       operators := [OpPipe; OpPipe] |} (initial emptyRoot) 0%Z
  = runPiped Commands.coreRegistry
      [plainCommand "echo" ["a b"]; plainCommand "wc" []; plainCommand "true" []]
      (result EmptyString 0%Z) None (initial emptyRoot) 0%Z.
Proof.
  apply (pipes_thread_outputs Commands.coreRegistry
           {| commands := [plainCommand "echo" ["a b"]; plainCommand "wc" [];
                           plainCommand "true" []];
              operators := [OpPipe; OpPipe] |} (initial emptyRoot) 0%Z);
    [repeat constructor | reflexivity].
Defined.

(** X20. The input of a pipe outlives the pipe: in [a | b ; c] the
    command [c] is run with the output of [b] as its standard input. *)
Theorem pipe_input_leaks_past_semicolon (registry : CommandRegistry.CommandRegistry)
    (a b c : ParsedCommand) (ctx : CommandContext) (now : Z) :
  executePipeline registry
    {| commands := [a; b; c]; operators := [OpPipe; OpSemi] |} ctx now
  = match executeCommand registry a ctx None now with
    | None => None
    | Some (ra, ctx1) =>
        match executeCommand registry b ctx1 (Some (CommandRegistry.output ra)) now with
        | None => None
        | Some (rb, ctx2) =>
            executeCommand registry c ctx2 (Some (CommandRegistry.output rb)) now
        end
    end.
Proof.
  unfold executePipeline. cbn [commands operators pipelineLoop].
  change (0 <? 0)%nat with false. cbv iota.
  rewrite (bool_decide_eq_false_2 (None = Some OpAnd)) by done.
  rewrite (bool_decide_eq_false_2 (None = Some OpOr)) by done.
  cbn [andb].
  destruct (executeCommand registry a ctx None now) as [[ra ctx1]|]; [|done].
  cbn. destruct (executeCommand registry b ctx1 _ now) as [[rb ctx2]|]; [|done].
  cbn. by destruct (executeCommand registry c ctx2 _ now) as [[rc ctx3]|].
Qed.

End ExecutorLaws.

(** ** Redirection, variables and [uniq] *)

Module ShellLaws.

Import VirtualFileSystem CommandParser CommandContext CommandRegistry PipelineExecutor.
Import CommandParser StringFacts TokenizerFacts ParserLaws ContextLaws WriteLaws.
Import ExecutorLaws.

(** *** Redirection *)

(** X21. [cmd > file] onto a writable slot: the result is empty, with the
    exit code of the handler, and [cat file] then prints the output of the
    handler followed by a line feed. *)
Theorem redirect_then_cat (registry : CommandRegistry.CommandRegistry)
    (cmd cat : ParsedCommand) (ctx ctx1 : CommandContext) (stdin stdin' : option string)
    (now now' : Z) (handler : CommandHandler) (res : CommandResult) (f : string) :
  JS.truthy (command cmd) = true →
  JS.includes (command cmd) "=" = false →
  get registry (command cmd) = Some handler →
  handler cmd ctx stdin now = Returned res ctx1 →
  outputRedirect cmd = Some {| file := f; append := false |} →
  writableSlot (fs ctx1) (resolvePath ctx1 f) "/" →
  args cat = [f] →
  ∃ root' : FSNode,
    let ctx2 := withFs (withExitCode ctx1 (CommandRegistry.exitCode res)) root' in
    executeCommand registry cmd ctx stdin now
    = Some (result EmptyString (CommandRegistry.exitCode res), ctx2)
    ∧ Commands.handleCat cat ctx2 stdin' now'
      = Returned (Commands.result (CommandRegistry.output res +:+ JS.of_char "010") 0) ctx2.
Proof.
  intros Hname Hassign Hget Hrun Hredir Hslot Hcat.
  destruct (write_slot (fs ctx1) (resolvePath ctx1 f)
              (CommandRegistry.output res +:+ JS.of_char "010") "/" now Hslot)
    as (root' & Hwrite & Hread & _ & _).
  exists root'. cbv zeta. split.
  - unfold executeCommand. rewrite Hname, Hassign, Hget, Hrun. cbn [negb andb].
    unfold applyRedirect. rewrite Hredir. cbn [file append].
    change (resolvePath (withExitCode ctx1 (CommandRegistry.exitCode res)) f)
      with (resolvePath ctx1 f).
    change (fs (withExitCode ctx1 (CommandRegistry.exitCode res))) with (fs ctx1).
    by rewrite Hwrite.
  - unfold Commands.handleCat. rewrite Hcat. cbn [Commands.catLoop].
    change (resolvePath (withFs (withExitCode ctx1 (CommandRegistry.exitCode res)) root') f)
      with (resolvePath ctx1 f).
    change (fs (withFs (withExitCode ctx1 (CommandRegistry.exitCode res)) root'))
      with root'.
    by rewrite Hread.
Qed.

Lemma redirect_then_cat_witness :
  ∃ root' : FSNode,
    executeCommand Commands.coreRegistry
      {| command := "echo"; args := ["hi"]; rawArgs := "hi"; flags := ∅;
         inputRedirect := None;
         outputRedirect := Some {| file := "/notes.txt"; append := false |} |}
      (initial emptyRoot) None 0%Z
    = Some (result EmptyString 0%Z, withFs (withExitCode (initial emptyRoot) 0%Z) root')
    ∧ Commands.handleCat (plainCommand "cat" ["/notes.txt"])
        (withFs (withExitCode (initial emptyRoot) 0%Z) root') None 0%Z
      = Returned (Commands.result ("hi" +:+ JS.of_char "010") 0%Z)
          (withFs (withExitCode (initial emptyRoot) 0%Z) root').
Proof.
  exact (redirect_then_cat Commands.coreRegistry
           {| command := "echo"; args := ["hi"]; rawArgs := "hi"; flags := ∅;
              inputRedirect := None;
              outputRedirect := Some {| file := "/notes.txt"; append := false |} |}
           (plainCommand "cat" ["/notes.txt"])
           (initial emptyRoot) (initial emptyRoot) None None 0%Z 0%Z
           Commands.handleEcho (Commands.result "hi" 0%Z) "/notes.txt"
           eq_refl eq_refl eq_refl eq_refl eq_refl emptyRoot_slot eq_refl).
Defined.

(** *** Variables *)

Lemma isIdentifier_word (name : string) :
  isIdentifier name = true → isWord name = true.
Proof.
  destruct name as [|c rest]; [done|]. cbn [isIdentifier].
  intros [[Hc _]%andb_true_iff Hrest]%andb_true_iff.
  unfold isWord. cbn [JS.truthy JS.chars list_ascii_of_string forallb].
  by rewrite Hc.
Qed.

(** X22. [NAME=value] typed as a command sets the variable and returns
    exit code 0; [echo $NAME] then prints the value (a value without [$];
    the name [__proto__] is left out, an assignment to that key of a
    plain object stores nothing). *)
Theorem assignment_then_echo (registry : CommandRegistry.CommandRegistry)
    (assign : ParsedCommand) (ctx : CommandContext) (stdin stdin' : option string)
    (now now' : Z) (name value : string) :
  isIdentifier name = true → name ≠ "__proto__" → lacks "$" value = true →
  command assign = name +:+ "=" +:+ value →
  get registry "echo" = Some Commands.handleEcho →
  let ctx1 := withEnv ctx (<[name := value]> (env ctx)) in
  executeCommand registry assign ctx stdin now = Some (result EmptyString 0, ctx1)
  ∧ executeCommand registry (plainCommand "echo" ["$" +:+ name]) ctx1 stdin' now'
    = Some (result value 0, withExitCode ctx1 0).
Proof.
  intros Hid Hproto Hvalue Hassign Hecho. cbv zeta.
  pose proof (isIdentifier_word name Hid) as Hword.
  pose proof Hword as [Hne Hchars]%andb_true_iff.
  assert (lacks "=" name = true) as Heq by (by apply isWord_lacks).
  split.
  - unfold executeCommand. rewrite Hassign.
    assert (JS.truthy (name +:+ "=" +:+ value) = true) as ->
      by (by rewrite truthy_app, Hne).
    cbn [negb].
    assert (JS.includes (name +:+ "=" +:+ value) "=" = true) as ->.
    { clear -Heq. induction name as [|c name IH]; [done|].
      rewrite lacks_cons in Heq. apply andb_true_iff in Heq as [Hc Hname].
      apply negb_true_iff in Hc.
      change (String c name +:+ "=" +:+ value) with (String c (name +:+ "=" +:+ value)).
      cbn [JS.includes JS.startsWith]. rewrite Hc. cbn [andb orb]. by apply IH. }
    assert (JS.startsWith (name +:+ "=" +:+ value) "=" = false) as ->.
    { destruct name as [|c name]; [done|].
      rewrite lacks_cons in Heq. apply andb_true_iff in Heq as [Hc _].
      apply negb_true_iff in Hc.
      change (String c name +:+ "=" +:+ value) with (String c (name +:+ "=" +:+ value)).
      cbn [JS.startsWith]. by rewrite Hc. }
    cbn [negb andb]. cbv zeta.
    change ("=" +:+ value) with (String "=" value).
    rewrite indexOf_first by (by apply lacks_spec).
    rewrite slice_prefix.
    replace (JS.length name + 1)%Z with (JS.length (name +:+ "=")).
    + change (name +:+ String "=" value) with (name +:+ "=" +:+ value) at 1.
      rewrite <- (append_assoc name "=" value), slice_from_suffix. rewrite Hid.
      unfold VirtualFileSystem.objectSet.
      by rewrite (proj2 (String.eqb_neq name "__proto__") Hproto).
    + by rewrite JSFacts.length_app.
  - unfold executeCommand. cbn [plainCommand command JS.truthy negb].
    change (JS.includes "echo" "=") with false. cbn [andb].
    rewrite Hecho. unfold Commands.handleEcho.
    cbn [args plainCommand JS.join flags]. unfold Commands.flagIsTrue.
    cbn [flags plainCommand]. rewrite lookup_empty.
    rewrite bool_decide_eq_false_2 by done.
    cbn [env withEnv].
    rewrite expandVars_reference by done.
    unfold envOrEmpty. rewrite lookup_insert_eq. cbn [default].
    rewrite expandBraced_plain by done.
    unfold applyRedirect. cbn [outputRedirect]. done.
Qed.

Lemma assignment_then_echo_witness :
  executeCommand Commands.coreRegistry (plainCommand "GREETING=hello" [])
    (initial emptyRoot) None 0%Z
  = Some (result EmptyString 0%Z,
          withEnv (initial emptyRoot) (<["GREETING" := "hello"]> (env (initial emptyRoot))))
  ∧ executeCommand Commands.coreRegistry (plainCommand "echo" ["$GREETING"])
      (withEnv (initial emptyRoot) (<["GREETING" := "hello"]> (env (initial emptyRoot))))
      None 0%Z
    = Some (result "hello" 0%Z,
            withExitCode
              (withEnv (initial emptyRoot)
                 (<["GREETING" := "hello"]> (env (initial emptyRoot)))) 0%Z).
Proof.
  exact (assignment_then_echo Commands.coreRegistry (plainCommand "GREETING=hello" [])
           (initial emptyRoot) None None 0%Z 0%Z "GREETING" "hello"
           eq_refl ltac:(discriminate) eq_refl eq_refl eq_refl).
Defined.

(** *** uniq *)

Import Commands.

Lemma uniqLoop_sorted (lines : list string) :
  ∀ prev, Sorted (fun a b => a ≠ b) (uniqLoop lines prev)
          ∧ HdRel (fun a b => a ≠ b) prev (uniqLoop lines prev).
Proof.
  induction lines as [|line rest IH]; intros prev; [by split; constructor|].
  cbn [uniqLoop]. destruct (String.eqb line prev) eqn:Heq; cbn [negb].
  - apply IH.
  - apply String.eqb_neq in Heq. destruct (IH line) as [Hs Hh].
    split; constructor; done.
Qed.

Lemma uniqLoop_fixed (lines : list string) :
  ∀ prev, Sorted (fun a b => a ≠ b) lines → HdRel (fun a b => a ≠ b) prev lines →
          uniqLoop lines prev = lines.
Proof.
  induction lines as [|line rest IH]; intros prev Hs Hh; [done|].
  inversion Hs; subst. inversion Hh; subst. cbn [uniqLoop].
  rewrite (proj2 (String.eqb_neq line prev)) by done. cbn [negb].
  by rewrite IH.
Qed.

Lemma uniqLoop_pieces (sep : ascii) (lines : list string) :
  ∀ prev, Forall (JS.free sep) lines → Forall (JS.free sep) (uniqLoop lines prev).
Proof.
  induction lines as [|line rest IH]; intros prev Hl; [done|].
  inversion Hl; subst. cbn [uniqLoop].
  destruct (negb (String.eqb line prev)); [constructor|]; by try apply IH.
Qed.

Lemma sorted_distinctNeighbours (l : list string) :
  Sorted (fun a b => a ≠ b) l → distinctNeighbours l.
Proof.
  induction 1 as [|x l Hs IH Hh]; intros i a b Ha Hb; [done|].
  destruct i as [|i].
  - cbn in Ha, Hb. injection Ha as <-. destruct l as [|y l]; [done|].
    cbn in Hb. injection Hb as <-. by inversion Hh.
  - by apply (IH i).
Qed.

Lemma handleUniq_output (cmd : ParsedCommand) (ctx : CommandContext)
    (stdin : option string) (now : Z) :
  handleUniq cmd ctx stdin now
  = Returned (result (uniqOutput (default EmptyString stdin)) 0) ctx.
Proof. unfold handleUniq, uniqOutput. by destruct (negb _). Qed.

Lemma uniqOutput_lines (text : string) :
  uniqOutput text = EmptyString
  ∨ (uniqLoop (JS.split "010" text) EmptyString ≠ []
     ∧ JS.split "010" (uniqOutput text) = uniqLoop (JS.split "010" text) EmptyString).
Proof.
  unfold uniqOutput. destruct (negb (JS.truthy text)); [by left|].
  destruct (uniqLoop (JS.split "010" text) EmptyString) as [|l ls] eqn:Hloop; [by left|].
  right. split; [done|]. rewrite <- Hloop. apply split_join_any.
  - apply uniqLoop_pieces, split_pieces_free.
  - by rewrite Hloop.
Qed.

Lemma uniqOutput_unfold (text : string) :
  uniqOutput text
  = if negb (JS.truthy text) then EmptyString
    else JS.join (JS.of_char "010") (uniqLoop (JS.split "010" text) EmptyString).
Proof. reflexivity. Qed.

Lemma uniqOutput_idempotent (text : string) :
  uniqOutput (uniqOutput text) = uniqOutput text.
Proof.
  destruct (uniqOutput_lines text) as [Hempty | [Hne Hlines]].
  - by rewrite Hempty.
  - destruct (uniqLoop_sorted (JS.split "010" text) EmptyString) as [Hs Hh].
    rewrite (uniqOutput_unfold (uniqOutput text)).
    rewrite Hlines, uniqLoop_fixed by done.
    destruct (JS.truthy (uniqOutput text)) eqn:Ht; cbn [negb].
    + rewrite (uniqOutput_unfold text) in Ht |- *.
      by destruct (negb (JS.truthy text)).
    + by destruct (uniqOutput text).
Qed.

(** X23. [uniq] is idempotent, and no two neighbouring lines of its
    output are equal. *)
Theorem uniq_idempotent (cmd cmd' : ParsedCommand) (ctx : CommandContext)
    (stdin : option string) (now now' : Z) :
  ∃ out : string,
    handleUniq cmd ctx stdin now = Returned (result out 0) ctx
    ∧ handleUniq cmd' ctx (Some out) now' = Returned (result out 0) ctx
    ∧ distinctNeighbours (JS.split "010" out).
Proof.
  set (text := default EmptyString stdin).
  exists (uniqOutput text).
  split; [apply handleUniq_output|].
  split.
  { rewrite handleUniq_output.
    change (default EmptyString (Some (uniqOutput text))) with (uniqOutput text).
    by rewrite uniqOutput_idempotent. }
  destruct (uniqOutput_lines text) as [Hempty | [Hne Hlines]].
  - rewrite Hempty. by intros [|i] a b.
  - destruct (uniqLoop_sorted (JS.split "010" text) EmptyString) as [Hs Hh].
    rewrite Hlines. by apply sorted_distinctNeighbours.
Qed.

End ShellLaws.

(** ** Editing the line *)

Module EditorLaws.

Import InputBuffer StringFacts.
Local Open Scope Z_scope.

(** The state after [insert] when the line is [a] before the cursor and
    [b] after it. *)
Lemma insert_at (text a b : string) (st : InputBuffer) :
  buffer st = a +:+ b → cursorPos st = JS.length a →
  buffer (snd (insert text st)) = a +:+ text +:+ b
  ∧ cursorPos (snd (insert text st)) = JS.length a + JS.length text
  ∧ history (snd (insert text st)) = history st
  ∧ historyIndex (snd (insert text st)) = historyIndex st.
Proof.
  intros Hbuf Hcur. unfold insert. rewrite Hbuf, Hcur.
  rewrite slice_prefix, slice_from_suffix.
  by destruct (0 <? JS.length b).
Qed.

(** X24. Backspace undoes the insertion of one character: the line and
    the cursor are as before. *)
Theorem backspace_undoes_insert (c : ascii) (st : InputBuffer) :
  0 ≤ cursorPos st ≤ JS.length (buffer st) →
  let st1 := snd (insert (JS.of_char c) st) in
  buffer (snd (backspace st1)) = buffer st
  ∧ cursorPos (snd (backspace st1)) = cursorPos st.
Proof.
  intros Hcur. cbv zeta.
  destruct (cut_at (buffer st) (cursorPos st) Hcur) as (a & b & Hbuf & Hlen & _).
  destruct (insert_at (JS.of_char c) a b st Hbuf (eq_sym Hlen)) as (Hb1 & Hc1 & _).
  set (st1 := snd (insert (JS.of_char c) st)) in *.
  change (JS.length (JS.of_char c)) with 1 in Hc1.
  pose proof (JSFacts.length_nonneg a).
  unfold backspace. rewrite Hb1, Hc1.
  destruct (Z.eqb_spec (JS.length a + 1) 0); [lia|].
  replace (JS.length a + 1 - 1) with (JS.length a) by lia.
  rewrite slice_prefix.
  replace (JS.length a + 1) with (JS.length (a +:+ JS.of_char c))
    by (by rewrite JSFacts.length_app).
  rewrite <- (append_assoc a (JS.of_char c) b), slice_from_suffix.
  destruct (0 <? JS.length b); cbn [snd withLine buffer cursorPos];
    rewrite Hbuf, <- Hlen; split; (done || lia).
Qed.

Lemma backspace_undoes_insert_witness :
  buffer (snd (backspace (snd (insert (JS.of_char "l") initial)))) = EmptyString
  ∧ cursorPos (snd (backspace (snd (insert (JS.of_char "l") initial)))) = 0.
Proof.
  exact (backspace_undoes_insert "l" initial ltac:(vm_compute; split; discriminate)).
Defined.

(** *** insertText *)

Lemma insertText_fold (cs : list ascii) :
  ∀ (a acc b : string) (out : string) (st : InputBuffer),
    buffer st = a +:+ acc +:+ b → cursorPos st = JS.length a + JS.length acc →
    let kept := JS.str (List.filter
                          (fun c => negb (Ascii.eqb c "010" || Ascii.eqb c "013")) cs) in
    let r := fold_left
               (fun '(output, st1) char =>
                  if Ascii.eqb char "010" || Ascii.eqb char "013" then (output, st1)
                  else let '(o, st2) := insert (JS.of_char char) st1 in
                       (output +:+ o, st2))
               cs (out, st) in
    buffer (snd r) = a +:+ (acc +:+ kept) +:+ b
    ∧ cursorPos (snd r) = JS.length a + JS.length (acc +:+ kept)
    ∧ history (snd r) = history st
    ∧ historyIndex (snd r) = historyIndex st.
Proof.
  induction cs as [|c cs IH]; intros a acc b out st Hbuf Hcur; cbv zeta.
  - cbn [fold_left List.filter snd]. change (JS.str []) with EmptyString.
    by rewrite append_empty_r.
  - cbn [fold_left List.filter].
    destruct (Ascii.eqb c "010" || Ascii.eqb c "013") eqn:Hc; cbn [negb].
    + by apply IH.
    + destruct (insert (JS.of_char c) st) as [o st2] eqn:Hins.
      destruct (insert_at (JS.of_char c) (a +:+ acc) b st) as (Hb2 & Hc2 & Hh2 & Hi2).
      { by rewrite append_assoc. }
      { by rewrite JSFacts.length_app. }
      rewrite Hins in Hb2, Hc2, Hh2, Hi2. cbn [snd] in Hb2, Hc2, Hh2, Hi2.
      destruct (IH a (acc +:+ JS.of_char c) b (out +:+ o) st2) as (Hb & Hc' & Hh & Hi).
      { by rewrite Hb2, !append_assoc. }
      { rewrite Hc2, !JSFacts.length_app. lia. }
      cbv zeta in Hb, Hc', Hh, Hi.
      change (JS.str (c :: ?l)) with (String c (JS.str l)).
      rewrite Hb, Hc', Hh, Hi, Hh2, Hi2.
      rewrite !append_assoc. done.
Qed.

(** X25. Pasted text enters the line at the cursor, without its line
    feeds and carriage returns, and the cursor ends up after it. *)
Theorem insertText_inserts_at_cursor (text : string) (st : InputBuffer) :
  0 ≤ cursorPos st ≤ JS.length (buffer st) →
  buffer (snd (insertText text st))
  = JS.slice (buffer st) 0 (cursorPos st) +:+ pasted text
      +:+ JS.slice_from (buffer st) (cursorPos st)
  ∧ cursorPos (snd (insertText text st)) = cursorPos st + JS.length (pasted text).
Proof.
  intros Hcur.
  destruct (cut_at (buffer st) (cursorPos st) Hcur) as (a & b & Hbuf & Hlen & -> & ->).
  destruct (insertText_fold (JS.chars text) a EmptyString b EmptyString st)
    as (Hb & Hc & _).
  - by rewrite Hbuf.
  - rewrite <- Hlen. change (JS.length EmptyString) with 0. lia.
  - cbv zeta in Hb, Hc. unfold insertText, pasted.
    rewrite Hb, Hc, <- Hlen. done.
Qed.

Lemma insertText_inserts_at_cursor_witness :
  buffer (snd (insertText ("a" +:+ JS.of_char "010" +:+ "b") initial)) = "ab".
Proof.
  destruct (insertText_inserts_at_cursor ("a" +:+ JS.of_char "010" +:+ "b") initial
              ltac:(vm_compute; split; discriminate)) as [Hb _].
  exact Hb.
Defined.

(** *** History *)

Lemma at_last {A} (l : list A) : at_ l (Z.of_nat (length l) - 1) = last l.
Proof.
  unfold at_. destruct l as [|x l _] using rev_ind; [done|].
  rewrite length_app, last_snoc. cbn [length].
  destruct (Z.ltb_spec (Z.of_nat (length l + 1) - 1) 0); [lia|].
  replace (Z.to_nat (Z.of_nat (length l + 1) - 1)) with (length l) by lia.
  by rewrite lookup_app_r, Nat.sub_diag by lia.
Qed.

(** X26. From a fresh line, Up recalls the last entry of the history and
    Down brings back the line that was being typed, with the cursor at its
    end. *)
Theorem history_up_then_down (st : InputBuffer) (entry : string) :
  historyIndex st = -1 → last (history st) = Some entry →
  ∃ (out1 out2 : string) (st1 st2 : InputBuffer),
    historyUp st = Ret (out1, st1)
    ∧ buffer st1 = entry ∧ cursorPos st1 = JS.length entry
    ∧ historyDown st1 = Ret (out2, st2)
    ∧ buffer st2 = buffer st ∧ cursorPos st2 = JS.length (buffer st)
    ∧ historyIndex st2 = -1 ∧ history st2 = history st.
Proof.
  intros Hidx Hlast.
  assert (history st ≠ []) as Hne by (intros H; by rewrite H in Hlast).
  assert (0 < Z.of_nat (length (history st))) as Hlen
    by (destruct (history st); [done | cbn [length]; lia]).
  set (stU := withHistoryIndex (withTempBuffer st (buffer st))
                (Z.of_nat (length (history st)) - 1)).
  set (st1 := snd (replaceLine entry stU)).
  set (st2 := snd (replaceLine (tempBuffer st1) (withHistoryIndex st1 (-1)))).
  exists (fst (replaceLine entry stU)),
         (fst (replaceLine (tempBuffer st1) (withHistoryIndex st1 (-1)))), st1, st2.
  split.
  { unfold historyUp. rewrite bool_decide_eq_false_2 by done.
    rewrite Hidx. change (-1 =? -1) with true. cbv iota.
    fold stU. unfold replaceWithEntry.
    change (history stU) with (history st).
    change (historyIndex stU) with (Z.of_nat (length (history st)) - 1).
    rewrite at_last, Hlast. by destruct (replaceLine entry stU). }
  split; [done|]. split; [done|].
  split.
  { unfold historyDown.
    change (historyIndex st1) with (Z.of_nat (length (history st)) - 1).
    change (history st1) with (history st).
    destruct (Z.eqb_spec (Z.of_nat (length (history st)) - 1) (-1)); [lia|].
    rewrite Z.ltb_irrefl.
    by destruct (replaceLine (tempBuffer st1) (withHistoryIndex st1 (-1))). }
  done.
Qed.

Lemma history_up_then_down_witness :
  ∃ (out1 out2 : string) (st1 st2 : InputBuffer),
    historyUp (snd (submit (snd (insertText " ls -la " initial)))) = Ret (out1, st1)
    ∧ buffer st1 = "ls -la" ∧ cursorPos st1 = 6
    ∧ historyDown st1 = Ret (out2, st2)
    ∧ buffer st2 = EmptyString ∧ cursorPos st2 = 0
    ∧ historyIndex st2 = -1 ∧ history st2 = ["ls -la"].
Proof.
  exact (history_up_then_down (snd (submit (snd (insertText " ls -la " initial))))
           "ls -la" eq_refl eq_refl).
Defined.

End EditorLaws.

(** ** Tab completion *)

Module CompletionLaws.

Import InputBuffer StringFacts.

Lemma startsWith_prefix (s p : string) :
  JS.startsWith s p = true ↔ JS.chars p `prefix_of` JS.chars s.
Proof.
  rewrite startsWith_spec. split.
  - intros [r ->]. exists (JS.chars r). apply chars_app.
  - intros [k Hk]. exists (JS.str k).
    rewrite <- (JSFacts.str_chars s), Hk, str_app. by rewrite JSFacts.str_chars.
Qed.

(** [prefix.slice(0, -1)] drops the last character. *)
Lemma chars_slice_init (p : string) :
  JS.chars (JS.slice p 0 (-1)) = take (length (JS.chars p) - 1) (JS.chars p).
Proof.
  unfold JS.slice, JS.rel_index. cbn [Z.ltb Z.compare].
  pose proof (JSFacts.length_nonneg p) as Hlen.
  rewrite Z.min_l by lia. change (Z.to_nat 0) with O. rewrite drop_0, Z.sub_0_r.
  rewrite JSFacts.chars_str. f_equal.
  unfold JS.length in *. rewrite JSFacts.length_chars. lia.
Qed.

Lemma prefix_proper {A} (q l : list A) :
  q `prefix_of` l → q ≠ l → q `prefix_of` take (length l - 1) l.
Proof.
  intros [k ->] Hne. destruct k as [|x k _] using rev_ind.
  { by rewrite app_nil_r in Hne. }
  rewrite app_assoc, length_app. cbn [length].
  replace (length (q ++ k) + 1 - 1)%nat with (length (q ++ k)) by lia.
  rewrite take_app_length. by apply prefix_app_r.
Qed.

(** What the inner loop of [findCommonPrefix] returns: the longest
    prefix of [prefix] that [s] starts with. *)
Lemma shrinkToPrefix_spec (fuel : nat) :
  ∀ (prefix s : string),
    (length (JS.chars prefix) ≤ fuel)%nat →
    let r := shrinkToPrefix fuel prefix s in
    JS.chars r `prefix_of` JS.chars prefix
    ∧ JS.chars r `prefix_of` JS.chars s
    ∧ ∀ q, q `prefix_of` JS.chars prefix → q `prefix_of` JS.chars s →
           q `prefix_of` JS.chars r.
Proof.
  induction fuel as [|fuel IH]; intros prefix s Hfuel; cbv zeta.
  - assert (prefix = EmptyString) as ->.
    { destruct prefix; [done|]. cbn in Hfuel. lia. }
    cbn. repeat split; try apply prefix_nil. done.
  - cbn [shrinkToPrefix].
    destruct (JS.startsWith s prefix) eqn:Hstart.
    + apply startsWith_prefix in Hstart. by repeat split.
    + assert (¬ JS.chars prefix `prefix_of` JS.chars s) as Hnot.
      { intros H%startsWith_prefix. congruence. }
      destruct (IH (JS.slice prefix 0 (-1)) s) as (H1 & H2 & H3).
      { rewrite chars_slice_init, length_take. lia. }
      cbv zeta in H1, H2, H3. rewrite chars_slice_init in H1, H3.
      split; [|split; [done|]].
      * etrans; [exact H1|]. apply prefix_take.
      * intros q Hq Hs. apply H3; [|done].
        apply prefix_proper; [done|]. intros ->. done.
Qed.

Lemma commonPrefix_fold (rest : list string) :
  ∀ (p : string),
    let r := fold_left (fun prefix s => shrinkToPrefix (String.length prefix) prefix s)
               rest p in
    JS.chars r `prefix_of` JS.chars p
    ∧ Forall (fun s => JS.chars r `prefix_of` JS.chars s) rest
    ∧ ∀ q, q `prefix_of` JS.chars p →
           Forall (fun s => q `prefix_of` JS.chars s) rest →
           q `prefix_of` JS.chars r.
Proof.
  induction rest as [|s rest IH]; intros p; cbv zeta.
  - cbn [fold_left]. by repeat split.
  - cbn [fold_left].
    destruct (shrinkToPrefix_spec (String.length p) p s) as (H1 & H2 & H3).
    { by rewrite JSFacts.length_chars. }
    cbv zeta in H1, H2, H3.
    destruct (IH (shrinkToPrefix (String.length p) p s)) as (G1 & G2 & G3).
    cbv zeta in G1, G2, G3.
    split; [by etrans|]. split.
    + constructor; [by etrans | done].
    + intros q Hq Hall. inversion Hall; subst. apply G3; [|done]. by apply H3.
Qed.

(** X27. [findCommonPrefix] returns the longest common prefix: every
    candidate starts with it, and it starts with every string all the
    candidates start with. *)
Theorem findCommonPrefix_is_longest (strings : list string) :
  strings ≠ [] →
  Forall (fun s => JS.startsWith s (findCommonPrefix strings) = true) strings
  ∧ ∀ q, Forall (fun s => JS.startsWith s q = true) strings →
         JS.startsWith (findCommonPrefix strings) q = true.
Proof.
  destruct strings as [|first rest]; [done|]. intros _.
  cbn [findCommonPrefix].
  destruct (commonPrefix_fold rest first) as (H1 & H2 & H3). cbv zeta in H1, H2, H3.
  split.
  - constructor; [by apply startsWith_prefix|].
    eapply Forall_impl; [exact H2|]. intros s Hs. by apply startsWith_prefix.
  - intros q Hq. inversion Hq as [|? ? Hfirst Hrest]; subst.
    apply startsWith_prefix, H3; [by apply startsWith_prefix|].
    eapply Forall_impl; [exact Hrest|]. intros s Hs. by apply startsWith_prefix.
Qed.

Lemma findCommonPrefix_is_longest_witness :
  Forall (fun s => JS.startsWith s (findCommonPrefix ["docker"; "docker-compose"; "done"])
                   = true)
    ["docker"; "docker-compose"; "done"]
  ∧ findCommonPrefix ["docker"; "docker-compose"; "done"] = "do".
Proof.
  destruct (findCommonPrefix_is_longest ["docker"; "docker-compose"; "done"]
              ltac:(discriminate)) as [Hall _].
  split; [exact Hall | reflexivity].
Defined.

End CompletionLaws.

(** ** Keystrokes that are not bursts *)

Module RecorderLaws.

Import KeystrokeRecorder.
Local Open Scope Z_scope.

Lemma filter_snoc_recent (now : Z) (ts : list Z) :
  List.filter (fun t => now - 5000 <? t) (ts ++ [now])
  = List.filter (fun t => now - 5000 <? t) ts ++ [now].
Proof.
  rewrite List.filter_app. cbn [List.filter].
  by destruct (Z.ltb_spec (now - 5000) now); [|lia].
Qed.

Lemma filter_Forall {A} (P : A → Prop) (f : A → bool) (l : list A) :
  Forall P l → Forall P (List.filter f l).
Proof.
  induction 1 as [|x l Hx _ IH]; [constructor|]. cbn.
  destruct (f x); [by constructor | done].
Qed.

(** A keystroke that comes late after all the recorded ones is no
    burst. *)
Lemma addKeystroke_slow (now : Z) (ts : list Z) :
  Forall (fun t => t + BURST_THRESHOLD < now) ts →
  addKeystroke now ts
  = (None, List.filter (fun t => now - 5000 <? t) ts ++ [now]).
Proof.
  intros Hts. unfold addKeystroke. rewrite filter_snoc_recent.
  set (F := List.filter (fun t => now - 5000 <? t) ts).
  assert (Forall (fun t => t + BURST_THRESHOLD < now) F) as HF
    by (by apply filter_Forall).
  destruct (Z.of_nat (length (F ++ [now])) <? BURST_MIN_CHARS) eqn:Hlen; [done|].
  rewrite length_app. cbn [length].
  replace (length F + 1 - 1)%nat with (length F) by lia.
  destruct F as [|t0 F0] using rev_ind.
  { cbn in Hlen. done. }
  clear IHF0. rewrite length_app. cbn [length].
  replace (length F0 + 1)%nat with (S (length F0)) by lia.
  cbn [burstScan].
  rewrite lookup_app_r by (rewrite length_app; cbn; lia).
  rewrite length_app. cbn [length].
  replace (S (length F0) - (length F0 + 1))%nat with O by lia. cbn [lookup list_lookup].
  rewrite lookup_app_l by (rewrite length_app; cbn; lia).
  rewrite lookup_app_r by lia. rewrite Nat.sub_diag. cbn [lookup list_lookup].
  apply Forall_app in HF as [_ Ht0]. inversion Ht0; subst.
  destruct (Z.leb_spec (now - t0) BURST_THRESHOLD); [lia|].
  done.
Qed.

Lemma feed_slow (keys : list Keystroke) :
  ∀ r : KeystrokeRecorder,
    Forall (fun t => Forall (fun k => t + BURST_THRESHOLD < ks_now k) keys)
      (burstDetector r) →
    StronglySorted (fun a b => ks_now a + BURST_THRESHOLD < ks_now b) keys →
    events (feed r keys) = events r ++ keyEventsOf keys.
Proof.
  induction keys as [|k keys IH]; intros r Hdet Hsorted.
  { cbn. by rewrite app_nil_r. }
  inversion Hsorted as [|? ? Hrest Hk]; subst.
  rewrite RecorderFacts.feed_cons. unfold recordKey.
  rewrite addKeystroke_slow.
  - rewrite IH; [|cbn [burstDetector]|done].
    + cbn [events keyEventsOf fmap list_fmap]. by rewrite <- app_assoc.
    + apply Forall_app. split.
      * apply filter_Forall. eapply Forall_impl; [exact Hdet|].
        intros t Ht. by inversion Ht.
      * constructor; [|constructor]. exact Hk.
  - eapply Forall_impl; [exact Hdet|]. intros t Ht. by inversion Ht.
Qed.

Lemma slowlyTyped_sorted (keys : list Keystroke) :
  slowlyTyped keys →
  StronglySorted (fun a b => ks_now a + BURST_THRESHOLD < ks_now b) keys.
Proof.
  intros Hslow. apply Sorted_StronglySorted.
  { intros a b c Hab Hbc. unfold BURST_THRESHOLD in *. lia. }
  induction keys as [|k keys IH]; [constructor|].
  constructor.
  - apply IH. intros i a b Ha Hb. by apply (Hslow (S i)).
  - destruct keys as [|k2 keys]; constructor. by apply (Hslow O).
Qed.

(** X28. Keys typed more than 50 ms apart are never taken for a paste:
    the recorder holds the key events and nothing else. *)
Theorem slow_typing_is_never_flagged (keys : list Keystroke) :
  slowlyTyped keys →
  events (feed initial keys) = keyEventsOf keys
  ∧ List.filter isPaste (events (feed initial keys)) = [].
Proof.
  intros Hslow.
  assert (events (feed initial keys) = keyEventsOf keys) as Hev.
  { rewrite feed_slow; [done | constructor | by apply slowlyTyped_sorted]. }
  split; [exact Hev|]. rewrite Hev. apply RecorderFacts.filter_isPaste_keyEvents.
Qed.

Lemma paced_slowlyTyped (t0 gap : Z) (presses : list (string * KeyMeta * Z)) :
  BURST_THRESHOLD < gap → ∀ i, slowlyTyped (paced t0 gap i presses).
Proof.
  intros Hgap. induction presses as [|[[k m] now'] rest IH]; intros i0 i a b.
  - cbn [paced]. by rewrite lookup_nil.
  - cbn [paced]. destruct i as [|i].
    + intros [= <-]. destruct rest as [|[[k2 m2] now2] rest]; [done|].
      cbn [paced]. intros [= <-]. cbn [ks_now]. rewrite Nat2Z.inj_succ. unfold BURST_THRESHOLD in *. nia.
    + apply (IH (S i0) i).
Qed.

Lemma slow_typing_is_never_flagged_witness :
  List.filter isPaste
    (events (feed initial
               (paced 1000 60 0
                  (replicate 40
                     ("a", {| shift := false; ctrl := false; alt := false;
                              meta := false |}, 7)))))
  = [].
Proof.
  apply (slow_typing_is_never_flagged
           (paced 1000 60 0
              (replicate 40
                 ("a", {| shift := false; ctrl := false; alt := false;
                          meta := false |}, 7)))).
  apply paced_slowlyTyped. reflexivity.
Defined.

(** *** The number of synthesised pastes *)

Lemma filter_length_le {A} (f : A → bool) (l : list A) :
  (length (List.filter f l) ≤ length l)%nat.
Proof. induction l as [|x l IH]; [done|]. cbn. destruct (f x); cbn; lia. Qed.

Lemma recordKey_budget (key : string) (m : KeyMeta) (now now' : Z)
    (r : KeystrokeRecorder) :
  (30 * pastes (recordKey key m now now' r) + length (burstDetector (recordKey key m now now' r))
   ≤ 30 * pastes r + length (burstDetector r) + 1)%nat.
Proof.
  unfold recordKey, addKeystroke, pastes.
  set (kept := List.filter (fun t => now - 5000 <? t) (burstDetector r ++ [now])).
  assert (length kept ≤ length (burstDetector r) + 1)%nat as Hkept.
  { unfold kept. etrans; [apply filter_length_le|]. rewrite length_app. cbn. lia. }
  destruct (Z.ltb_spec (Z.of_nat (length kept)) BURST_MIN_CHARS) as [Hlt|Hge].
  { cbn [events burstDetector]. rewrite List.filter_app, length_app. cbn. lia. }
  destruct (burstScan kept (length kept - 1) 1 (length kept - 1)) as [c s].
  destruct (BURST_MIN_CHARS <=? c).
  - cbn [events burstDetector]. rewrite !List.filter_app, !length_app. cbn.
    unfold BURST_MIN_CHARS in Hge. lia.
  - cbn [events burstDetector]. rewrite List.filter_app, length_app. cbn. lia.
Qed.

Lemma feed_budget (keys : list Keystroke) :
  ∀ r : KeystrokeRecorder,
    (30 * pastes (feed r keys) + length (burstDetector (feed r keys))
     ≤ 30 * pastes r + length (burstDetector r) + length keys)%nat.
Proof.
  induction keys as [|k keys IH]; intros r; [cbn; lia|].
  rewrite RecorderFacts.feed_cons. etrans; [apply IH|].
  pose proof (recordKey_budget (ks_key k) (ks_meta k) (ks_now k) (ks_now' k) r).
  cbn [length]. lia.
Qed.

(** X29. Whatever the keystrokes and their times, at most one paste is
    synthesised for every 30 of them. *)
Theorem one_paste_per_thirty_keys (keys : list Keystroke) :
  (30 * length (List.filter isPaste (events (feed initial keys))) ≤ length keys)%nat.
Proof.
  pose proof (feed_budget keys initial) as H. unfold pastes in H.
  cbn [initial events burstDetector List.filter length] in H. lia.
Qed.

End RecorderLaws.

(** ** The integrity report *)

Module ScorerLaws.

Import KeystrokeRecorder PatternAnalyzer IntegrityScorer.
Local Open Scope Z_scope.

Ltac all_low :=
  repeat match goal with
         | H : Forall _ (_ :: _) |- _ => inversion H; clear H; subst
         end;
  try discriminate; try done.

(** X30. The score of a report is 100 less the deductions of its flags
    and lies between 30 and 100; there are at most five flags; and the
    summary is the [Clean session] one exactly when every flag is of low
    severity. *)
Theorem report_score (analyze : list SessionEvent → TypingPattern)
    (events : list SessionEvent) (pasteDetector : PasteDetector.PasteDetector) :
  let report := generateReport analyze events pasteDetector in
  score report = 100 - deductions (flags report)
  ∧ 30 ≤ score report ≤ 100
  ∧ (length (flags report) ≤ 5)%nat
  ∧ (summary report = "Clean session - no significant integrity concerns."
     ↔ Forall (fun f => severity f = low) (flags report)).
Proof.
  cbv zeta. unfold generateReport. cbv zeta. cbn [score flags summary].
  destruct (5 <? PasteDetector.getPasteCount pasteDetector);
    [|destruct (2 <? PasteDetector.getPasteCount pasteDetector)];
    destruct (0 <? sustainedHighSpeedSegments (analyze events));
    destruct (2 <? perfectCodeSegments (analyze events));
    destruct (3 <? idleBurstCount (analyze events));
    destruct (10 <? PatternAnalyzer.tabAwayCount (analyze events));
    unfold raiseFlag, deductions;
    cbn [fst snd app fold_right deduction severity SEVERITY_DEDUCTIONS length];
    (split; [reflexivity|]); (split; [split; discriminate|]); (split; [lia|]);
    (split; [intros Hs; try discriminate Hs; repeat constructor
            | intros Hlow; all_low]).
Qed.

End ScorerLaws.
